(** * gif2esp: the image pipeline of [gif-processing.ts]

    A shallow embedding of the four core functions of the converter

    - [compressRLE] and the C routine [<name>_unpack] that
      [generateHeaderFile] emits next to the compressed frames,
    - [extractComposedFrames], the GIF patch compositor,
    - [processFrame], the resampler / quantizer / SSD1306 packer,

    together with the properties the design document states about them,
    and of the sampling loop of [loadVideoFrames], the data part of
    [generateHeaderFile] and the canvas sizing of the converter component,
    with further properties read off the code.

    Conventions.  Typed arrays are lists indexed from 0 ([l !! i] is a read,
    [<[i:=v]> l] a write); bytes and integer-valued JavaScript numbers are
    [Z] or [nat]; JavaScript numbers that carry fractions are IEEE-754
    binary64 values, i.e. Rocq's primitive [float]. *)

From Stdlib Require Import ZArith Lia Bool.
From Stdlib Require Import Floats.PrimFloat Floats.SpecFloat Floats.FloatOps.
From Stdlib Require Import Uint63 Ascii.
From Stdlib Require QArith Qround.
From stdpp Require Import base tactics option list gmap strings.

Set Warnings "-inexact-float".
Local Open Scope nat_scope.

(** ** Bytes *)

(** Storing a number into a [Uint8Array] keeps it modulo 256. *)
Definition to_uint8 (v : Z) : Z := (v mod 256)%Z.

Definition is_byte (v : Z) : Prop := (0 <= v < 256)%Z.

(** * The run-length codec *)

Module RLE.

(** ** Encoder: [compressRLE]

    The loops of the source address the input as [data[i + k]] with a
    cursor [i] that only moves forward; the model keeps the same cursor and
    the same relative reads.  Each loop gets as much fuel as its own guard
    allows iterations, so no loop is ever cut short (see [scanRun_fuel],
    [scanLiteral_fuel], [compressLoop_fuel]). *)

(** [while (i + runLen < data.length && runLen < 130 &&
           data[i + runLen] === data[i]) runLen++] *)
Fixpoint scanRun (fuel : nat) (data : list Z) (i runLen : nat) : nat :=
  match fuel with
  | O => runLen
  | S fuel' =>
      if bool_decide (i + runLen < length data)
         && bool_decide (runLen < 130)
         && bool_decide (data !! (i + runLen) = data !! i)
      then scanRun fuel' data i (S runLen)
      else runLen
  end.

(** The guard of the [break] inside the literal loop: three equal bytes
    start at position [j]. *)
Definition runOf3At (data : list Z) (j : nat) : bool :=
  bool_decide (j + 2 < length data)
  && bool_decide (data !! j = data !! (j + 1))
  && bool_decide (data !! j = data !! (j + 2)).

(** [while (i + litLen < data.length && litLen < 128)
       { if (run of 3 at i + litLen) break; litLen++ }] *)
Fixpoint scanLiteral (fuel : nat) (data : list Z) (i litLen : nat) : nat :=
  match fuel with
  | O => litLen
  | S fuel' =>
      if bool_decide (i + litLen < length data) && bool_decide (litLen < 128)
      then if runOf3At data (i + litLen) then litLen
           else scanLiteral fuel' data i (S litLen)
      else litLen
  end.

(** [for (k = 0; k < litLen; k++) output.push(data[i + k])] *)
Definition pushLiteral (data : list Z) (i litLen : nat) (output : list Z) : list Z :=
  foldl (fun out k => out ++ [data !!! (i + k)]) output (seq 0 litLen).

(** The outer [while (i < data.length)] loop; [output] is the JavaScript
    array the records are pushed onto. *)
Fixpoint compressLoop (fuel : nat) (data : list Z) (i : nat) (output : list Z)
  : list Z :=
  match fuel with
  | O => output
  | S fuel' =>
      if bool_decide (i < length data) then
        let runLen := scanRun 130 data i 1 in
        if bool_decide (3 <= runLen) then
          compressLoop fuel' data (i + runLen)
            (output ++ [(128 + (Z.of_nat runLen - 3))%Z; data !!! i])
        else
          let litLen := scanLiteral 128 data i 0 in
          if bool_decide (0 < litLen) then
            compressLoop fuel' data (i + litLen)
              (pushLiteral data i litLen (output ++ [(Z.of_nat litLen - 1)%Z]))
          else output
      else output
  end.

(** [return new Uint8Array(output)] *)
Definition compressRLE (data : list Z) : list Z :=
  to_uint8 <$> compressLoop (length data) data 0 [].

(** ** Decoder: the emitted C routine [<name>_unpack]

    [val] is the encoded stream, [buffer] the caller's output array.  A
    read of [val] past its end has no defined result in C; the model
    returns [None] there.  The routine declares its cursors and the buffer
    length as [uint16_t] and its counts as [uint8_t]: [wrap16] is the
    reduction a cursor undergoes after each increment.  With
    [wrap16 := id] the routine runs over mathematical integers, which is
    the decoder contract of the design document; [wrap16 := (.mod 65536)]
    is the routine as compiled. *)

Record cursor := Cursor { valIdx : nat; bufIdx : nat; buffer : list Z }.

Section Unpack.
Variable wrap16 : nat -> nat.

(** [for (k = 0; k < count; k++)
       if (bufIdx < bufferLen) buffer[bufIdx++] = val[valIdx++];] *)
Fixpoint copyLiteral (count : nat) (val : list Z) (bufferLen : nat) (c : cursor)
  : option cursor :=
  match count with
  | O => Some c
  | S count' =>
      if bool_decide (bufIdx c < bufferLen) then
        b ← val !! valIdx c;
        copyLiteral count' val bufferLen
          (Cursor (wrap16 (S (valIdx c))) (wrap16 (S (bufIdx c)))
                  (<[bufIdx c := b]> (buffer c)))
      else copyLiteral count' val bufferLen c
  end.

(** [for (k = 0; k < count; k++)
       if (bufIdx < bufferLen) buffer[bufIdx++] = value;] *)
Fixpoint fillRun (count : nat) (value : Z) (bufferLen : nat) (c : cursor) : cursor :=
  match count with
  | O => c
  | S count' =>
      if bool_decide (bufIdx c < bufferLen) then
        fillRun count' value bufferLen
          (Cursor (valIdx c) (wrap16 (S (bufIdx c)))
                  (<[bufIdx c := value]> (buffer c)))
      else fillRun count' value bufferLen c
  end.

(** [while (bufIdx < bufferLen) { header = val[valIdx++]; ... }] *)
Fixpoint unpackLoop (fuel : nat) (val : list Z) (bufferLen : nat) (c : cursor)
  : option cursor :=
  match fuel with
  | O => None
  | S fuel' =>
      if bool_decide (bufIdx c < bufferLen) then
        header ← val !! valIdx c;
        let c1 := Cursor (wrap16 (S (valIdx c))) (bufIdx c) (buffer c) in
        if bool_decide (header < 128)%Z then
          let count := Z.to_nat (to_uint8 (header + 1)) in
          c2 ← copyLiteral count val bufferLen c1;
          unpackLoop fuel' val bufferLen c2
        else
          let count := Z.to_nat (to_uint8 ((header - 128) + 3)) in
          value ← val !! valIdx c1;
          let c2 := Cursor (wrap16 (S (valIdx c1))) (bufIdx c1) (buffer c1) in
          unpackLoop fuel' val bufferLen (fillRun count value bufferLen c2)
      else Some c
  end.

(** A call [unpack(val, buffer, bufferLen)] on a zeroed buffer of the
    declared length; the result is the buffer after the call. *)
Definition unpack (val : list Z) (bufferLen : nat) : option (list Z) :=
  let n := wrap16 bufferLen in
  buffer <$> unpackLoop (S n) val n (Cursor 0 0 (replicate bufferLen 0%Z)).
End Unpack.

(** The decoder contract: the routine over unbounded integers. *)
Definition decode : list Z -> nat -> option (list Z) := unpack id.

(** The routine with its declared 16-bit cursors. *)
Definition uint16 (n : nat) : nat := Z.to_nat (Z.of_nat n mod 65536).

Definition unpack16 : list Z -> nat -> option (list Z) := unpack uint16.

End RLE.

(** * Images *)

Module Image.
(** [ImageData]: [data] is the flat RGBA byte array, four bytes per pixel,
    rows top to bottom. *)
Record ImageData := mkImageData { width : nat; height : nat; data : list Z }.

(** Storing into a [Uint8ClampedArray] clamps to [0, 255]. *)
Definition clamp8 (v : Z) : Z := Z.max 0 (Z.min 255 v).

(** [new ImageData(array, w, h)] throws unless both sides are positive and
    the array holds exactly [4 * w * h] bytes. *)
Definition newImageData (array : list Z) (w h : nat) : option ImageData :=
  if bool_decide (0 < w) && bool_decide (0 < h)
     && bool_decide (length array = 4 * w * h)
  then Some (mkImageData w h array) else None.
End Image.

(** * The frame compositor *)

Module Canvas.
Import Image.

(** ** Data *)

(** One decoded GIF frame as [decompressFrames] delivers it: [dims] is the
    patch rectangle, [patch] its flat RGBA bytes, [disposalType] the GIF
    disposal method (1 keep, 2 restore to background, 3 restore to
    previous). *)
Record Dims := mkDims { left : nat; top : nat; dwidth : nat; dheight : nat }.
Record RawFrame := mkRawFrame { dims : Dims; patch : list Z; disposalType : Z }.

(** ** The 2D canvas

    The canvas operations belong to the browser, not to the repository.
    They are modelled here after the HTML Canvas 2D standard, on a bitmap of
    RGBA pixels in row-major order. *)

Record pixel := RGBA { red : Z; green : Z; blue : Z; alpha : Z }.

Definition transparent : pixel := RGBA 0 0 0 0.

Record bitmap := mkBitmap { bw : nat; bh : nat; pixels : list pixel }.

Definition pixelAt (b : bitmap) (x y : nat) : option pixel :=
  if bool_decide (x < bw b) then pixels b !! (y * bw b + x) else None.

Definition bytesOf (ps : list pixel) : list Z :=
  ps ≫= (fun p => [red p; green p; blue p; alpha p]).

Fixpoint pixelsOf (bs : list Z) : list pixel :=
  match bs with
  | r :: g :: b :: a :: rest => RGBA r g b a :: pixelsOf rest
  | _ => []
  end.

(** Pixel [(x, y)] of an [ImageData]. *)
Definition imagePixel (img : ImageData) (x y : nat) : option pixel :=
  if bool_decide (x < width img) then pixelsOf (data img) !! (y * width img + x)
  else None.

(** [new OffscreenCanvas(w, h)], and what assigning [canvas.width] leaves
    behind: a transparent-black bitmap. *)
Definition newCanvas (w h : nat) : bitmap :=
  mkBitmap w h (replicate (w * h) transparent).

(** [ctx.getImageData(0, 0, w, h)] with the canvas' own size: a copy of the
    whole bitmap; it throws on an empty rectangle. *)
Definition getImageData (b : bitmap) : option ImageData :=
  if bool_decide (0 < bw b) && bool_decide (0 < bh b)
  then Some (mkImageData (bw b) (bh b) (bytesOf (pixels b))) else None.

(** A canvas operation that rewrites pixels one by one: [f x y old] is the
    new pixel at [(x, y)]. *)
Definition mapBitmap (f : nat -> nat -> pixel -> pixel) (b : bitmap) : bitmap :=
  mkBitmap (bw b) (bh b)
    (imap (fun k old => f (k mod bw b) (k / bw b) old) (pixels b)).

(** [ctx.putImageData(img, 0, 0)]: the pixels of [img] replace those of
    the canvas, without compositing, clipped to the canvas. *)
Definition putImageData (img : ImageData) (b : bitmap) : bitmap :=
  mapBitmap (fun x y old =>
    if bool_decide (x < width img) && bool_decide (y < height img)
    then default old (imagePixel img x y) else old) b.

Section Compositing.
(** The standard fixes source-over compositing for a fully opaque source
    pixel (it replaces the destination) and for a fully transparent one
    (the destination stays).  In between the result depends on the
    premultiplied storage of the canvas; [blend] stands for it. *)
Variable blend : pixel -> pixel -> pixel.

Definition sourceOver (src dst : pixel) : pixel :=
  if bool_decide (alpha src = 255%Z) then src
  else if bool_decide (alpha src = 0%Z) then dst
  else blend src dst.

(** [ctx.drawImage(src, left, top)] under the default
    [globalCompositeOperation], [source-over]. *)
Definition drawImage (src : bitmap) (left top : nat) (b : bitmap) : bitmap :=
  mapBitmap (fun x y old =>
    if bool_decide (left <= x < left + bw src)
       && bool_decide (top <= y < top + bh src)
    then match pixelAt src (x - left) (y - top) with
         | Some p => sourceOver p old
         | None => old
         end
    else old) b.

(** [ctx.clearRect(left, top, w, h)] *)
Definition clearRect (left top w h : nat) (b : bitmap) : bitmap :=
  mapBitmap (fun x y old =>
    if bool_decide (left <= x < left + w) && bool_decide (top <= y < top + h)
    then transparent else old) b.

(** ** [extractComposedFrames] *)

(** The part of the [forEach] body up to and including
    [ctx.drawImage(patchCanvas, dims.left, dims.top)].  The patch canvas is
    resized, hence cleared, before the patch is put on it. *)
Definition drawPatch (frame : RawFrame) (canvas : bitmap) : option bitmap :=
  let d := dims frame in
  patchData ← newImageData (clamp8 <$> patch frame) (dwidth d) (dheight d);
  let patchCanvas := putImageData patchData (newCanvas (dwidth d) (dheight d)) in
  Some (drawImage patchCanvas (left d) (top d) canvas).

(** One iteration of [rawFrames.forEach]: the canvas before the frame goes
    in, the canvas left for the next frame and the emitted image come
    out.  [None] stands for a thrown exception. *)
Definition composeStep (frame : RawFrame) (canvas : bitmap)
  : option (bitmap * ImageData) :=
  let d := dims frame in
  _backup ← (if bool_decide (disposalType frame = 3%Z)
             then Some <$> getImageData canvas else Some None);
  drawn ← drawPatch frame canvas;
  frameImage ← getImageData drawn;
  let next :=
    if bool_decide (disposalType frame = 2%Z)
    then clearRect (left d) (top d) (dwidth d) (dheight d) drawn
    else if bool_decide (disposalType frame = 3%Z)
         then match _backup with
              | Some saved => putImageData saved drawn
              | None => drawn
              end
         else drawn in
  Some (next, frameImage).

(** The [forEach] loop: [frames] collects the emitted images. *)
Fixpoint composeLoop (rawFrames : list RawFrame) (canvas : bitmap)
  (frames : list ImageData) : option (bitmap * list ImageData) :=
  match rawFrames with
  | [] => Some (canvas, frames)
  | frame :: rest =>
      '(next, frameImage) ← composeStep frame canvas;
      composeLoop rest next (frames ++ [frameImage])
  end.

Definition extractComposedFrames (rawFrames : list RawFrame)
  (gifWidth gifHeight : nat) : option (list ImageData) :=
  snd <$> composeLoop rawFrames (newCanvas gifWidth gifHeight) [].
End Compositing.

End Canvas.

(** * Resampling, quantizing and packing one frame *)

Module Frame.
Import Image.

(** ** JavaScript numbers

    A [number] with a fractional part is a binary64 float.  Loop counters,
    sizes and array indices are integers far below [2^53], on which
    JavaScript arithmetic is exact; they are [nat] here and enter float
    arithmetic through [ofNat]. *)

(** An integer between 0 and [2^53] as a float. *)
Definition ofZ (z : Z) : float := PrimFloat.of_uint63 (Uint63.of_Z z).
Definition ofNat (n : nat) : float := ofZ (Z.of_nat n).

(** [Math.floor] as an integer; [None] for NaN and the infinities, which
    fail every comparison the result is used in. *)
Definition floorZ (f : float) : option Z :=
  match Prim2SF f with
  | S754_zero _ => Some 0%Z
  | S754_finite s m e =>
      let n := if s then Zneg m else Zpos m in
      Some (match e with
            | Z0 => n
            | Zpos k => n * 2 ^ Zpos k
            | Zneg k => n / 2 ^ Zpos k
            end)%Z
  | _ => None
  end.

(** A store into a [Float32Array] rounds to binary32 (nearest, ties to
    even); a read gets the rounded value back as a binary64. *)
Definition fround (f : float) : float :=
  match Prim2SF f with
  | S754_finite s m e => SF2Prim (binary_round 24 128 s m e)
  | _ => f
  end.

(** [Math.max] and [Math.min]: NaN if either argument is NaN, and
    [+0 > -0]. *)
Definition fmax (a b : float) : float :=
  if PrimFloat.is_nan a || PrimFloat.is_nan b then PrimFloat.nan
  else if PrimFloat.ltb a b then b
  else if PrimFloat.ltb b a then a
  else if PrimFloat.get_sign a then b else a.

Definition fmin (a b : float) : float :=
  if PrimFloat.is_nan a || PrimFloat.is_nan b then PrimFloat.nan
  else if PrimFloat.ltb a b then a
  else if PrimFloat.ltb b a then b
  else if PrimFloat.get_sign a then a else b.

(** ** Loops *)

(** [for (let i = 0; i < n; i++) body] over a state [s]. *)
Definition forRange {S : Type} (n : nat) (body : nat -> S -> S) (s : S) : S :=
  foldl (fun s i => body i s) s (seq 0 n).

(** [Math.ceil(a / b)] on integers. *)
Definition ceilDiv (a b : nat) : nat := (a + (b - 1)) / b.

(** ** Options *)

Inductive FitMode := stretch | cover | contain.

Record ProcessingOptions := mkOptions {
  width : nat; height : nat; threshold : float;
  invert : bool; dither : bool; fit : FitMode }.

(** ** Resampling *)

Record Mapping := mkMapping {
  scaleX : float; scaleY : float; offsetX : float; offsetY : float }.

(** Lines 166-189: scale and offset per fit mode. *)
Definition fitMapping (fit : FitMode) (width height sw sh : nat) : Mapping :=
  let scaleX := (ofNat width / ofNat sw)%float in
  let scaleY := (ofNat height / ofNat sh)%float in
  match fit with
  | cover =>
      let scale := fmax scaleX scaleY in
      mkMapping scale scale
        ((ofNat width - ofNat sw * scale) / 2)%float
        ((ofNat height - ofNat sh * scale) / 2)%float
  | contain =>
      let scale := fmin scaleX scaleY in
      mkMapping scale scale
        ((ofNat width - ofNat sw * scale) / 2)%float
        ((ofNat height - ofNat sh * scale) / 2)%float
  | stretch => mkMapping scaleX scaleY 0%float 0%float
  end.

(** The source coordinate of target pixel [(x, y)]; [None] when it falls
    outside the source (the [else] branch of the bounds check). *)
Definition sourceCoord (m : Mapping) (sw sh x y : nat) : option (nat * nat) :=
  match floorZ ((ofNat x - offsetX m) / scaleX m)%float,
        floorZ ((ofNat y - offsetY m) / scaleY m)%float with
  | Some srcX, Some srcY =>
      if bool_decide (0 <= srcX)%Z && bool_decide (srcX < Z.of_nat sw)%Z
         && bool_decide (0 <= srcY)%Z && bool_decide (srcY < Z.of_nat sh)%Z
      then Some (Z.to_nat srcX, Z.to_nat srcY) else None
  | _, _ => None
  end.

(** A read [a[i]] of a byte array.  A read past the end is [undefined]: in
    the sampling loop the value is stored into a [Uint8ClampedArray], which
    turns it into 0; the other reads of the function stay inside their
    arrays. *)
Definition readByte (a : list Z) (i : nat) : Z := default 0%Z (a !! i).

(** The four channel bytes of pixel [idx] of a flat RGBA array. *)
Definition texelAt (a : list Z) (idx : nat) : Z * Z * Z * Z :=
  (readByte a (idx * 4), readByte a (idx * 4 + 1),
   readByte a (idx * 4 + 2), readByte a (idx * 4 + 3)).

(** The four channel values the sampling loop picks for target [(x, y)]:
    the texel at [srcIdx = (srcY * sw + srcX) * 4], or opaque black. *)
Definition sampleTexel (m : Mapping) (src : ImageData) (x y : nat)
  : Z * Z * Z * Z :=
  match sourceCoord m (Image.width src) (Image.height src) x y with
  | Some (srcX, srcY) => texelAt (data src) (srcY * Image.width src + srcX)
  | None => (0, 0, 0, 255)%Z
  end.

(** Writing one RGBA pixel at [idx * 4] of a [Uint8ClampedArray]. *)
Definition writePixel (idx : nat) (px : Z * Z * Z * Z) (a : list Z) : list Z :=
  let '(r, g, b, al) := px in
  <[idx * 4 + 3 := clamp8 al]>
    (<[idx * 4 + 2 := clamp8 b]>
       (<[idx * 4 + 1 := clamp8 g]> (<[idx * 4 := clamp8 r]> a))).

(** Lines 191-223: the sampling loop. *)
Definition sampleLoop (m : Mapping) (src : ImageData) (width height : nat)
  (targetData : list Z) : list Z :=
  forRange height (fun y =>
    forRange width (fun x targetData =>
      writePixel (y * width + x) (sampleTexel m src x y) targetData))
    targetData.

(** Lines 161-223: the resampled bitmap, held in [targetData]. *)
Definition resample (src : ImageData) (o : ProcessingOptions) : list Z :=
  let targetData := replicate (width o * height o * 4) 0%Z in
  let m := fitMapping (fit o) (width o) (height o)
             (Image.width src) (Image.height src) in
  sampleLoop m src (width o) (height o) targetData.

(** ** Luminance *)

(** Lines 243-249: BT.601 luminance of pixel [i], as stored in the
    [Float32Array]. *)
Definition luminance (targetData : list Z) (i : nat) : float :=
  let r := ofZ (readByte targetData (i * 4)) in
  let g := ofZ (readByte targetData (i * 4 + 1)) in
  let b := ofZ (readByte targetData (i * 4 + 2)) in
  fround (0.299 * r + 0.587 * g + 0.114 * b)%float.

Definition grayLoop (n : nat) (targetData : list Z) (grayBuffer : list float)
  : list float :=
  forRange n (fun i grayBuffer => <[i := luminance targetData i]> grayBuffer)
    grayBuffer.

(** Lines 257-261: [grayBuffer[i] = 255 - grayBuffer[i]] for every cell. *)
Definition invertGray (n : nat) (grayBuffer : list float) : list float :=
  forRange n (fun i grayBuffer =>
    match grayBuffer !! i with
    | Some v => <[i := fround (255 - v)%float]> grayBuffer
    | None => grayBuffer
    end) grayBuffer.

(** ** Quantizing and packing *)

Record Buffers := mkBuffers {
  grayBuffer : list float; targetData : list Z; ssd1306Buffer : list Z }.

(** [newVal] / [newPixel]: 0 below the threshold, 255 otherwise. *)
Definition quantize (v threshold : float) : Z :=
  if PrimFloat.ltb v threshold then 0%Z else 255%Z.

(** [grayBuffer[j] += e] *)
Definition addError (j : nat) (e : float) (g : list float) : list float :=
  match g !! j with
  | Some v => <[j := fround (v + e)%float]> g
  | None => g
  end.

(** Lines 274-282: Floyd-Steinberg diffusion of [quantError] from
    [(x, y)]. *)
Definition diffuse (width height x y : nat) (quantError : float)
  (g : list float) : list float :=
  let g := if bool_decide (x + 1 < width)
           then addError (y * width + (x + 1)) (quantError * (7 / 16))%float g
           else g in
  if bool_decide (y + 1 < height) then
    let g := if bool_decide (0 < x)
             then addError ((y + 1) * width + (x - 1))
                    (quantError * (3 / 16))%float g
             else g in
    let g := addError ((y + 1) * width + x) (quantError * (5 / 16))%float g in
    if bool_decide (x + 1 < width)
    then addError ((y + 1) * width + (x + 1)) (quantError * (1 / 16))%float g
    else g
  else g.

(** Lines 286-298 and, word for word, 312-325: the preview pixel and the
    SSD1306 bit of [(x, y)]. *)
Definition byteIndex (width x y : nat) : nat :=
  let page := y / 8 in page * width + x.

Definition setBit (width x y : nat) (ssd : list Z) : list Z :=
  let bit := y mod 8 in
  let byteIdx := byteIndex width x y in
  if bool_decide (byteIdx < length ssd)
  then <[byteIdx := to_uint8 (Z.lor (ssd !!! byteIdx) (Z.shiftl 1 (Z.of_nat bit)))]> ssd
  else ssd.

Definition emitPixel (width x y : nat) (newVal : Z) (b : Buffers) : Buffers :=
  let idx := y * width + x in
  mkBuffers (grayBuffer b)
    (writePixel idx (newVal, newVal, newVal, 255%Z) (targetData b))
    (if bool_decide (128 < newVal)%Z then setBit width x y (ssd1306Buffer b)
     else ssd1306Buffer b).

(** Lines 263-300: the dithering loop ([ssd1306Buffer.fill(0)] before it
    changes nothing, the buffer being new).  The cell [grayBuffer[idx]] read
    first always exists, so the [None] case never occurs. *)
Definition ditherStep (width height : nat) (threshold : float) (x y : nat)
  (b : Buffers) : Buffers :=
  let idx := y * width + x in
  match grayBuffer b !! idx with
  | Some oldVal =>
      let newVal := quantize oldVal threshold in
      let quantError := (oldVal - ofZ newVal)%float in
      emitPixel width x y newVal
        (mkBuffers (diffuse width height x y quantError (grayBuffer b))
                   (targetData b) (ssd1306Buffer b))
  | None => b
  end.

Definition ditherLoop (width height : nat) (threshold : float) (b : Buffers)
  : Buffers :=
  forRange height (fun y => forRange width (fun x =>
    ditherStep width height threshold x y)) b.

(** Lines 303-327: the plain threshold loop. *)
Definition thresholdStep (width : nat) (threshold : float) (invert : bool)
  (x y : nat) (b : Buffers) : Buffers :=
  let idx := y * width + x in
  match grayBuffer b !! idx with
  | Some oldPixel =>
      let newPixel := quantize oldPixel threshold in
      let newPixel := if invert then (255 - newPixel)%Z else newPixel in
      emitPixel width x y newPixel b
  | None => b
  end.

Definition thresholdLoop (width height : nat) (threshold : float)
  (invert : bool) (b : Buffers) : Buffers :=
  forRange height (fun y => forRange width (fun x =>
    thresholdStep width threshold invert x y)) b.

(** Lines 225-328, from the resampled [targetData] on.  [monoPixels] is
    allocated by the source and never used. *)
Definition quantizeAndPack (o : ProcessingOptions) (targetData : list Z)
  : Buffers :=
  let n := width o * height o in
  let monoPixels := replicate (ceilDiv n 8) 0%Z in
  let ssd1306Buffer := replicate (n / 8) 0%Z in
  let grayBuffer := grayLoop n targetData (replicate n 0%float) in
  if dither o then
    let grayBuffer := if invert o then invertGray n grayBuffer else grayBuffer in
    ditherLoop (width o) (height o) (threshold o)
      (mkBuffers grayBuffer targetData ssd1306Buffer)
  else
    thresholdLoop (width o) (height o) (threshold o) (invert o)
      (mkBuffers grayBuffer targetData ssd1306Buffer).

Record Processed := mkProcessed { pixels : list Z; preview : ImageData }.

(** Lines 330-333: the returned object; [None] when the [ImageData]
    constructor throws. *)
Definition result (o : ProcessingOptions) (b : Buffers) : option Processed :=
  preview ← newImageData (targetData b) (width o) (height o);
  Some (mkProcessed (ssd1306Buffer b) preview).

Definition processFrame (frameImageData : ImageData) (o : ProcessingOptions)
  : option Processed :=
  result o (quantizeAndPack o (resample frameImageData o)).

End Frame.

(** * [processFrame] in the JavaScript heap *)

Module Store.
Import Image Frame.

(** Typed arrays are heap objects: two names may denote the same array, and
    a write through one is seen through the other.  The heap maps the
    identity of an array to its contents; [new] picks an identity that is
    not in use. *)
Inductive array := Bytes (a : list Z) | Floats (a : list float).

Definition bytesAt (h : gmap nat array) (l : nat) : list Z :=
  match h !! l with Some (Bytes a) => a | _ => [] end.

Definition floatsAt (h : gmap nat array) (l : nat) : list float :=
  match h !! l with Some (Floats a) => a | _ => [] end.

(** Heap-passing computations. *)
Definition M (A : Type) : Type := gmap nat array -> A * gmap nat array.

Definition ret {A} (a : A) : M A := fun h => (a, h).

Definition bind {A B} (m : M A) (k : A -> M B) : M B :=
  fun h => let '(a, h') := m h in k a h'.

#[export] Instance M_ret : MRet M := @ret.
#[export] Instance M_bind : MBind M := fun A B k m => bind m k.

Definition new (v : array) : M nat :=
  fun h => let l := fresh (dom h) in (l, <[l := v]> h).

Definition readBytes (l : nat) : M (list Z) := fun h => (bytesAt h l, h).

Definition readFloats (l : nat) : M (list float) := fun h => (floatsAt h l, h).

Definition write (l : nat) (v : array) : M unit := fun h => (tt, <[l := v]> h).

(** An [ImageData] object refers to its [data] array. *)
Record ImageDataRef := mkImageDataRef {
  refWidth : nat; refHeight : nat; refData : nat }.

Record ProcessedRef := mkProcessedRef { refPixels : nat; refPreview : ImageDataRef }.

(** The [ImageData] value an object denotes in a heap. *)
Definition imageOf (h : gmap nat array) (img : ImageDataRef) : ImageData :=
  mkImageData (refWidth img) (refHeight img) (bytesAt h (refData img)).

(** The three arrays the quantizing loops work on, read from and written
    back to their places in the heap. *)
Definition loadBuffers (grayBuffer targetData ssd : nat) : M Buffers :=
  g ← readFloats grayBuffer;
  td ← readBytes targetData;
  s ← readBytes ssd;
  mret (mkBuffers g td s).

Definition storeBuffers (grayBuffer targetData ssd : nat) (b : Buffers) : M unit :=
  write grayBuffer (Floats (Frame.grayBuffer b));;
  write targetData (Bytes (Frame.targetData b));;
  write ssd (Bytes (Frame.ssd1306Buffer b)).

(** [processFrame], statement by statement, on array identities: each loop
    reads and writes, through the heap, the arrays it names in the
    source.  The result is [None] when the final [ImageData] constructor
    throws. *)
Definition processFrame (frameImageData : ImageDataRef) (o : ProcessingOptions)
  : M (option ProcessedRef) :=
  let n := width o * height o in
  targetData ← new (Bytes (replicate (n * 4) 0%Z));
  let sourceData := refData frameImageData in
  let sw := refWidth frameImageData in
  let sh := refHeight frameImageData in
  let m := fitMapping (fit o) (width o) (height o) sw sh in
  src ← readBytes sourceData;
  td ← readBytes targetData;
  write targetData
    (Bytes (sampleLoop m (mkImageData sw sh src) (width o) (height o) td));;
  monoPixels ← new (Bytes (replicate (ceilDiv n 8) 0%Z));
  ssd1306Buffer ← new (Bytes (replicate (n / 8) 0%Z));
  grayBuffer ← new (Floats (replicate n 0%float));
  td ← readBytes targetData;
  g ← readFloats grayBuffer;
  write grayBuffer (Floats (grayLoop n td g));;
  (if dither o then
     (if invert o then
        g ← readFloats grayBuffer;
        write grayBuffer (Floats (invertGray n g))
      else mret tt);;
     b ← loadBuffers grayBuffer targetData ssd1306Buffer;
     storeBuffers grayBuffer targetData ssd1306Buffer
       (ditherLoop (width o) (height o) (threshold o) b)
   else
     b ← loadBuffers grayBuffer targetData ssd1306Buffer;
     storeBuffers grayBuffer targetData ssd1306Buffer
       (thresholdLoop (width o) (height o) (threshold o) (invert o) b));;
  td ← readBytes targetData;
  mret (if bool_decide (0 < width o) && bool_decide (0 < height o)
          && bool_decide (length td = 4 * width o * height o)
       then Some (mkProcessedRef ssd1306Buffer
                    (mkImageDataRef (width o) (height o) targetData))
       else None).

End Store.

(** * Sampling a video: the loop of [loadVideoFrames] *)

Module Video.

(** How the promise of [loadVideoFrames] ends once the metadata is there:
    [resolve(frames)], [reject(err)] from the [catch] branch, or never,
    when an awaited [seeked] event does not come (the [await] has no
    timeout and no error path).  [Running] is the model's answer when the
    fuel given to the loop is used up before the loop has ended. *)
Inductive outcome (A : Type) : Type :=
  | Resolved (frames : list A)
  | Rejected
  | Pending
  | Running.
Arguments Resolved {A} frames.
Arguments Rejected {A}.
Arguments Pending {A}.
Arguments Running {A}.

(** One pass through the body up to [frames.push]: seek to [currentTime],
    wait for [seeked], draw the video on the canvas and read the canvas
    back.  The pass delivers a frame, throws ([getImageData] throws on an
    empty canvas, for one), or never completes because the browser does
    not fire [seeked]. *)
Inductive grabbed (A : Type) : Type :=
  | Grabbed (frame : A)
  | Throws
  | Stalls.
Arguments Grabbed {A} frame.
Arguments Throws {A}.
Arguments Stalls {A}.

Section Capture.
Context {A : Type}.

(** What the browser does with a seek to a given time. *)
Variable grab : float -> grabbed A.

(** [while (currentTime < duration) { ...; frames.push(...);
       currentTime += interval; if (frames.length > 500) break; }] *)
Fixpoint captureLoop (fuel : nat) (duration interval currentTime : float)
  (frames : list A) : outcome A :=
  match fuel with
  | O => Running
  | S fuel' =>
      if PrimFloat.ltb currentTime duration then
        match grab currentTime with
        | Throws => Rejected
        | Stalls => Pending
        | Grabbed frame =>
            let frames := frames ++ [frame] in
            let currentTime := (currentTime + interval)%float in
            if bool_decide (500 < length frames) then Resolved frames
            else captureLoop fuel' duration interval currentTime frames
        end
      else Resolved frames
  end.

(** The body of [onloadedmetadata] from [const frames = []] on. *)
Definition loadVideoFrames (duration fps : float) : outcome A :=
  let interval := (1 / fps)%float in
  captureLoop 501 duration interval 0%float [].
End Capture.

End Video.

(** * The header text: [generateHeaderFile] *)

Module Header.
Import RLE.

(** Lines 407 and 410.  [rawFrames.filter(f => f)] keeps every frame: a typed
    array is an object, and objects are truthy. *)
Definition finalFrames (useCompression : bool) (rawFrames : list (list Z))
  : list (list Z) :=
  if useCompression then compressRLE <$> rawFrames
  else filter (fun _ => True) rawFrames.

Definition totalBytes (finalFrames : list (list Z)) : nat :=
  foldl (fun acc val => acc + length val) 0 finalFrames.

(** [n.toString(16)] for an integer [n >= 0]: lower-case digits, most
    significant first, no leading zero.  The elements of a [Uint8Array]
    are never negative. *)
Definition hexDigit (d : N) : ascii :=
  default "0"%char (String.get (N.to_nat d) "0123456789abcdef").

Fixpoint toString16_go (fuel : nat) (n : N) (acc : string) : string :=
  match fuel with
  | O => acc
  | S fuel' =>
      let acc := String (hexDigit (n mod 16)) acc in
      if (n / 16 =? 0)%N then acc else toString16_go fuel' (n / 16) acc
  end.

Definition toString16 (v : Z) : string :=
  let n := Z.to_N v in
  toString16_go (S (N.to_nat (N.log2 n))) n "".

(** [s.padStart(targetLength, pad)] with a one-character [pad]. *)
Definition padStart (targetLength : nat) (pad : ascii) (s : string) : string :=
  String.string_of_list_ascii (replicate (targetLength - String.length s) pad)
  +:+ s.

Definition newline : string := String "010"%char "".

(** The template literal [`0x${v.toString(16).padStart(2, '0')}`]. *)
Definition hexLiteral (v : Z) : string :=
  "0x" +:+ padStart 2 "0"%char (toString16 v).

(** Lines 470-474, the body of the loop over the bytes of a frame; [out]
    is the text so far. *)
Definition byteText (frame : list Z) (i : nat) (out : string) : string :=
  let out := out +:+ hexLiteral (frame !!! i) in
  let out := if bool_decide (i < length frame - 1) then out +:+ ", " else out in
  if bool_decide ((i + 1) mod 16 = 0) then out +:+ newline else out.

(** [for (let i = 0; i < frame.length; i++) { ... }] *)
Definition frameText (frame : list Z) (out : string) : string :=
  Frame.forRange (length frame) (byteText frame) out.

End Header.

(** * The converter component: what [onDrop] composes *)

Module Converter.
Import Image Canvas.

(** [v || d] for a number [v] that may be missing: [undefined] and 0 are
    falsy. *)
Definition orDefault (v : option nat) (d : nat) : nat :=
  match v with
  | Some (S n) => S n
  | _ => d
  end.

Section Drop.
Variable blend : pixel -> pixel -> pixel.

(** [const w = rawFrames[0]?.dims.width || 128;
     const h = rawFrames[0]?.dims.height || 64;
     const composed = extractComposedFrames(rawFrames, w, h);] *)
Definition onDropCompose (rawFrames : list RawFrame) : option (list ImageData) :=
  let w := orDefault (dwidth ∘ dims <$> head rawFrames) 128 in
  let h := orDefault (dheight ∘ dims <$> head rawFrames) 64 in
  extractComposedFrames blend rawFrames w h.
End Drop.

End Converter.

(** * Vocabulary of the statements

    Notions and sample inputs that the statements below use; none of them
    is part of the program. *)

Section CanvasVocabulary.
Import Image Canvas.

(** The patch pixel at [(x, y)] of a frame, as the browser receives it. *)
Definition patchPixel (frame : RawFrame) (x y : nat) : option pixel :=
  pixelsOf (clamp8 <$> patch frame) !! (y * dwidth (dims frame) + x).

(** An opaque green canvas pixel and a patch whose only pixel is
    transparent red. *)
Definition greenCanvas : bitmap := mkBitmap 1 1 [RGBA 0 255 0 255].
Definition clearRedFrame : RawFrame :=
  mkRawFrame (mkDims 0 0 1 1) [255; 0; 0; 0]%Z 1.
Definition greenFrame : RawFrame :=
  mkRawFrame (mkDims 0 0 1 1) [0; 255; 0; 255]%Z 1.

(** A 1x1 opaque red patch with disposal RestorePrevious, the same with
    disposal None, and a 1x1 fully transparent patch. *)
Definition redRestoreFrame : RawFrame :=
  mkRawFrame (mkDims 0 0 1 1) [255; 0; 0; 255]%Z 3.
Definition redKeepFrame : RawFrame :=
  mkRawFrame (mkDims 0 0 1 1) [255; 0; 0; 255]%Z 1.
Definition emptyFrame : RawFrame :=
  mkRawFrame (mkDims 0 0 1 1) [0; 0; 0; 0]%Z 1.

(** A frame whose patch has positive sides and four bytes per pixel, a
    canvas bitmap with positive sides and one pixel per position, and the
    test whether a position lies in the patch rectangle of a frame. *)
Definition wellFormedFrame (frame : RawFrame) : Prop :=
  0 < dwidth (dims frame) /\ 0 < dheight (dims frame)
  /\ length (patch frame) = 4 * dwidth (dims frame) * dheight (dims frame).

Definition wellFormedCanvas (b : bitmap) : Prop :=
  0 < bw b /\ 0 < bh b /\ length (pixels b) = bw b * bh b.

Definition inRect (d : Dims) (x y : nat) : bool :=
  bool_decide (left d <= x < left d + dwidth d)
  && bool_decide (top d <= y < top d + dheight d).
End CanvasVocabulary.

Section FrameVocabulary.
Import Image Frame.

(** The pixel whose state bit [n] of packed byte [j] holds: column
    [j mod w] of row [8 * (j / w) + n]; [pixelOfBit] is its raster index. *)
Definition pixelOfBit (w j n : nat) : nat := (8 * (j / w) + n) * w + j mod w.

(** The quantized value of pixel [i], read from the preview bytes. *)
Definition lit (targetData : list Z) (i : nat) : Prop :=
  (128 < readByte targetData (i * 4))%Z.

(** The packed buffer mirrors the first [k] pixels of the preview. *)
Definition packedUpTo (w k : nat) (targetData ssd : list Z) : Prop :=
  forall j n, j < length ssd ->
    (Z.testbit (ssd !!! j) (Z.of_nat n) = true
     <-> n < 8 /\ pixelOfBit w j n < k /\ lit targetData (pixelOfBit w j n)).

(** [b'] is [b] after the preview pixel and the bit of [(x, y)] were
    written for some quantized value [v]. *)
Definition emitsAt (w x y : nat) (b b' : Buffers) : Prop :=
  length (grayBuffer b') = length (grayBuffer b)
  /\ exists v, (v = 0 \/ v = 255)%Z
     /\ targetData b' = writePixel (y * w + x) (v, v, v, 255%Z) (targetData b)
     /\ ssd1306Buffer b' =
          if bool_decide (128 < v)%Z then setBit w x y (ssd1306Buffer b)
          else ssd1306Buffer b.

(** What holds of the three buffers after [k] pixels. *)
Definition quantInv (w h len k : nat) (b : Buffers) : Prop :=
  length (grayBuffer b) = w * h
  /\ length (targetData b) = 4 * w * h
  /\ length (ssd1306Buffer b) = len
  /\ packedUpTo w k (targetData b) (ssd1306Buffer b).

(** Test images: one white pixel; a 16x16 frame, black but for a white
    pixel at [(3, 10)]; a 3x3 frame, black but for a white pixel at
    [(1, 0)]. *)
Definition whitePx : list Z := [255; 255; 255; 255]%Z.
Definition blackPx : list Z := [0; 0; 0; 255]%Z.
Definition onePixel (w h x y : nat) : ImageData :=
  mkImageData w h
    (mjoin ((fun k => if bool_decide (k = y * w + x) then whitePx else blackPx)
              <$> seq 0 (w * h))).
Definition plainOptions (w h : nat) (dither : bool) : ProcessingOptions :=
  mkOptions w h 128%float false dither stretch.

(** A 2x1 image, white then black. *)
Definition twoPixels : ImageData := mkImageData 2 1 (whitePx ++ blackPx).

(** Plain thresholding with invert requested. *)
Definition invertOptions (w h : nat) : ProcessingOptions :=
  mkOptions w h 128%float true false stretch.

(** A flat RGBA array in which every pixel is black or white (alpha is
    free), and a luminance buffer in which every cell is 0 or 255. *)
Definition blackOrWhite (a : list Z) : Prop :=
  forall i, exists v, (v = 0 \/ v = 255)%Z
    /\ readByte a (i * 4) = v /\ readByte a (i * 4 + 1) = v
    /\ readByte a (i * 4 + 2) = v.

Definition saturated (g : list float) : Prop :=
  forall j v, g !! j = Some v -> v = 0%float \/ v = 255%float.

(** Two flat RGBA arrays with the same colour bytes in every pixel. *)
Definition sameColours (a a' : list Z) : Prop :=
  forall i, readByte a (i * 4) = readByte a' (i * 4)
    /\ readByte a (i * 4 + 1) = readByte a' (i * 4 + 1)
    /\ readByte a (i * 4 + 2) = readByte a' (i * 4 + 2).
(** The source coordinate of target pixel [(x, y)] as the design document
    states it, in exact rational arithmetic: the two axis ratios, for cover
    their maximum and for contain their minimum on both axes, the centring
    offset [(target - source * scale) / 2], and
    [floor ((x - offset) / scale)] per axis. *)
Definition exactCoord (fit : FitMode) (width height sw sh x y : nat) : Z * Z :=
  let q := fun n : nat => QArith_base.inject_Z (Z.of_nat n) in
  let two := QArith_base.inject_Z 2 in
  let zero := QArith_base.inject_Z 0 in
  let rx := QArith_base.Qdiv (q width) (q sw) in
  let ry := QArith_base.Qdiv (q height) (q sh) in
  let centred := fun s =>
    (s, s,
     QArith_base.Qdiv (QArith_base.Qminus (q width) (QArith_base.Qmult (q sw) s)) two,
     QArith_base.Qdiv (QArith_base.Qminus (q height) (QArith_base.Qmult (q sh) s)) two) in
  let '(scaleX, scaleY, offsetX, offsetY) :=
    match fit with
    | stretch => (rx, ry, zero, zero)
    | cover => centred (if QArith_base.Qle_bool rx ry then ry else rx)
    | contain => centred (if QArith_base.Qle_bool rx ry then rx else ry)
    end in
  (Qround.Qfloor (QArith_base.Qdiv (QArith_base.Qminus (q x) offsetX) scaleX),
   Qround.Qfloor (QArith_base.Qdiv (QArith_base.Qminus (q y) offsetY) scaleY)).

(** A white image. *)
Definition whiteImage (w h : nat) : ImageData :=
  mkImageData w h (replicate (4 * w * h) 255%Z).
End FrameVocabulary.

Section StoreVocabulary.
Import Image Frame Store.

(** A heap holding one array, the bytes of a white 1x1 image, and the
    [ImageData] object that refers to it. *)
Definition heap1 : gmap nat array := {[ 0 := Bytes whitePx ]}.
Definition frame1 : ImageDataRef := mkImageDataRef 1 1 0.
End StoreVocabulary.

Section HeaderVocabulary.
Import Header.

(** The value a C compiler reads from a hexadecimal literal: [0x] and at
    least one digit, in either case. *)
Definition hexDigitValue (c : ascii) : option Z :=
  let n := Z.of_N (N_of_ascii c) in
  if bool_decide (48 <= n <= 57)%Z then Some (n - 48)%Z
  else if bool_decide (97 <= n <= 102)%Z then Some (n - 87)%Z
  else if bool_decide (65 <= n <= 70)%Z then Some (n - 55)%Z
  else None.

(** A digit [0-9] or a lower-case letter [a-f]. *)
Definition lowerHexDigit (c : ascii) : bool :=
  let n := Z.of_N (N_of_ascii c) in
  bool_decide (48 <= n <= 57)%Z || bool_decide (97 <= n <= 102)%Z.

Fixpoint hexDigitsValue (s : string) (acc : Z) : option Z :=
  match s with
  | EmptyString => Some acc
  | String c s' =>
      d ← hexDigitValue c; hexDigitsValue s' (16 * acc + d)%Z
  end.

Definition hexValue (s : string) : option Z :=
  match s with
  | String "0" (String "x" (String c s')) => hexDigitsValue (String c s') 0
  | _ => None
  end.

(** The text the loop over a frame appends, by recursion on the bytes
    still to print; [i] is the index of the first of them. *)
Fixpoint textFrom (i : nat) (bytes : list Z) : string :=
  match bytes with
  | [] => ""
  | b :: rest =>
      hexLiteral b
      +:+ ((match rest with [] => "" | _ => ", " end)
           +:+ ((if bool_decide ((i + 1) mod 16 = 0) then newline else "")
                +:+ textFrom (S i) rest))
  end.
End HeaderVocabulary.

(** * Facts about the run-length codec *)

Section RLEFacts.
Import RLE.

Lemma to_uint8_byte v : is_byte v -> to_uint8 v = v.
Proof. unfold is_byte, to_uint8. intros. by apply Z.mod_small. Qed.

(** ** The run scan *)

Lemma scanRun_S fuel data i r0 :
  scanRun (S fuel) data i r0 =
    if bool_decide (i + r0 < length data) && bool_decide (r0 < 130)
       && bool_decide (data !! (i + r0) = data !! i)
    then scanRun fuel data i (S r0) else r0.
Proof. reflexivity. Qed.

Lemma scanLiteral_S fuel data i l0 :
  scanLiteral (S fuel) data i l0 =
    if bool_decide (i + l0 < length data) && bool_decide (l0 < 128)
    then if runOf3At data (i + l0) then l0 else scanLiteral fuel data i (S l0)
    else l0.
Proof. reflexivity. Qed.

Local Arguments scanRun : simpl never.
Local Arguments scanLiteral : simpl never.

(** What the run scan returns when started inside the input with enough
    fuel to reach its own cap of 130. *)
Lemma scanRun_spec fuel data i r0 :
  130 <= fuel + r0 -> 1 <= r0 -> i + r0 <= length data ->
  (forall k, k < r0 -> data !! (i + k) = data !! i) ->
  let r := scanRun fuel data i r0 in
  r0 <= r <= Nat.max r0 130 /\ i + r <= length data
  /\ (forall k, k < r -> data !! (i + k) = data !! i)
  /\ (130 <= r \/ i + r = length data \/ data !! (i + r) <> data !! i).
Proof.
  revert r0. induction fuel as [|fuel IH]; intros r0 Hf H1 Hlen Heq;
    [unfold scanRun | rewrite scanRun_S]; cbv zeta.
  - repeat split; try lia; auto.
  - destruct (bool_decide (i + r0 < length data)) eqn:E1; simpl.
    2:{ apply bool_decide_eq_false in E1. repeat split; try lia; auto. }
    destruct (bool_decide (r0 < 130)) eqn:E2; simpl.
    2:{ apply bool_decide_eq_false in E2. repeat split; try lia; auto. }
    destruct (bool_decide (data !! (i + r0) = data !! i)) eqn:E3; simpl.
    2:{ apply bool_decide_eq_false in E3. repeat split; try lia; auto. }
    apply bool_decide_eq_true in E1, E2, E3.
    destruct (IH (S r0)) as (Ha & Hb & Hc & Hd); try lia.
    { intros k Hk. destruct (decide (k = r0)) as [->|]; [done|]. apply Heq. lia. }
    repeat split; try lia; auto.
Qed.

(** The measured run: between 1 and 130 bytes, inside the input, all
    equal to [data[i]], and maximal unless capped. *)
Lemma runLen_spec data i :
  i < length data ->
  let r := scanRun 130 data i 1 in
  1 <= r <= 130 /\ i + r <= length data
  /\ (forall k, k < r -> data !! (i + k) = data !! i)
  /\ (r = 130 \/ i + r = length data \/ data !! (i + r) <> data !! i).
Proof.
  intros Hi.
  destruct (scanRun_spec 130 data i 1) as (Ha & Hb & Hc & Hd); try lia.
  { intros k Hk. replace k with 0 by lia. by rewrite Nat.add_0_r. }
  cbv zeta. repeat split; try lia; auto.
  destruct Hd as [?|[?|?]]; [left; lia|auto..].
Qed.

(** More fuel than the cap changes nothing. *)
Lemma scanRun_fuel fuel data i r0 :
  130 <= fuel + r0 -> scanRun fuel data i r0 = scanRun (130 - r0) data i r0.
Proof.
  revert r0. induction fuel as [|fuel IH]; intros r0 Hf.
  - replace (130 - r0) with 0 by lia. done.
  - rewrite scanRun_S. destruct (decide (r0 < 130)) as [Hlt|Hge].
    + replace (130 - r0) with (S (130 - S r0)) by lia. rewrite scanRun_S.
      rewrite IH by lia. done.
    + rewrite (bool_decide_eq_false_2 (r0 < 130)) by done.
      rewrite andb_false_r. simpl.
      destruct (130 - r0); [done|]. rewrite scanRun_S.
      rewrite (bool_decide_eq_false_2 (r0 < 130)) by done.
      by rewrite andb_false_r.
Qed.

(** ** The literal scan *)

Lemma scanLiteral_spec fuel data i l0 :
  128 <= fuel + l0 -> i + l0 <= length data ->
  let l := scanLiteral fuel data i l0 in
  l0 <= l <= Nat.max l0 128 /\ i + l <= length data
  /\ (forall k, l0 <= k < l -> runOf3At data (i + k) = false)
  /\ (128 <= l \/ i + l = length data \/ runOf3At data (i + l) = true).
Proof.
  revert l0. induction fuel as [|fuel IH]; intros l0 Hf Hlen;
    [unfold scanLiteral | rewrite scanLiteral_S]; cbv zeta.
  - repeat split; try lia.
  - destruct (bool_decide (i + l0 < length data)) eqn:E1; simpl.
    2:{ apply bool_decide_eq_false in E1. repeat split; try lia. }
    destruct (bool_decide (l0 < 128)) eqn:E2; simpl.
    2:{ apply bool_decide_eq_false in E2. repeat split; try lia. }
    apply bool_decide_eq_true in E1, E2.
    destruct (runOf3At data (i + l0)) eqn:E3.
    { repeat split; try lia. auto. }
    destruct (IH (S l0)) as (Ha & Hb & Hc & Hd); try lia.
    repeat split; try lia; auto.
    intros k Hk. destruct (decide (k = l0)) as [->|]; [done|]. apply Hc. lia.
Qed.

(** More fuel than the cap of 128 changes nothing. *)
Lemma scanLiteral_fuel fuel data i l0 :
  128 <= fuel + l0 -> scanLiteral fuel data i l0 = scanLiteral (128 - l0) data i l0.
Proof.
  revert l0. induction fuel as [|fuel IH]; intros l0 Hf.
  - replace (128 - l0) with 0 by lia. done.
  - rewrite scanLiteral_S. destruct (decide (l0 < 128)) as [Hlt|Hge].
    + replace (128 - l0) with (S (128 - S l0)) by lia. rewrite scanLiteral_S.
      rewrite IH by lia. done.
    + rewrite (bool_decide_eq_false_2 (l0 < 128)) by done.
      rewrite andb_false_r.
      destruct (128 - l0); [done|]. rewrite scanLiteral_S.
      rewrite (bool_decide_eq_false_2 (l0 < 128)) by done.
      by rewrite andb_false_r.
Qed.

(** A run shorter than 3 means no three equal bytes start at [i]. *)
Lemma short_run_no_runOf3 data i :
  i < length data -> scanRun 130 data i 1 < 3 -> runOf3At data i = false.
Proof.
  intros Hi Hr. destruct (runLen_spec data i Hi) as (Ha & Hb & Hc & Hd).
  destruct (runOf3At data i) eqn:E; [|done]. exfalso.
  unfold runOf3At in E. apply andb_true_iff in E as [E E3].
  apply andb_true_iff in E as [E1 E2].
  apply bool_decide_eq_true in E1, E2, E3.
  set (r := scanRun 130 data i 1) in *.
  destruct Hd as [?|[?|Hne]]; [lia..|].
  apply Hne. assert (r = 1 \/ r = 2) as [->| ->] by lia; congruence.
Qed.

(** In the literal branch at least one byte is taken: the [break] of the
    source, guarded by [litLen > 0], is dead code. *)
Lemma litLen_pos data i :
  i < length data -> scanRun 130 data i 1 < 3 ->
  let l := scanLiteral 128 data i 0 in 1 <= l <= 128 /\ i + l <= length data.
Proof.
  intros Hi Hr. pose proof (short_run_no_runOf3 data i Hi Hr) as H3.
  destruct (scanLiteral_spec 128 data i 0) as (Ha & Hb & Hc & Hd); try lia.
  cbv zeta. repeat split; try lia.
  destruct (decide (scanLiteral 128 data i 0 = 0)) as [E|]; [|lia].
  rewrite E in Hd. rewrite Nat.add_0_r in Hd.
  destruct Hd as [?|[?|?]]; [lia|lia|congruence].
Qed.

(** ** The pushes *)

Lemma pushLiteral_app data i l out :
  i + l <= length data ->
  pushLiteral data i l out = out ++ take l (drop i data).
Proof.
  unfold pushLiteral. revert out.
  induction l as [|l IH]; intros out Hl.
  - simpl. by rewrite take_0, app_nil_r.
  - rewrite seq_S, foldl_app. simpl. rewrite IH by lia.
    rewrite <- app_assoc. f_equal.
    assert (is_Some (data !! (i + l))) as [b Hb] by (apply lookup_lt_is_Some; lia).
    rewrite (list_lookup_total_correct _ _ _ Hb).
    rewrite (take_S_r _ _ b); [done|]. by rewrite lookup_drop.
Qed.

Lemma compressLoop_app fuel data i out :
  compressLoop fuel data i out = out ++ compressLoop fuel data i [].
Proof.
  revert i out. induction fuel as [|fuel IH]; intros i out; simpl.
  - by rewrite app_nil_r.
  - destruct (bool_decide (i < length data)) eqn:Ei; [|by rewrite app_nil_r].
    apply bool_decide_eq_true in Ei.
    destruct (bool_decide (3 <= scanRun 130 data i 1)) eqn:Er.
    + rewrite IH. rewrite (IH _ ([_; _])). by rewrite app_assoc.
    + apply bool_decide_eq_false in Er.
      destruct (litLen_pos data i) as [Hl Hl']; [done|lia|].
      rewrite bool_decide_eq_true_2 by lia.
      rewrite IH. rewrite (IH _ (pushLiteral _ _ _ _)).
      rewrite !pushLiteral_app by done. simpl. by rewrite <- !app_assoc.
Qed.

(** One iteration of the encoder, as an equation on the records. *)
Lemma compressLoop_step fuel data i :
  i < length data ->
  let r := scanRun 130 data i 1 in
  let l := scanLiteral 128 data i 0 in
  compressLoop (S fuel) data i [] =
    if bool_decide (3 <= r)
    then [(128 + (Z.of_nat r - 3))%Z; data !!! i] ++ compressLoop fuel data (i + r) []
    else ((Z.of_nat l - 1)%Z :: take l (drop i data))
           ++ compressLoop fuel data (i + l) [].
Proof.
  intros Hi. simpl. rewrite bool_decide_eq_true_2 by done.
  destruct (bool_decide (3 <= scanRun 130 data i 1)) eqn:Er.
  - by rewrite compressLoop_app.
  - apply bool_decide_eq_false in Er.
    destruct (litLen_pos data i) as [Hl Hl']; [done|lia|].
    rewrite bool_decide_eq_true_2 by lia.
    rewrite compressLoop_app, pushLiteral_app by done. done.
Qed.

(** The outer loop never runs out of fuel: every iteration consumes at
    least one byte, so [length data - i] iterations suffice. *)
Lemma compressLoop_fuel fuel fuel' data i :
  length data - i <= fuel -> length data - i <= fuel' ->
  compressLoop fuel data i [] = compressLoop fuel' data i [].
Proof.
  revert fuel' i. induction fuel as [|fuel IH]; intros fuel' i Hf Hf'.
  - destruct fuel'; [done|]. simpl.
    rewrite bool_decide_eq_false_2 by lia. done.
  - destruct fuel' as [|fuel'].
    { simpl. rewrite bool_decide_eq_false_2 by lia. done. }
    destruct (decide (i < length data)) as [Hi|Hi].
    2:{ simpl. rewrite !bool_decide_eq_false_2 by lia. done. }
    rewrite !compressLoop_step by done.
    destruct (runLen_spec data i Hi) as (Ha & Hb & _).
    destruct (bool_decide (3 <= scanRun 130 data i 1)) eqn:Er.
    + f_equal. apply IH; lia.
    + apply bool_decide_eq_false in Er.
      destruct (litLen_pos data i) as [Hl Hl']; [done|lia|].
      f_equal. apply IH; lia.
Qed.

(** Past the end of the input the loop is over. *)
Lemma compressLoop_done fuel data i out :
  length data <= i -> compressLoop fuel data i out = out.
Proof.
  intros Hi. destruct fuel; [done|]. simpl.
  by rewrite bool_decide_eq_false_2 by lia.
Qed.

(** ** The decoder on streams its cursors can address

    [wrap16] is any cursor reduction that leaves every value up to [M]
    alone: the identity (for any [M]) or reduction modulo 65536 (for
    [M = 65535]). *)

Section UnpackFacts.
Variable wrap16 : nat -> nat.
Variable M : nat.
Hypothesis wrap16_small : forall k, k <= M -> wrap16 k = k.

Lemma fillRun_spec count v bufferLen c :
  bufIdx c + count <= bufferLen -> bufferLen <= M ->
  fillRun wrap16 count v bufferLen c =
    Cursor (valIdx c) (bufIdx c + count)
           (list_inserts (bufIdx c) (replicate count v) (buffer c)).
Proof.
  revert c. induction count as [|count IH]; intros [vi bi buf] Hc HM; simpl in *.
  - by rewrite Nat.add_0_r.
  - rewrite bool_decide_eq_true_2 by lia.
    rewrite wrap16_small by lia. rewrite IH by (simpl; lia). simpl.
    f_equal; [lia|]. by rewrite list_insert_inserts_lt by lia.
Qed.

Lemma copyLiteral_spec count val bufferLen c :
  bufIdx c + count <= bufferLen -> bufferLen <= M ->
  valIdx c + count <= length val -> length val <= M ->
  copyLiteral wrap16 count val bufferLen c =
    Some (Cursor (valIdx c + count) (bufIdx c + count)
            (list_inserts (bufIdx c) (take count (drop (valIdx c) val)) (buffer c))).
Proof.
  revert c. induction count as [|count IH];
    intros [vi bi buf] Hc HM Hv HvM; simpl in *.
  - by rewrite !Nat.add_0_r.
  - rewrite bool_decide_eq_true_2 by lia.
    assert (is_Some (val !! vi)) as [b Hb] by (apply lookup_lt_is_Some; lia).
    rewrite Hb. simpl. rewrite !wrap16_small by lia.
    rewrite IH by (simpl; lia). simpl. f_equal. f_equal; [lia..|].
    rewrite (drop_S _ b _ Hb). simpl.
    by rewrite list_insert_inserts_lt by lia.
Qed.
End UnpackFacts.

(** Writing the next [length bs] input bytes after a correct prefix gives
    a longer correct prefix. *)
Lemma take_inserts_prefix (data buf bs : list Z) i :
  length buf = length data -> i + length bs <= length data ->
  take i buf = take i data -> bs = take (length bs) (drop i data) ->
  take (i + length bs) (list_inserts i bs buf) = take (i + length bs) data.
Proof.
  intros Hlen Hi Hpre Hbs. apply list_eq; intros j.
  destruct (decide (j < i + length bs)) as [Hj|Hj].
  2:{ by rewrite !lookup_take_ge by lia. }
  rewrite !lookup_take_lt by lia.
  destruct (decide (j < i)) as [Hlt|Hge].
  - rewrite list_lookup_inserts_lt by done.
    apply (f_equal (fun l => l !! j)) in Hpre.
    by rewrite !lookup_take_lt in Hpre by done.
  - rewrite list_lookup_inserts by lia.
    rewrite Hbs, lookup_take_lt, lookup_drop by lia. f_equal. lia.
Qed.

(** A measured run is [r] copies of the byte under the cursor. *)
Lemma run_is_replicate (data : list Z) i r :
  i + r <= length data -> 0 < r ->
  (forall k, k < r -> data !! (i + k) = data !! i) ->
  replicate r (data !!! i) = take r (drop i data).
Proof.
  intros Hlen Hr Heq. apply list_eq; intros j.
  destruct (decide (j < r)) as [Hj|Hj].
  - rewrite lookup_replicate_2, lookup_take_lt, lookup_drop, Heq by done.
    symmetry. apply list_lookup_lookup_total_lt. lia.
  - rewrite lookup_take_ge by lia. apply lookup_replicate_None. lia.
Qed.

Lemma fmap_to_uint8_bytes (l : list Z) : Forall is_byte l -> to_uint8 <$> l = l.
Proof.
  induction 1 as [|x l Hx _ IH]; [done|]. rewrite fmap_cons. by rewrite to_uint8_byte, IH.
Qed.

Lemma drop_cons_inv {A} (l : list A) n x t :
  drop n l = x :: t -> l !! n = Some x /\ drop (S n) l = t /\ n < length l.
Proof.
  intros H. assert (l !! n = Some x) as Hx.
  { rewrite <- (Nat.add_0_r n), <- lookup_drop, H. done. }
  split; [done|]. split; [|by eapply lookup_lt_Some].
  replace (S n) with (n + 1) by lia. rewrite <- drop_drop, H. done.
Qed.

Lemma unpackLoop_S wrap16 fuel val bufferLen c :
  unpackLoop wrap16 (S fuel) val bufferLen c =
    if bool_decide (bufIdx c < bufferLen) then
      header ← val !! valIdx c;
      let c1 := Cursor (wrap16 (S (valIdx c))) (bufIdx c) (buffer c) in
      if bool_decide (header < 128)%Z then
        c2 ← copyLiteral wrap16 (Z.to_nat (to_uint8 (header + 1))) val bufferLen c1;
        unpackLoop wrap16 fuel val bufferLen c2
      else
        value ← val !! valIdx c1;
        let c2 := Cursor (wrap16 (S (valIdx c1))) (bufIdx c1) (buffer c1) in
        unpackLoop wrap16 fuel val bufferLen
          (fillRun wrap16 (Z.to_nat (to_uint8 ((header - 128) + 3))) value bufferLen c2)
    else Some c.
Proof. reflexivity. Qed.

Local Arguments unpackLoop : simpl never.
Local Arguments compressLoop : simpl never.

Section RoundTrip.
Variable wrap16 : nat -> nat.
Variable M : nat.
Hypothesis wrap16_small : forall k, k <= M -> wrap16 k = k.

(** The decoder, started at record boundary [valIdx] of the stream with the
    first [i] bytes of [data] already in the buffer, finishes with the
    buffer equal to [data].  Decoder and encoder advance record by record
    in lockstep, so the decoder needs one unit of fuel more than the
    encoder (for the final test of its loop guard). *)
Lemma unpackLoop_compressLoop data fuel : forall i val c,
  Forall is_byte data -> length data <= M -> length val <= M ->
  length data - i <= fuel -> i <= length data ->
  bufIdx c = i -> length (buffer c) = length data ->
  take i (buffer c) = take i data ->
  drop (valIdx c) val = to_uint8 <$> compressLoop fuel data i [] ->
  exists v, unpackLoop wrap16 (S fuel) val (length data) c
            = Some (Cursor v (length data) data).
Proof.
  assert (Hdone : forall fuel' i val c, i <= length data -> length data <= i ->
            bufIdx c = i -> length (buffer c) = length data ->
            take i (buffer c) = take i data ->
            exists v, unpackLoop wrap16 (S fuel') val (length data) c
                      = Some (Cursor v (length data) data)).
  { intros fuel' i val [vi bi buf] Hi Hi' Hb Hlen Hpre. simpl in *. subst bi.
    rewrite unpackLoop_S. simpl.
    rewrite bool_decide_eq_false_2 by lia. exists vi.
    rewrite !take_ge in Hpre by lia. subst buf. f_equal. f_equal. lia. }
  induction fuel as [|fuel IH]; intros i val c Hbytes HM HvM Hf Hi Hb Hlen Hpre Hdrop.
  { apply (Hdone 0 i); auto; lia. }
  destruct (decide (i < length data)) as [Hlt|Hge]; [|apply (Hdone _ i); auto; lia].
  destruct c as [vi bi buf]. cbn [bufIdx valIdx buffer] in *. subst bi.
  rewrite compressLoop_step in Hdrop by done.
  destruct (runLen_spec data i Hlt) as (Hr1 & Hr2 & Hr3 & _).
  set (r := scanRun 130 data i 1) in *.
  assert (is_byte (data !!! i)) as Hbi.
  { eapply Forall_lookup_1; [exact Hbytes|]. by apply list_lookup_lookup_total_lt. }
  rewrite unpackLoop_S. cbn [bufIdx valIdx buffer].
  rewrite bool_decide_eq_true_2 by done.
  destruct (bool_decide (3 <= r)) eqn:Er.
  - (* repeat record *)
    apply bool_decide_eq_true in Er.
    rewrite fmap_app in Hdrop. simpl in Hdrop.
    apply drop_cons_inv in Hdrop as (Hh & Hdrop & Hvi).
    apply drop_cons_inv in Hdrop as (Hv & Hdrop & Hvi').
    rewrite Hh. simpl.
    rewrite (to_uint8_byte (128 + _)) by (unfold is_byte; lia).
    rewrite bool_decide_eq_false_2 by lia.
    rewrite (wrap16_small (S vi)) by lia.
    rewrite (wrap16_small (S (S vi))) by lia. rewrite Hv. simpl.
    rewrite to_uint8_byte by (unfold is_byte; lia).
    replace (Z.to_nat (128 + (Z.of_nat r - 3) - 128 + 3)) with r by lia.
    rewrite (fillRun_spec wrap16 M) by (simpl; auto; lia). simpl.
    rewrite (to_uint8_byte _ Hbi).
    apply (IH (i + r)); simpl; auto; try lia.
    + by rewrite length_inserts.
    + pose proof (run_is_replicate data i r Hr2 ltac:(lia) Hr3) as Hrep.
      rewrite <- (length_replicate r (data !!! i)) at 1 3.
      apply take_inserts_prefix; auto.
      * rewrite length_replicate. lia.
      * by rewrite length_replicate.
  - (* literal record *)
    apply bool_decide_eq_false in Er.
    destruct (litLen_pos data i) as [Hl Hl']; [done|lia|].
    set (l := scanLiteral 128 data i 0) in *.
    rewrite fmap_app in Hdrop. rewrite fmap_cons in Hdrop.
    rewrite <- app_comm_cons in Hdrop.
    apply drop_cons_inv in Hdrop as (Hh & Hdrop & Hvi).
    rewrite Hh. simpl.
    rewrite (to_uint8_byte (Z.of_nat l - 1)) by (unfold is_byte; lia).
    rewrite bool_decide_eq_true_2 by lia.
    rewrite to_uint8_byte by (unfold is_byte; lia).
    replace (Z.to_nat (Z.of_nat l - 1 + 1)) with l by lia.
    assert (Hbs : Forall is_byte (take l (drop i data))).
    { by apply Forall_take, Forall_drop. }
    rewrite (fmap_to_uint8_bytes _ Hbs) in Hdrop.
    assert (Hll : length (take l (drop i data)) = l).
    { rewrite length_take, length_drop. lia. }
    assert (S vi + l <= length val) as Hvl.
    { apply (f_equal length) in Hdrop.
      rewrite length_drop, length_app, Hll in Hdrop. lia. }
    rewrite wrap16_small by lia.
    rewrite (copyLiteral_spec wrap16 M) by (simpl; auto; lia). simpl.
    assert (Htk : take l (drop (S vi) val) = take l (drop i data)).
    { rewrite Hdrop. rewrite take_app_le by lia. by rewrite take_ge by lia. }
    rewrite Htk.
    apply (IH (i + l)); simpl; auto; try lia.
    + by rewrite length_inserts.
    + rewrite <- Hll at 1 3. apply take_inserts_prefix; auto.
      * lia.
      * by rewrite Hll.
    + replace (S (vi + l)) with (S vi + l) by lia.
      rewrite <- drop_drop, Hdrop. apply drop_app_length'. done.
Qed.

(** Round trip for any decoder whose cursors can address the stream and
    the output. *)
Lemma unpack_compressRLE data :
  Forall is_byte data -> length data <= M -> length (compressRLE data) <= M ->
  unpack wrap16 (compressRLE data) (length data) = Some data.
Proof.
  intros Hbytes HM HvM. unfold unpack. rewrite wrap16_small by done.
  destruct (unpackLoop_compressLoop data (length data) 0 (compressRLE data)
              (Cursor 0 0 (replicate (length data) 0%Z))) as [v Hv];
    simpl; auto; try lia.
  - by rewrite length_replicate.
  - by rewrite Hv.
Qed.
End RoundTrip.

(** A run of exactly two equal bytes is not split by the literal scan. *)
Lemma litLen_covers_pair data i :
  i < length data -> scanRun 130 data i 1 = 2 -> 2 <= scanLiteral 128 data i 0.
Proof.
  intros Hi Hr. destruct (runLen_spec data i Hi) as (_ & Hb & Hc & Hd).
  rewrite Hr in Hb, Hc, Hd.
  destruct (litLen_pos data i) as [Hl Hl']; [done|lia|].
  destruct (scanLiteral_spec 128 data i 0) as (_ & _ & _ & He); try lia.
  destruct (decide (scanLiteral 128 data i 0 = 1)) as [E|]; [|lia]. exfalso.
  rewrite E in He. destruct He as [?|[?|H3]]; [lia..|].
  unfold runOf3At in H3. apply andb_true_iff in H3 as [H3 _].
  apply andb_true_iff in H3 as [H1 H2]. apply bool_decide_eq_true in H1, H2.
  destruct Hd as [?|[?|Hne]]; [lia..|]. apply Hne.
  rewrite <- (Hc 1) by lia. replace (i + 1 + 1) with (i + 2) in H2 by lia.
  congruence.
Qed.

(** C7.  At cursor [i] the encoder measures the run of bytes equal to
    [data[i]]: it is between 1 and 130 long, lies inside the input, and is
    maximal unless it hit the cap of 130.  When that run has length at
    least 3 the iteration pushes the two-byte repeat record (header
    [128 + (runLen - 3)], then the byte) and moves the cursor by [runLen];
    when it has length 2 the iteration pushes one literal record (header
    [litLen - 1] followed by the next [litLen] input bytes) that holds both
    bytes of the pair.  On [5,5,5,5,5,9,9,1,2,3] the encoder returns
    [130,5,4,9,9,1,2,3]. *)
Theorem compressRLE_records data i fuel out (Hi : i < length data) :
  let r := scanRun 130 data i 1 in
  let l := scanLiteral 128 data i 0 in
  (1 <= r <= 130 /\ i + r <= length data
   /\ (forall k, k < r -> data !! (i + k) = data !! i)
   /\ (r = 130 \/ i + r = length data \/ data !! (i + r) <> data !! i))
  /\ (3 <= r ->
       compressLoop (S fuel) data i out =
       compressLoop fuel data (i + r)
         (out ++ [(128 + (Z.of_nat r - 3))%Z; data !!! i]))
  /\ (r = 2 ->
       2 <= l <= 128 /\ i + l <= length data /\
       compressLoop (S fuel) data i out =
       compressLoop fuel data (i + l)
         (out ++ (Z.of_nat l - 1)%Z :: take l (drop i data)))
  /\ compressRLE [5;5;5;5;5;9;9;1;2;3]%Z = [130;5;4;9;9;1;2;3]%Z.
Proof.
  cbv zeta. split; [exact (runLen_spec data i Hi)|]. split; [|split].
  - intros Hr. rewrite (compressLoop_app (S fuel)), compressLoop_step by done.
    rewrite bool_decide_eq_true_2 by done.
    rewrite (compressLoop_app fuel _ _ (out ++ _)). by rewrite <- app_assoc.
  - intros Hr. pose proof (litLen_covers_pair data i Hi Hr) as H2.
    destruct (litLen_pos data i) as [Hl Hl']; [done|lia|].
    split; [lia|]. split; [done|].
    rewrite (compressLoop_app (S fuel)), compressLoop_step by done.
    rewrite bool_decide_eq_false_2 by lia.
    rewrite (compressLoop_app fuel _ _ (out ++ _)). by rewrite <- app_assoc.
  - vm_compute. reflexivity.
Qed.

Lemma compressRLE_records_witness :
  0 < length [5;5;5;5;5;9;9;1;2;3]%Z /\
  compressLoop 10 [5;5;5;5;5;9;9;1;2;3]%Z 0 [] =
  compressLoop 9 [5;5;5;5;5;9;9;1;2;3]%Z 5 [130; 5]%Z.
Proof.
  split; [simpl; lia|].
  pose proof (compressRLE_records [5;5;5;5;5;9;9;1;2;3]%Z 0 9 []
                ltac:(simpl; lia)) as (_ & Hrun & _).
  apply Hrun. vm_compute. lia.
Defined.

(** C1.  Decoding the encoder's output with the declared length
    [length data] gives [data] back, for every sequence of bytes. *)
Theorem rle_round_trip data :
  Forall is_byte data -> decode (compressRLE data) (length data) = Some data.
Proof.
  intros Hbytes. unfold decode.
  apply (unpack_compressRLE id (Nat.max (length data) (length (compressRLE data))));
    [done|done|lia..].
Qed.

Lemma rle_round_trip_witness :
  decode (compressRLE [5;5;5;5;5;9;9;1;2;3]%Z) 10
  = Some [5;5;5;5;5;9;9;1;2;3]%Z.
Proof.
  apply (rle_round_trip [5;5;5;5;5;9;9;1;2;3]%Z).
  repeat constructor; unfold is_byte; lia.
Defined.

(** The encoding is at most twice as long as the input: a repeat record
    spends 2 bytes on at least 3, a literal record [l + 1] bytes on [l]. *)
Lemma length_compressLoop fuel data i :
  i <= length data ->
  length (compressLoop fuel data i []) <= 2 * (length data - i).
Proof.
  revert i. induction fuel as [|fuel IH]; intros i Hi; [simpl; lia|].
  destruct (decide (i < length data)) as [Hlt|Hge].
  2:{ rewrite compressLoop_done by lia. simpl. lia. }
  rewrite compressLoop_step by done.
  destruct (runLen_spec data i Hlt) as (Hr1 & Hr2 & _).
  destruct (bool_decide (3 <= scanRun 130 data i 1)) eqn:Er.
  - rewrite length_app. specialize (IH (i + scanRun 130 data i 1) Hr2).
    simpl. lia.
  - apply bool_decide_eq_false in Er.
    destruct (litLen_pos data i) as [Hl Hl']; [done|lia|].
    rewrite length_app. specialize (IH (i + scanLiteral 128 data i 0) Hl').
    cbn [length]. rewrite length_take, length_drop. lia.
Qed.

Lemma length_compressRLE data : length (compressRLE data) <= 2 * length data.
Proof.
  unfold compressRLE. rewrite length_fmap.
  pose proof (length_compressLoop (length data) data 0). lia.
Qed.

(** The routine as compiled, with 16-bit cursors, decodes every frame whose
    length and encoded length stay below 65536. *)
Lemma unpack16_round_trip data :
  Forall is_byte data ->
  (Z.of_nat (length data) < 65536)%Z ->
  (Z.of_nat (length (compressRLE data)) < 65536)%Z ->
  unpack16 (compressRLE data) (length data) = Some data.
Proof.
  intros Hbytes Hd He. unfold unpack16.
  apply (unpack_compressRLE uint16 (Z.to_nat 65535)); [|done|lia..].
  intros k Hk. unfold uint16. rewrite Z.mod_small by lia. lia.
Qed.
(** In particular it decodes every frame shorter than 32768 bytes. *)
Lemma unpack16_round_trip_short data :
  Forall is_byte data -> (Z.of_nat (length data) < 32768)%Z ->
  unpack16 (compressRLE data) (length data) = Some data.
Proof.
  intros Hbytes Hd. apply unpack16_round_trip; [done|lia|].
  pose proof (length_compressRLE data). lia.
Qed.
End RLEFacts.

(** * Facts about the compositor *)

Section CanvasFacts.
Import Image Canvas.

Lemma pixelsOf_bytesOf ps : pixelsOf (bytesOf ps) = ps.
Proof.
  induction ps as [|[r g b a] ps IH]; [done|].
  unfold bytesOf in *. rewrite bind_cons. simpl. by rewrite IH.
Qed.

Lemma div_mod_pixel w x y : x < w -> (y * w + x) mod w = x /\ (y * w + x) / w = y.
Proof.
  intros Hx. split.
  - rewrite Nat.add_comm, Nat.Div0.mod_add. by apply Nat.mod_small.
  - rewrite Nat.add_comm, Nat.div_add by lia. by rewrite Nat.div_small.
Qed.

Lemma length_pixelsOf bs : length (pixelsOf bs) = length bs / 4.
Proof.
  remember (length bs) as n eqn:Hn. revert bs Hn.
  induction n as [n IH] using lt_wf_ind. intros bs ->.
  destruct bs as [|r [|g [|b [|a rest]]]]; try done.
  cbn [pixelsOf length]. rewrite (IH (length rest)) by (cbn [length]; lia || done).
  replace (S (S (S (S (length rest))))) with (length rest + 1 * 4) by lia.
  rewrite Nat.div_add by lia. lia.
Qed.

(** A pixel-wise canvas operation, read back pixel by pixel. *)
Lemma pixelAt_mapBitmap f b x y :
  pixelAt (mapBitmap f b) x y = f x y <$> pixelAt b x y.
Proof.
  unfold pixelAt, mapBitmap. simpl.
  destruct (bool_decide (x < bw b)) eqn:Ex; [|done].
  apply bool_decide_eq_true in Ex.
  rewrite list_lookup_imap. destruct (div_mod_pixel (bw b) x y Ex) as [-> ->].
  done.
Qed.

Lemma pixelAt_newCanvas w h x y :
  x < w -> y < h -> pixelAt (newCanvas w h) x y = Some transparent.
Proof.
  intros Hx Hy. unfold pixelAt, newCanvas. simpl.
  rewrite bool_decide_eq_true_2 by done. apply lookup_replicate_2. nia.
Qed.

(** The patch canvas holds the patch. *)
Lemma pixelAt_patchCanvas (img : ImageData) x y :
  x < width img -> y < height img -> length (data img) = 4 * width img * height img ->
  pixelAt (putImageData img (newCanvas (width img) (height img))) x y
  = imagePixel img x y.
Proof.
  intros Hx Hy Hlen. unfold putImageData.
  rewrite pixelAt_mapBitmap, pixelAt_newCanvas by done. simpl.
  rewrite !bool_decide_eq_true_2 by done. simpl.
  destruct (imagePixel img x y) eqn:E; [done|]. exfalso.
  unfold imagePixel in E. rewrite bool_decide_eq_true_2 in E by done.
  apply lookup_ge_None in E.
  rewrite length_pixelsOf, Hlen in E.
  replace (4 * width img * height img) with ((width img * height img) * 4) in E by lia.
  rewrite Nat.div_mul in E by lia. nia.
Qed.

Lemma newImageData_Some array w h img :
  newImageData array w h = Some img ->
  img = mkImageData w h array /\ 0 < w /\ 0 < h /\ length array = 4 * w * h.
Proof.
  unfold newImageData. intros H.
  destruct (bool_decide (0 < w)) eqn:E1; [|done].
  destruct (bool_decide (0 < h)) eqn:E2; [|done].
  destruct (bool_decide (length array = 4 * w * h)) eqn:E3; [|done].
  apply bool_decide_eq_true in E1, E2, E3. simpl in H. by inversion H.
Qed.

Section Blit.
Variable blend : pixel -> pixel -> pixel.

(** What [drawPatch] leaves at a canvas position covered by the patch. *)
Lemma drawPatch_inside frame canvas drawn x y p old :
  drawPatch blend frame canvas = Some drawn ->
  x < dwidth (dims frame) -> y < dheight (dims frame) ->
  patchPixel frame x y = Some p ->
  pixelAt canvas (left (dims frame) + x) (top (dims frame) + y) = Some old ->
  pixelAt drawn (left (dims frame) + x) (top (dims frame) + y)
  = Some (sourceOver blend p old).
Proof.
  unfold drawPatch, patchPixel. intros Hd Hx Hy Hp Hold.
  destruct (newImageData _ _ _) as [img|] eqn:Himg; [|done].
  apply newImageData_Some in Himg as (-> & Hw & Hh & Hlen).
  simpl in Hd. inversion Hd; subst drawn; clear Hd.
  unfold drawImage. rewrite pixelAt_mapBitmap, Hold. simpl.
  rewrite !bool_decide_eq_true_2 by lia. simpl.
  replace (left (dims frame) + x - left (dims frame)) with x by lia.
  replace (top (dims frame) + y - top (dims frame)) with y by lia.
  pose proof (pixelAt_patchCanvas
                (mkImageData (dwidth (dims frame)) (dheight (dims frame))
                             (clamp8 <$> patch frame)) x y) as Hpc.
  simpl in Hpc. rewrite Hpc by done.
  unfold imagePixel. simpl. rewrite bool_decide_eq_true_2 by done.
  by rewrite Hp.
Qed.
End Blit.

(** C5, as the code has it.  The patch is drawn with the canvas' default
    source-over compositing: at a canvas position covered by the patch, a
    fully opaque patch pixel (alpha 255) replaces the canvas pixel whatever
    it was, and a fully transparent patch pixel (alpha 0) leaves the canvas
    pixel as it was. *)
Theorem blit_is_source_over blend frame canvas drawn x y p old :
  drawPatch blend frame canvas = Some drawn ->
  x < dwidth (dims frame) -> y < dheight (dims frame) ->
  patchPixel frame x y = Some p ->
  pixelAt canvas (left (dims frame) + x) (top (dims frame) + y) = Some old ->
  (alpha p = 255%Z ->
   pixelAt drawn (left (dims frame) + x) (top (dims frame) + y) = Some p)
  /\ (alpha p = 0%Z ->
      pixelAt drawn (left (dims frame) + x) (top (dims frame) + y) = Some old).
Proof.
  intros Hd Hx Hy Hp Hold.
  rewrite (drawPatch_inside blend frame canvas drawn x y p old) by done.
  unfold sourceOver. split; intros Ha.
  - by rewrite bool_decide_eq_true_2.
  - rewrite bool_decide_eq_false_2 by lia. by rewrite bool_decide_eq_true_2.
Qed.

Lemma blit_is_source_over_witness :
  (alpha (RGBA 255 0 0 255) = 255%Z ->
   pixelAt (mkBitmap 1 1 [RGBA 255 0 0 255]) (0 + 0) (0 + 0)
   = Some (RGBA 255 0 0 255))
  /\ (alpha (RGBA 255 0 0 255) = 0%Z ->
      pixelAt (mkBitmap 1 1 [RGBA 255 0 0 255]) (0 + 0) (0 + 0)
      = Some (RGBA 0 255 0 255)).
Proof.
  apply (blit_is_source_over (fun s _ => s) redKeepFrame greenCanvas
           (mkBitmap 1 1 [RGBA 255 0 0 255]) 0 0
           (RGBA 255 0 0 255) (RGBA 0 255 0 255));
    try reflexivity; simpl; lia.
Defined.

(** The blit does not overwrite: under a transparent patch pixel the canvas
    pixel survives, here even in the emitted second frame. *)
Lemma blit_overwrite_counterexample :
  patchPixel clearRedFrame 0 0 = Some (RGBA 255 0 0 0)
  /\ drawPatch (fun s _ => s) clearRedFrame greenCanvas = Some greenCanvas
  /\ pixelAt greenCanvas 0 0 <> Some (RGBA 255 0 0 0)
  /\ extractComposedFrames (fun s _ => s) [greenFrame; clearRedFrame] 1 1
     = Some [mkImageData 1 1 [0; 255; 0; 255]%Z; mkImageData 1 1 [0; 255; 0; 255]%Z].
Proof. repeat split; try reflexivity. intros H; discriminate H. Qed.

(** Putting back a snapshot of a canvas of the same size restores that
    canvas, whatever was drawn in between. *)
Lemma putImageData_snapshot saved b b' :
  getImageData b = Some saved ->
  bw b' = bw b -> bh b' = bh b ->
  length (pixels b) = bw b * bh b -> length (pixels b') = bw b * bh b ->
  putImageData saved b' = b.
Proof.
  unfold getImageData. intros Hs Hw Hh Hlen Hlen'.
  destruct (bool_decide (0 < bw b) && bool_decide (0 < bh b)) eqn:E; [|done].
  inversion Hs; subst saved; clear Hs.
  destruct b as [w h ps], b' as [w' h' ps']. simpl in *. subst w' h'.
  unfold putImageData, mapBitmap. simpl. f_equal.
  apply list_eq. intros k. rewrite list_lookup_imap.
  destruct (decide (k < w * h)) as [Hk|Hk].
  2:{ rewrite !(proj2 (lookup_ge_None _ _)) by lia. done. }
  assert (0 < w) as Hw by (destruct w; [simpl in Hk|]; lia).
  assert (k mod w < w) as Hx by (apply Nat.mod_upper_bound; lia).
  assert (k / w < h) as Hy by (apply Nat.Div0.div_lt_upper_bound; lia).
  assert (is_Some (ps' !! k)) as [old ->] by (apply lookup_lt_is_Some; lia).
  assert (is_Some (ps !! k)) as [p Hp] by (apply lookup_lt_is_Some; lia).
  simpl. rewrite !bool_decide_eq_true_2 by done. simpl.
  unfold imagePixel. simpl. rewrite bool_decide_eq_true_2 by done.
  rewrite pixelsOf_bytesOf.
  replace (k `div` w * w + k `mod` w) with k
    by (rewrite (Nat.div_mod_eq k w) at 1; lia).
  by rewrite Hp.
Qed.

(** C6, as the code has it.  When the very first frame asks for
    RestorePrevious, the snapshot taken before drawing is the blank initial
    canvas, and it is put back after the frame is emitted: the canvas handed
    to frame 2 is the blank canvas again. *)
Theorem restorePrevious_on_first_frame blend frame gifWidth gifHeight :
  disposalType frame = 3%Z ->
  0 < gifWidth -> 0 < gifHeight ->
  0 < dwidth (dims frame) -> 0 < dheight (dims frame) ->
  length (patch frame) = 4 * dwidth (dims frame) * dheight (dims frame) ->
  exists frameImage,
    composeStep blend frame (newCanvas gifWidth gifHeight)
    = Some (newCanvas gifWidth gifHeight, frameImage).
Proof.
  intros Hd HW HH Hw Hh Hlen. unfold composeStep.
  rewrite (bool_decide_eq_true_2 _ Hd).
  rewrite bool_decide_eq_false_2 by lia.
  assert (Hg : getImageData (newCanvas gifWidth gifHeight)
               = Some (mkImageData gifWidth gifHeight
                         (bytesOf (replicate (gifWidth * gifHeight) transparent)))).
  { unfold getImageData. simpl. by rewrite !bool_decide_eq_true_2 by done. }
  rewrite Hg. simpl.
  unfold drawPatch, newImageData.
  rewrite !bool_decide_eq_true_2 by (rewrite ?length_fmap; done). simpl.
  set (drawn := drawImage _ _ _ _ _).
  assert (Hdims : bw drawn = gifWidth /\ bh drawn = gifHeight
                  /\ length (pixels drawn) = gifWidth * gifHeight).
  { subst drawn. unfold drawImage, mapBitmap. simpl.
    by rewrite length_imap, length_replicate. }
  destruct Hdims as (Hbw & Hbh & Hpx).
  unfold getImageData at 1. rewrite Hbw, Hbh.
  rewrite !bool_decide_eq_true_2 by done. simpl.
  eexists. f_equal. f_equal.
  apply putImageData_snapshot; simpl; auto.
  all: by rewrite ?length_replicate.
Qed.

Lemma restorePrevious_on_first_frame_witness :
  exists frameImage,
    composeStep (fun s _ => s) redRestoreFrame (newCanvas 1 1)
    = Some (newCanvas 1 1, frameImage).
Proof.
  apply (restorePrevious_on_first_frame (fun s _ => s) redRestoreFrame 1 1);
    try reflexivity; simpl; lia.
Defined.

(** RestorePrevious on the first frame is not treated as None: the red
    patch of frame 1 is gone from what frame 2 shows, while with disposal
    None it is still there. *)
Lemma restorePrevious_first_counterexample :
  extractComposedFrames (fun s _ => s) [redRestoreFrame; emptyFrame] 1 1
  = Some [mkImageData 1 1 [255; 0; 0; 255]%Z; mkImageData 1 1 [0; 0; 0; 0]%Z]
  /\ extractComposedFrames (fun s _ => s) [redKeepFrame; emptyFrame] 1 1
     = Some [mkImageData 1 1 [255; 0; 0; 255]%Z; mkImageData 1 1 [255; 0; 0; 255]%Z].
Proof. split; reflexivity. Qed.
End CanvasFacts.

(** * Facts about [processFrame] *)

Section FrameFacts.
Import Image Frame.

(** ** Loops *)

Lemma forRange_S {S : Type} n (body : nat -> S -> S) s :
  forRange (Datatypes.S n) body s = body n (forRange n body s).
Proof. unfold forRange. by rewrite seq_S, foldl_app. Qed.

(** Invariant rule for a counted loop. *)
Lemma forRange_ind {S : Type} (P : nat -> S -> Prop) n (body : nat -> S -> S) s :
  P 0 s ->
  (forall i s, i < n -> P i s -> P (Datatypes.S i) (body i s)) ->
  P n (forRange n body s).
Proof.
  intros H0 Hstep. induction n as [|n IH]; [done|].
  rewrite forRange_S. apply Hstep; [lia|]. apply IH.
  intros i s' Hi. apply Hstep. lia.
Qed.

(** Invariant rule for the raster scan [for y { for x { body } }]: the
    invariant is indexed by the number [y * w + x] of pixels already
    visited. *)
Lemma raster_ind {S : Type} (P : nat -> S -> Prop) w h
  (body : nat -> nat -> S -> S) s :
  P 0 s ->
  (forall x y s, x < w -> y < h -> P (y * w + x) s ->
                 P (Datatypes.S (y * w + x)) (body x y s)) ->
  P (h * w) (forRange h (fun y => forRange w (fun x => body x y)) s).
Proof.
  intros H0 Hstep.
  apply (forRange_ind (fun y s => P (y * w) s)); [done|].
  intros y s' Hy HP.
  replace (Datatypes.S y * w) with (y * w + w) by lia.
  apply (forRange_ind (fun x s => P (y * w + x) s)).
  - by rewrite Nat.add_0_r.
  - intros x s'' Hx HP'.
    replace (y * w + Datatypes.S x) with (Datatypes.S (y * w + x)) by lia.
    by apply Hstep.
Qed.

(** ** Array writes *)

Lemma length_writePixel idx px a : length (writePixel idx px a) = length a.
Proof. destruct px as [[[r g] b] al]. unfold writePixel. by rewrite !length_insert. Qed.

Lemma lookup_writePixel_ne idx px a j :
  j < idx * 4 \/ idx * 4 + 4 <= j -> writePixel idx px a !! j = a !! j.
Proof.
  intros Hj. destruct px as [[[r g] b] al]. unfold writePixel.
  by rewrite !list_lookup_insert_ne by lia.
Qed.

Lemma lookup_writePixel idx r g b al a :
  idx * 4 + 3 < length a ->
  writePixel idx (r, g, b, al) a !! (idx * 4) = Some (clamp8 r)
  /\ writePixel idx (r, g, b, al) a !! (idx * 4 + 1) = Some (clamp8 g)
  /\ writePixel idx (r, g, b, al) a !! (idx * 4 + 2) = Some (clamp8 b)
  /\ writePixel idx (r, g, b, al) a !! (idx * 4 + 3) = Some (clamp8 al).
Proof.
  intros Hlen. unfold writePixel. repeat split.
  - rewrite !list_lookup_insert_ne by lia. apply list_lookup_insert_eq. lia.
  - rewrite !list_lookup_insert_ne by lia. apply list_lookup_insert_eq.
    rewrite length_insert. lia.
  - rewrite !list_lookup_insert_ne by lia. apply list_lookup_insert_eq.
    rewrite !length_insert. lia.
  - apply list_lookup_insert_eq. rewrite !length_insert. lia.
Qed.

Lemma clamp8_byte v : is_byte v -> clamp8 v = v.
Proof. unfold is_byte, clamp8. lia. Qed.

Lemma length_setBit w x y ssd : length (setBit w x y ssd) = length ssd.
Proof. unfold setBit. case_bool_decide; [by rewrite length_insert|done]. Qed.

Lemma testbit_to_uint8 v n :
  Z.testbit (to_uint8 v) (Z.of_nat n) = bool_decide (n < 8) && Z.testbit v (Z.of_nat n).
Proof.
  unfold to_uint8. change 256%Z with (2 ^ 8)%Z.
  rewrite Z.testbit_mod_pow2 by lia.
  case_bool_decide; [rewrite (proj2 (Z.ltb_lt _ _)) by lia
                    |rewrite (proj2 (Z.ltb_ge _ _)) by lia]; done.
Qed.

(** The bits of the packed buffer after one [|=]. *)
Lemma testbit_setBit w x y ssd j n :
  Z.testbit (setBit w x y ssd !!! j) (Z.of_nat n) =
    if bool_decide (j = y / 8 * w + x /\ j < length ssd)
    then bool_decide (n < 8)
         && (Z.testbit (ssd !!! j) (Z.of_nat n) || bool_decide (n = y mod 8))
    else Z.testbit (ssd !!! j) (Z.of_nat n).
Proof.
  unfold setBit, byteIndex. case_bool_decide as Hin.
  - destruct (decide (j = y / 8 * w + x)) as [->|Hne].
    + rewrite bool_decide_eq_true_2 by done.
      rewrite list_lookup_total_insert_eq by done.
      rewrite testbit_to_uint8, Z.lor_spec. f_equal. f_equal.
      rewrite Z.shiftl_1_l, Z.pow2_bits_eqb by lia.
      case_bool_decide; [rewrite (proj2 (Z.eqb_eq _ _)) by lia
                        |rewrite (proj2 (Z.eqb_neq _ _)) by lia]; done.
    + rewrite bool_decide_eq_false_2 by tauto.
      by rewrite list_lookup_total_insert_ne by done.
  - rewrite bool_decide_eq_false_2 by lia. done.
Qed.

(** ** The page layout *)

Lemma raster_inj w a m y x :
  m < w -> x < w -> a * w + m = y * w + x -> a = y /\ m = x.
Proof.
  intros Hm Hx Heq.
  destruct (div_mod_pixel w m a Hm) as [H1 H2].
  destruct (div_mod_pixel w x y Hx) as [H3 H4].
  rewrite Heq in H1, H2. split; congruence.
Qed.

(** Byte [j], bit [n] is the only place where pixel [(x, y)] can go. *)
Lemma pixelOfBit_unique w x y j n :
  x < w -> n < 8 ->
  (pixelOfBit w j n = y * w + x <-> j = y / 8 * w + x /\ n = y mod 8).
Proof.
  intros Hx Hn. unfold pixelOfBit.
  assert (j mod w < w) as Hm by (apply Nat.mod_upper_bound; lia).
  pose proof (Nat.div_mod_eq j w) as Hj.
  pose proof (Nat.div_mod_eq y 8) as Hy.
  assert (y mod 8 < 8) as Hy8 by (apply Nat.mod_upper_bound; lia).
  split.
  - intros Heq.
    apply raster_inj in Heq as [H1 H2]; [|done..].
    assert (j / w = y / 8 /\ n = y mod 8) as [H3 H4] by lia.
    split; [|done]. rewrite <- H3, <- H2. lia.
  - intros [-> ->].
    assert ((y / 8 * w + x) / w = y / 8 /\ (y / 8 * w + x) mod w = x) as [-> ->].
    { destruct (div_mod_pixel w x (y / 8) Hx) as [H1 H2]. done. }
    f_equal. f_equal. lia.
Qed.

Lemma readByte_writePixel_ne idx px a i :
  i <> idx -> readByte (writePixel idx px a) (i * 4) = readByte a (i * 4).
Proof.
  intros Hne. unfold readByte. rewrite lookup_writePixel_ne; [done|lia].
Qed.

Lemma readByte_writePixel_gray idx v a :
  idx * 4 + 3 < length a -> is_byte v ->
  readByte (writePixel idx (v, v, v, 255%Z) a) (idx * 4) = v.
Proof.
  intros Hlen Hv. unfold readByte.
  destruct (lookup_writePixel idx v v v 255 a Hlen) as (-> & _).
  simpl. by apply clamp8_byte.
Qed.

(** One emitted pixel extends the mirror by one pixel. *)
Lemma packedUpTo_step w h x y v td ssd :
  x < w -> y < h -> length td = 4 * w * h -> (v = 0 \/ v = 255)%Z ->
  packedUpTo w (y * w + x) td ssd ->
  packedUpTo w (S (y * w + x))
    (writePixel (y * w + x) (v, v, v, 255%Z) td)
    (if bool_decide (128 < v)%Z then setBit w x y ssd else ssd).
Proof.
  intros Hx Hy Hlen Hv Hinv j n Hj.
  assert (Hj' : j < length ssd).
  { case_bool_decide; [by rewrite length_setBit in Hj|done]. }
  specialize (Hinv j n Hj').
  assert (Hk : (y * w + x) * 4 + 3 < length td) by nia.
  assert (Hb : is_byte v) by (unfold is_byte; lia).
  unfold lit in *.
  destruct (decide (pixelOfBit w j n = y * w + x)) as [Heq|Hne].
  - rewrite Heq in *. rewrite readByte_writePixel_gray by done.
    destruct (decide (n < 8)) as [Hn|Hn].
    + apply pixelOfBit_unique in Heq as [-> ->]; [|done..].
      case_bool_decide as Hv'.
      * rewrite testbit_setBit. rewrite !bool_decide_eq_true_2 by (done || lia).
        rewrite orb_true_r. simpl. split; [intros _; repeat split; lia|done].
      * split; [intros Ht; apply Hinv in Ht; lia|intros (_ & _ & ?); lia].
    + split; [|intros (? & _); lia]. intros Ht. exfalso.
      case_bool_decide as Hv'.
      * rewrite testbit_setBit in Ht. case_bool_decide.
        -- rewrite (bool_decide_eq_false_2 (n < 8)) in Ht by done. done.
        -- apply Hinv in Ht. lia.
      * apply Hinv in Ht. lia.
  - rewrite readByte_writePixel_ne by done.
    assert (Hold : Z.testbit
              ((if bool_decide (128 < v)%Z then setBit w x y ssd else ssd) !!! j)
              (Z.of_nat n) = true
            <-> Z.testbit (ssd !!! j) (Z.of_nat n) = true).
    { case_bool_decide as Hv'; [|done]. rewrite testbit_setBit.
      case_bool_decide as Hjb; [|done]. destruct Hjb as [Hjb _].
      destruct (decide (n < 8)) as [Hn|Hn].
      - rewrite (bool_decide_eq_true_2 (n < 8)) by done.
        rewrite (bool_decide_eq_false_2 (n = y mod 8)).
        + by rewrite orb_false_r.
        + intros Hn'. apply Hne. by apply pixelOfBit_unique.
      - rewrite (bool_decide_eq_false_2 (n < 8)) by done. simpl.
        split; [done|]. intros Ht. apply Hinv in Ht. lia. }
    rewrite Hold, Hinv. split; intros (? & ? & ?); repeat split; auto; lia.
Qed.

(** ** The two quantizing loops emit one pixel per iteration *)

Lemma length_addError j e g : length (addError j e g) = length g.
Proof. unfold addError. destruct (g !! j); [by rewrite length_insert|done]. Qed.

Lemma length_diffuse w h x y e g : length (diffuse w h x y e g) = length g.
Proof.
  unfold diffuse.
  repeat (case_bool_decide; rewrite ?length_addError); done.
Qed.

Lemma quantize_cases v t : (quantize v t = 0 \/ quantize v t = 255)%Z.
Proof. unfold quantize. destruct (PrimFloat.ltb v t); auto. Qed.

Lemma ditherStep_emits w h t x y b :
  x < w -> y < h -> length (grayBuffer b) = w * h ->
  emitsAt w x y b (ditherStep w h t x y b).
Proof.
  intros Hx Hy Hlen. unfold ditherStep.
  assert (is_Some (grayBuffer b !! (y * w + x))) as [old ->].
  { apply lookup_lt_is_Some. nia. }
  unfold emitsAt, emitPixel. simpl. split; [by rewrite length_diffuse|].
  exists (quantize old t). split; [apply quantize_cases|done].
Qed.

Lemma thresholdStep_emits w h t inv x y b :
  x < w -> y < h -> length (grayBuffer b) = w * h ->
  emitsAt w x y b (thresholdStep w t inv x y b).
Proof.
  intros Hx Hy Hlen. unfold thresholdStep.
  assert (is_Some (grayBuffer b !! (y * w + x))) as [old ->].
  { apply lookup_lt_is_Some. nia. }
  unfold emitsAt, emitPixel. simpl. split; [done|].
  exists (if inv then (255 - quantize old t)%Z else quantize old t).
  split; [|done]. destruct inv, (quantize_cases old t) as [-> | ->]; auto.
Qed.

Lemma quantInv_step w h len x y b b' :
  x < w -> y < h -> emitsAt w x y b b' ->
  quantInv w h len (y * w + x) b -> quantInv w h len (S (y * w + x)) b'.
Proof.
  intros Hx Hy (Hg & v & Hv & Htd & Hssd) (Ig & It & Is & Ip).
  unfold quantInv. rewrite Hg, Htd, Hssd, length_writePixel.
  split_and!; auto.
  - case_bool_decide; [by rewrite length_setBit|done].
  - by apply (packedUpTo_step w h).
Qed.

Lemma quantInv_init w h len g td :
  length g = w * h -> length td = 4 * w * h ->
  quantInv w h len 0 (mkBuffers g td (replicate len 0%Z)).
Proof.
  intros Hg Ht. unfold quantInv. simpl. split_and!; auto.
  - by rewrite length_replicate.
  - intros j n Hj. rewrite length_replicate in Hj.
    rewrite lookup_total_replicate_2 by done. rewrite Z.bits_0.
    split; [done|]. intros (_ & ? & _). lia.
Qed.

(** Any raster loop whose iterations emit their pixel establishes the
    mirror for the whole frame. *)
Lemma quantInv_loop w h len (body : nat -> nat -> Buffers -> Buffers) b :
  (forall x y b, x < w -> y < h -> length (grayBuffer b) = w * h ->
                 emitsAt w x y b (body x y b)) ->
  quantInv w h len 0 b ->
  quantInv w h len (h * w)
    (forRange h (fun y => forRange w (fun x => body x y)) b).
Proof.
  intros Hbody H0.
  apply (raster_ind (quantInv w h len)); [done|].
  intros x y s Hx Hy Hs. apply (quantInv_step w h len x y s); auto.
  apply Hbody; auto. by destruct Hs.
Qed.

(** ** Buffer sizes *)

Lemma length_sampleLoop m src w h td :
  length (sampleLoop m src w h td) = length td.
Proof.
  unfold sampleLoop.
  apply (raster_ind (fun _ a => length a = length td)); [done|].
  intros x y a _ _ Ha. by rewrite length_writePixel.
Qed.

Lemma length_resample src o :
  length (resample src o) = 4 * width o * height o.
Proof.
  unfold resample. rewrite length_sampleLoop, length_replicate. lia.
Qed.

Lemma length_grayLoop n td g : length (grayLoop n td g) = length g.
Proof.
  unfold grayLoop.
  apply (forRange_ind (fun _ a => length a = length g)); [done|].
  intros i a _ Ha. by rewrite length_insert.
Qed.

Lemma length_invertGray n g : length (invertGray n g) = length g.
Proof.
  unfold invertGray.
  apply (forRange_ind (fun _ a => length a = length g)); [done|].
  intros i a _ Ha. destruct (a !! i); [by rewrite length_insert|done].
Qed.

(** After [quantizeAndPack] the packed buffer has
    [floor (width * height / 8)] bytes and mirrors the whole preview. *)
Lemma quantizeAndPack_inv o td :
  length td = 4 * width o * height o ->
  quantInv (width o) (height o) (width o * height o / 8)
    (height o * width o) (quantizeAndPack o td).
Proof.
  intros Htd. unfold quantizeAndPack.
  destruct (dither o).
  - unfold ditherLoop. apply quantInv_loop.
    + intros x y b Hx Hy Hb. by apply ditherStep_emits.
    + apply quantInv_init; [|done].
      destruct (invert o);
        rewrite ?length_invertGray, length_grayLoop, length_replicate; done.
  - unfold thresholdLoop. apply quantInv_loop.
    + intros x y b Hx Hy Hb. by apply (thresholdStep_emits _ (height o)).
    + apply quantInv_init; [|done].
      by rewrite length_grayLoop, length_replicate.
Qed.

(** [processFrame] returns whenever both target sides are positive. *)
Lemma processFrame_Some src o :
  0 < width o -> 0 < height o ->
  processFrame src o =
    Some (mkProcessed
            (ssd1306Buffer (quantizeAndPack o (resample src o)))
            (mkImageData (width o) (height o)
               (targetData (quantizeAndPack o (resample src o))))).
Proof.
  intros Hw Hh. unfold processFrame, result, newImageData.
  destruct (quantizeAndPack_inv o (resample src o) (length_resample src o))
    as (_ & Ht & _).
  rewrite !bool_decide_eq_true_2 by done. done.
Qed.

(** ** The size of the packed buffer *)

Lemma length_pixels src o r :
  processFrame src o = Some r -> length (pixels r) = width o * height o / 8.
Proof.
  unfold processFrame, result. intros Hr.
  destruct (newImageData _ _ _) as [img|]; [|done]. simpl in Hr.
  inversion Hr; subst r; clear Hr. simpl.
  by destruct (quantizeAndPack_inv o (resample src o) (length_resample src o))
    as (_ & _ & Hs & _).
Qed.

(** C2, what the code does.  The returned buffer is allocated with
    [new Uint8Array((width * height) / 8)], so its length is the quotient
    rounded down: it equals [ceil (W * H / 8)] only when [W * H] is a
    multiple of 8 and is one byte short otherwise. *)
Theorem packed_length_is_floor src o :
  0 < width o -> 0 < height o ->
  exists r, processFrame src o = Some r
    /\ length (pixels r) = width o * height o / 8
    /\ ((width o * height o) mod 8 = 0 ->
        length (pixels r) = ceilDiv (width o * height o) 8)
    /\ ((width o * height o) mod 8 <> 0 ->
        S (length (pixels r)) = ceilDiv (width o * height o) 8).
Proof.
  intros Hw Hh. rewrite processFrame_Some by done. eexists. split; [done|].
  cbn [pixels].
  destruct (quantizeAndPack_inv o (resample src o) (length_resample src o))
    as (_ & _ & -> & _).
  unfold ceilDiv. generalize (width o * height o). intros n.
  change (8 - 1) with 7.
  pose proof (Nat.div_mod_eq n 8). pose proof (Nat.div_mod_eq (n + 7) 8).
  pose proof (Nat.mod_upper_bound n 8). pose proof (Nat.mod_upper_bound (n + 7) 8).
  split; [done|]. split; intros; lia.
Qed.

(** ** Reach of the byte index *)

Lemma byteIndex_bound_iff w h :
  0 < w -> 0 < h ->
  ((forall x y, x < w -> y < h -> byteIndex w x y < w * h / 8) <-> h mod 8 = 0).
Proof.
  intros Hw Hh. unfold byteIndex.
  pose proof (Nat.div_mod_eq h 8) as Hh8.
  pose proof (Nat.mod_upper_bound h 8 ltac:(lia)) as Hr.
  split.
  - intros Hall. specialize (Hall (w - 1) (h - 1) ltac:(lia) ltac:(lia)).
    destruct (decide (h mod 8 = 0)) as [|Hne]; [done|exfalso].
    set (q := h / 8) in *. set (r := h mod 8) in *.
    assert ((h - 1) / 8 = q) as Hq.
    { symmetry. apply (Nat.div_unique _ _ _ (r - 1)); lia. }
    rewrite Hq in Hall.
    assert (w * h / 8 < q * w + w); [|lia].
    apply Nat.Div0.div_lt_upper_bound. nia.
  - intros H0 x y Hx Hy. rewrite H0, Nat.add_0_r in Hh8.
    set (q := h / 8) in *.
    replace (w * h) with ((w * q) * 8) by lia. rewrite Nat.div_mul by lia.
    assert (y / 8 < q) by (apply Nat.Div0.div_lt_upper_bound; lia). nia.
Qed.

(** C4, as the code has it.  When the target height is a multiple of 8,
    the byte index of every pixel lies inside the returned buffer and the
    bounds check of the packing step is never taken.  When it is not, and
    [ceil (W * (H mod 8) / 8) < W] (every width from 8 on, or a 3x3
    target), the byte index of the last pixel [(W - 1, H - 1)] is at least
    [ceil (W * H / 8)]: the layout addresses [W] bytes for the last, partial
    page, more than a buffer of one bit per pixel holds, so the index is
    outside the buffer and the bounds check drops the write. *)
Theorem byteIndex_in_bounds_by_design src o r :
  0 < width o -> 0 < height o -> processFrame src o = Some r ->
  (height o mod 8 = 0 ->
   forall x y, x < width o -> y < height o ->
     byteIndex (width o) x y < length (pixels r))
  /\ (height o mod 8 <> 0 ->
      ceilDiv (width o * (height o mod 8)) 8 < width o ->
      ceilDiv (width o * height o) 8
        <= byteIndex (width o) (width o - 1) (height o - 1)
      /\ ~ byteIndex (width o) (width o - 1) (height o - 1)
           < length (pixels r)).
Proof.
  intros Hw Hh Hr. rewrite (length_pixels src o r Hr). split.
  - intros H8. by apply (proj2 (byteIndex_bound_iff (width o) (height o) Hw Hh)).
  - intros H8 Hshort. unfold ceilDiv, byteIndex in *.
    change (8 - 1) with 7 in *.
    pose proof (Nat.div_mod_eq (height o) 8) as Hdm.
    pose proof (Nat.mod_upper_bound (height o) 8 ltac:(lia)) as Hr8.
    set (q := height o / 8) in *. set (m := height o mod 8) in *.
    assert (Hq : (height o - 1) / 8 = q).
    { symmetry. apply (Nat.div_unique _ _ _ (m - 1)); lia. }
    rewrite Hq.
    assert (Hceil : (width o * height o + 7) / 8
                    = width o * q + (width o * m + 7) / 8).
    { replace (width o * height o + 7)
        with (width o * q * 8 + (width o * m + 7)) by lia.
      by rewrite Nat.div_add_l by lia. }
    assert (Hfloor : width o * height o / 8 <= (width o * height o + 7) / 8).
    { apply Nat.Div0.div_le_mono. lia. }
    rewrite Hceil in *. lia.
Qed.

Lemma packed_length_is_floor_witness :
  exists r, processFrame (onePixel 1 1 0 0) (plainOptions 10 10 false) = Some r
    /\ length (pixels r) = 12
    /\ (100 mod 8 = 0 -> length (pixels r) = 13)
    /\ (100 mod 8 <> 0 -> S (length (pixels r)) = 13).
Proof.
  apply (packed_length_is_floor (onePixel 1 1 0 0) (plainOptions 10 10 false));
    simpl; lia.
Defined.

(** For a 10x10 target the returned buffer has 12 bytes, not
    [ceil (100 / 8) = 13]. *)
Lemma packed_length_10x10 :
  (fun r => length (pixels r))
    <$> processFrame (onePixel 1 1 0 0) (plainOptions 10 10 false) = Some 12
  /\ ceilDiv (10 * 10) 8 = 13.
Proof. split; vm_compute; reflexivity. Qed.

Lemma byteIndex_in_bounds_by_design_witness :
  exists r, processFrame (onePixel 3 3 2 0) (plainOptions 3 3 false) = Some r
    /\ ceilDiv (3 * 3) 8 <= byteIndex 3 (3 - 1) (3 - 1)
    /\ ~ byteIndex 3 (3 - 1) (3 - 1) < length (pixels r).
Proof.
  eexists. split.
  - apply processFrame_Some; simpl; lia.
  - apply (byteIndex_in_bounds_by_design (onePixel 3 3 2 0)
             (plainOptions 3 3 false));
      [simpl; lia | simpl; lia | apply processFrame_Some; simpl; lia
      | simpl; lia | vm_compute; lia].
Defined.

(** On a 3x3 target the lit pixel [(2, 0)] has byte index 2.  The returned
    buffer ends before it, and so would a buffer of [ceil (9 / 8) = 2]
    bytes: the bounds check is taken and the pixel is dropped. *)
Lemma byteIndex_guard_counterexample :
  exists r, processFrame (onePixel 3 3 2 0) (plainOptions 3 3 false) = Some r
    /\ 2 < 3 /\ 0 < 3
    /\ ~ byteIndex 3 2 0 < length (pixels r)
    /\ ~ byteIndex 3 2 0 < ceilDiv (3 * 3) 8
    /\ lit (data (preview r)) (0 * 3 + 2).
Proof.
  eexists. split; [vm_compute; reflexivity|]. simpl.
  split; [lia|]. split; [lia|].
  split; [unfold byteIndex; simpl; lia|].
  split; [vm_compute; lia|].
  unfold lit. vm_compute. reflexivity.
Qed.

(** Bits of the packed buffer against the preview, per bit and per
    pixel. *)
Lemma packed_bits o td :
  0 < width o -> length td = 4 * width o * height o ->
  let b := quantizeAndPack o td in
  (forall j n, j < length (ssd1306Buffer b) ->
     (Z.testbit (ssd1306Buffer b !!! j) (Z.of_nat n) = true
      <-> n < 8 /\ 8 * (j / width o) + n < height o
          /\ lit (targetData b) (pixelOfBit (width o) j n)))
  /\ (forall x y, x < width o -> y < height o ->
        byteIndex (width o) x y < length (ssd1306Buffer b) ->
        (Z.testbit (ssd1306Buffer b !!! byteIndex (width o) x y)
                   (Z.of_nat (y mod 8)) = true
         <-> lit (targetData b) (y * width o + x))).
Proof.
  intros Hw Htd. cbv zeta.
  destruct (quantizeAndPack_inv o td Htd) as (_ & _ & Hlen & Hpk).
  set (b := quantizeAndPack o td) in *.
  assert (Hall : forall j n, j < length (ssd1306Buffer b) ->
     (Z.testbit (ssd1306Buffer b !!! j) (Z.of_nat n) = true
      <-> n < 8 /\ 8 * (j / width o) + n < height o
          /\ lit (targetData b) (pixelOfBit (width o) j n))).
  { intros j n Hj. rewrite (Hpk j n Hj).
    assert (pixelOfBit (width o) j n < height o * width o
            <-> 8 * (j / width o) + n < height o) as ->; [|done].
    unfold pixelOfBit.
    pose proof (Nat.mod_upper_bound j (width o) ltac:(lia)). nia. }
  split; [exact Hall|].
  intros x y Hx Hy Hj. rewrite (Hall _ _ Hj).
  assert (Hp : pixelOfBit (width o) (byteIndex (width o) x y) (y mod 8)
               = y * width o + x).
  { apply pixelOfBit_unique; [done|by apply Nat.mod_upper_bound|done]. }
  rewrite Hp. unfold byteIndex.
  destruct (div_mod_pixel (width o) x (y / 8) Hx) as [_ ->].
  pose proof (Nat.div_mod_eq y 8). pose proof (Nat.mod_upper_bound y 8).
  split; [tauto|]. intros Hl. split_and!; [lia|lia|done].
Qed.

(** ** The layout of the packed buffer *)

(** C3, as the code has it.  In the buffer [processFrame] returns, bit [n]
    of byte [j] is set exactly when [n < 8] and the pixel in column
    [j mod W] of row [8 * (j / W) + n] exists and has a preview value above
    128.  Read per pixel: a pixel [(x, y)] whose byte index
    [floor (y / 8) * W + x] lies inside the buffer has bit [y mod 8] of that
    byte set if and only if its quantized value exceeds 128.  For the 16x16
    frame with the single lit pixel [(3, 10)] the buffer has exactly one set
    bit, bit 2 of byte 19, with and without dithering. *)
Theorem packed_layout src o r :
  0 < width o -> 0 < height o -> processFrame src o = Some r ->
  (forall j n, j < length (pixels r) ->
     (Z.testbit (pixels r !!! j) (Z.of_nat n) = true
      <-> n < 8 /\ 8 * (j / width o) + n < height o
          /\ lit (data (preview r)) (pixelOfBit (width o) j n)))
  /\ (forall x y, x < width o -> y < height o ->
        byteIndex (width o) x y < length (pixels r) ->
        (Z.testbit (pixels r !!! byteIndex (width o) x y) (Z.of_nat (y mod 8)) = true
         <-> lit (data (preview r)) (y * width o + x)))
  /\ pixels <$> processFrame (onePixel 16 16 3 10) (plainOptions 16 16 false)
     = Some (<[19 := 4%Z]> (replicate 32 0%Z))
  /\ pixels <$> processFrame (onePixel 16 16 3 10) (plainOptions 16 16 true)
     = Some (<[19 := 4%Z]> (replicate 32 0%Z)).
Proof.
  intros Hw Hh Hr. rewrite processFrame_Some in Hr by done.
  inversion Hr; subst r; clear Hr. cbn [pixels preview data].
  destruct (packed_bits o (resample src o) Hw (length_resample src o))
    as [Hbits Hpix].
  split; [exact Hbits|]. split; [exact Hpix|]. split; vm_compute; reflexivity.
Qed.

Lemma packed_layout_witness :
  exists r, processFrame (onePixel 16 16 3 10) (plainOptions 16 16 false) = Some r
    /\ (Z.testbit (pixels r !!! byteIndex 16 3 10) (Z.of_nat (10 mod 8)) = true
        <-> lit (data (preview r)) (10 * 16 + 3)).
Proof.
  eexists. split; [apply processFrame_Some; simpl; lia|].
  apply (packed_layout (onePixel 16 16 3 10) (plainOptions 16 16 false));
    [simpl; lia | simpl; lia | apply processFrame_Some; simpl; lia
    | simpl; lia | simpl; lia | ].
  cbn [pixels].
  rewrite (proj1 (proj2 (proj2 (quantizeAndPack_inv (plainOptions 16 16 false)
             (resample (onePixel 16 16 3 10) (plainOptions 16 16 false))
             (length_resample _ _))))).
  vm_compute. lia.
Defined.

(** In a 3x3 target the lit pixel [(1, 0)] has byte index 1, outside the
    one-byte buffer: its bit is dropped and no bit at all is set. *)
Lemma packed_layout_counterexample :
  exists r, processFrame (onePixel 3 3 1 0) (plainOptions 3 3 false) = Some r
    /\ lit (data (preview r)) (0 * 3 + 1)
    /\ byteIndex 3 1 0 = 1
    /\ pixels r = [0%Z].
Proof.
  eexists. split; [vm_compute; reflexivity|]. simpl.
  split; [unfold lit; vm_compute; reflexivity|]. split; reflexivity.
Qed.

(** ** Resampling *)

Lemma texelAt_writePixel_ne idx px a i :
  i <> idx -> texelAt (writePixel idx px a) i = texelAt a i.
Proof.
  intros Hne. unfold texelAt, readByte.
  by rewrite !lookup_writePixel_ne by lia.
Qed.

Lemma texelAt_writePixel idx r g b al a :
  idx * 4 + 3 < length a ->
  texelAt (writePixel idx (r, g, b, al) a) idx
  = (clamp8 r, clamp8 g, clamp8 b, clamp8 al).
Proof.
  intros Hlen. unfold texelAt, readByte.
  destruct (lookup_writePixel idx r g b al a Hlen) as (-> & -> & -> & ->).
  done.
Qed.

Lemma readByte_byte a i : Forall is_byte a -> is_byte (readByte a i).
Proof.
  intros Ha. unfold readByte. destruct (a !! i) as [v|] eqn:E; simpl.
  - by eapply Forall_lookup_1.
  - unfold is_byte. lia.
Qed.

(** What the sampling loop stores never needs clamping. *)
Lemma sampleTexel_bytes m src x y :
  Forall is_byte (data src) ->
  let '(r, g, b, al) := sampleTexel m src x y in
  clamp8 r = r /\ clamp8 g = g /\ clamp8 b = b /\ clamp8 al = al.
Proof.
  intros Hb. unfold sampleTexel.
  destruct (sourceCoord _ _ _ _ _) as [[sx sy]|].
  - split_and!; apply clamp8_byte, readByte_byte; done.
  - done.
Qed.

(** The sampling loop, pixel by pixel. *)
Lemma sampleLoop_texel m src w h td x y :
  Forall is_byte (data src) -> length td = 4 * w * h -> x < w -> y < h ->
  texelAt (sampleLoop m src w h td) (y * w + x) = sampleTexel m src x y.
Proof.
  intros Hb Hlen Hx Hy. unfold sampleLoop.
  assert (Hinv : (fun k a => length a = 4 * w * h
                   /\ forall i, i < k ->
                        texelAt a i = sampleTexel m src (i mod w) (i / w))
                 (h * w)
                 (forRange h (fun y => forRange w (fun x td =>
                    writePixel (y * w + x) (sampleTexel m src x y) td)) td)).
  { apply (raster_ind (fun k a => length a = 4 * w * h
                   /\ forall i, i < k ->
                        texelAt a i = sampleTexel m src (i mod w) (i / w))).
    - split; [done|]. intros i Hi. lia.
    - intros x' y' a Hx' Hy' [Ha Hprev].
      split; [by rewrite length_writePixel|].
      intros i Hi. destruct (decide (i = y' * w + x')) as [->|Hne].
      + destruct (div_mod_pixel w x' y' Hx') as [-> ->].
        pose proof (sampleTexel_bytes m src x' y' Hb) as Hc.
        destruct (sampleTexel m src x' y') as [[[r g] b] al].
        destruct Hc as (Hr & Hg & Hb' & Hal).
        rewrite texelAt_writePixel by nia. by rewrite Hr, Hg, Hb', Hal.
      + rewrite texelAt_writePixel_ne by done. apply Hprev. lia. }
  destruct Hinv as [_ Hall].
  rewrite Hall by nia.
  by destruct (div_mod_pixel w x y Hx) as [-> ->].
Qed.

(** ** Invert *)

(** The invert pass over the luminance buffer, cell by cell. *)
Lemma invertGray_lookup n g i :
  n <= length g ->
  invertGray n g !! i
  = if bool_decide (i < n) then (fun v => fround (255 - v)%float) <$> g !! i
    else g !! i.
Proof.
  intros Hn. unfold invertGray.
  pose (P := fun (k : nat) (a : list float) =>
          length a = length g
          /\ forall j, a !! j =
               if bool_decide (j < k)
               then (fun v => fround (255 - v)%float) <$> g !! j
               else g !! j).
  assert (Hinv : P n (forRange n (fun i a =>
                      match a !! i with
                      | Some v => <[i := fround (255 - v)%float]> a
                      | None => a
                      end) g)).
  { apply (forRange_ind P); unfold P.
    - split; [done|]. intros j. by rewrite bool_decide_eq_false_2 by lia.
    - intros k a Hk [Hlen Ha].
      pose proof (Ha k) as Hak. rewrite bool_decide_eq_false_2 in Hak by lia.
      assert (is_Some (g !! k)) as [v Hv] by (apply lookup_lt_is_Some; lia).
      rewrite Hv in Hak. rewrite Hak.
      split; [by rewrite length_insert|]. intros j.
      destruct (decide (j = k)) as [->|Hne].
      + rewrite list_lookup_insert_eq by lia.
        rewrite bool_decide_eq_true_2 by lia. by rewrite Hv.
      + rewrite list_lookup_insert_ne by done. rewrite Ha.
        repeat case_bool_decide; try done; lia. }
  by destruct Hinv as [_ ->].
Qed.

(** The threshold loop leaves the luminance alone and writes, for each
    pixel, the thresholded and then possibly inverted value. *)
Lemma thresholdLoop_pixel w h t inv b x y v :
  length (grayBuffer b) = w * h -> length (targetData b) = 4 * w * h ->
  x < w -> y < h -> grayBuffer b !! (y * w + x) = Some v ->
  let b' := thresholdLoop w h t inv b in
  grayBuffer b' = grayBuffer b
  /\ texelAt (targetData b') (y * w + x)
     = (let q := quantize v t in
        let p := if inv then (255 - q)%Z else q in (p, p, p, 255%Z)).
Proof.
  intros Hg Ht Hx Hy Hv. cbv zeta. unfold thresholdLoop.
  assert (Hinv : (fun k s => grayBuffer s = grayBuffer b
                   /\ length (targetData s) = 4 * w * h
                   /\ forall i u, i < k -> grayBuffer b !! i = Some u ->
                        texelAt (targetData s) i
                        = (let q := quantize u t in
                           let p := if inv then (255 - q)%Z else q in
                           (p, p, p, 255%Z)))
                 (h * w)
                 (forRange h (fun y => forRange w (fun x =>
                    thresholdStep w t inv x y)) b)).
  { apply (raster_ind (fun k s => grayBuffer s = grayBuffer b
                   /\ length (targetData s) = 4 * w * h
                   /\ forall i u, i < k -> grayBuffer b !! i = Some u ->
                        texelAt (targetData s) i
                        = (let q := quantize u t in
                           let p := if inv then (255 - q)%Z else q in
                           (p, p, p, 255%Z)))).
    - split_and!; [done|done|]. intros i u Hi. lia.
    - intros x' y' s Hx' Hy' (Hgs & Hts & Hprev). unfold thresholdStep.
      rewrite Hgs.
      assert (is_Some (grayBuffer b !! (y' * w + x'))) as [old Hold].
      { apply lookup_lt_is_Some. nia. }
      rewrite Hold. unfold emitPixel. cbn [grayBuffer targetData].
      split_and!; [done|by rewrite length_writePixel|].
      intros i u Hi Hu. destruct (decide (i = y' * w + x')) as [->|Hne].
      + rewrite Hold in Hu. inversion Hu; subst u.
        rewrite texelAt_writePixel by nia. cbv zeta.
        assert (is_byte (if inv then (255 - quantize old t)%Z else quantize old t)) as Hp.
        { destruct inv, (quantize_cases old t) as [-> | ->]; unfold is_byte; lia. }
        by rewrite (clamp8_byte _ Hp).
      + rewrite texelAt_writePixel_ne by done. apply Hprev; [lia|done]. }
  destruct Hinv as (Hgb & _ & Hall). split; [done|].
  apply Hall; [nia|done].
Qed.

Lemma thresholdLoop_gray w h t inv b :
  grayBuffer (thresholdLoop w h t inv b) = grayBuffer b.
Proof.
  unfold thresholdLoop.
  apply (raster_ind (fun _ s => grayBuffer s = grayBuffer b)); [done|].
  intros x y s _ _ Hs. unfold thresholdStep.
  by destruct (grayBuffer s !! (y * w + x)).
Qed.

(** The luminance pass, cell by cell. *)
Lemma grayLoop_lookup n td g i :
  n <= length g -> i < n -> grayLoop n td g !! i = Some (luminance td i).
Proof.
  intros Hn Hi. unfold grayLoop.
  pose (P := fun (k : nat) (a : list float) =>
          length a = length g
          /\ forall j, j < k -> a !! j = Some (luminance td j)).
  assert (Hinv : P n (forRange n (fun i a => <[i := luminance td i]> a) g)).
  { apply (forRange_ind P); unfold P.
    - split; [done|]. intros j Hj. lia.
    - intros k a Hk [Hlen Ha]. split; [by rewrite length_insert|].
      intros j Hj. destruct (decide (j = k)) as [->|Hne].
      + apply list_lookup_insert_eq. lia.
      + rewrite list_lookup_insert_ne by done. apply Ha. lia. }
  destruct Hinv as [_ Ha]. by apply Ha.
Qed.

(** Error diffusion only reaches cells the scan has not visited yet. *)
Lemma addError_lookup_ne j' e g j :
  j <> j' -> addError j' e g !! j = g !! j.
Proof.
  intros Hne. unfold addError. destruct (g !! j'); [|done].
  by rewrite list_lookup_insert_ne by done.
Qed.

Lemma diffuse_lookup_le w h x y e g j :
  x < w -> j <= y * w + x -> diffuse w h x y e g !! j = g !! j.
Proof.
  intros Hx Hj. unfold diffuse.
  assert (Hrow : (y + 1) * w = y * w + w) by lia.
  repeat case_bool_decide;
    repeat (rewrite addError_lookup_ne by lia); done.
Qed.

(** The dithering loop, pixel by pixel: the preview value of a pixel is the
    quantization of the luminance cell as the loop found it, which the cell
    keeps to the end; the first cell is never touched. *)
Lemma ditherLoop_pixel w h t b :
  length (grayBuffer b) = w * h -> length (targetData b) = 4 * w * h ->
  let b' := ditherLoop w h t b in
  grayBuffer b' !! 0 = grayBuffer b !! 0
  /\ forall i, i < h * w ->
       exists v, grayBuffer b' !! i = Some v
         /\ texelAt (targetData b') i
            = (quantize v t, quantize v t, quantize v t, 255%Z).
Proof.
  intros Hg Ht. cbv zeta. unfold ditherLoop.
  pose (P := fun (k : nat) (s : Buffers) =>
          length (grayBuffer s) = w * h /\ length (targetData s) = 4 * w * h
          /\ grayBuffer s !! 0 = grayBuffer b !! 0
          /\ forall i, i < k ->
               exists v, grayBuffer s !! i = Some v
                 /\ texelAt (targetData s) i
                    = (quantize v t, quantize v t, quantize v t, 255%Z)).
  assert (Hinv : P (h * w)
            (forRange h (fun y => forRange w (fun x =>
               ditherStep w h t x y)) b)).
  { apply (raster_ind P); unfold P.
    - split_and!; try done. intros i Hi. lia.
    - intros x y s Hx Hy (Hgs & Hts & H0 & Hprev). unfold ditherStep.
      assert (is_Some (grayBuffer s !! (y * w + x))) as [old Hold].
      { apply lookup_lt_is_Some. nia. }
      rewrite Hold. unfold emitPixel. cbn [grayBuffer targetData].
      rewrite length_diffuse, length_writePixel. split_and!; try done.
      + rewrite diffuse_lookup_le by (done || lia). done.
      + intros i Hi. rewrite diffuse_lookup_le by (done || lia).
        destruct (decide (i = y * w + x)) as [->|Hne].
        * exists old. split; [done|]. rewrite texelAt_writePixel by nia.
          assert (is_byte (quantize old t)) as Hq
            by (destruct (quantize_cases old t) as [-> | ->]; unfold is_byte; lia).
          rewrite (clamp8_byte _ Hq).
          by rewrite (clamp8_byte 255) by (unfold is_byte; lia).
        * rewrite texelAt_writePixel_ne by done. apply Hprev. lia. }
  destruct Hinv as (_ & _ & H0 & Hall). done.
Qed.

(** C9.  With dithering, a requested invert replaces every luminance cell
    [v] by [255 - v] (a store into the Float32Array, hence rounded to
    binary32) before the dithering loop runs, and the loop itself is the
    same loop as without invert.  Nothing is inverted afterwards: the
    preview value of a pixel is the quantization of the luminance cell as
    the loop found it (a value the cell keeps to the end), so the pixel is
    lit, and its bit set when its byte lies in the buffer, exactly when that
    value is not below the threshold; for the first pixel the value is
    [255 - gray] with invert and [gray] without.  Without dithering the
    luminance buffer is left as computed, and invert flips the thresholded
    value instead: with invert the preview value of a pixel exceeds 128
    exactly when its luminance is below the threshold, without invert
    exactly when it is not; the packed bit of a pixel whose byte lies in the
    buffer follows the preview value. *)
Theorem invert_asymmetry src o :
  let n := width o * height o in
  let td := resample src o in
  let gray := grayLoop n td (replicate n 0%float) in
  let ssd := replicate (n / 8) 0%Z in
  (dither o = true ->
     (forall i, i < n ->
        gray !! i = Some (luminance td i)
        /\ invertGray n gray !! i = Some (fround (255 - luminance td i)%float))
     /\ (invert o = true ->
         processFrame src o =
         result o (ditherLoop (width o) (height o) (threshold o)
                     (mkBuffers (invertGray n gray) td ssd)))
     /\ (invert o = false ->
         processFrame src o =
         result o (ditherLoop (width o) (height o) (threshold o)
                     (mkBuffers gray td ssd)))
     /\ (let b := quantizeAndPack o td in
         let g0 := if invert o then invertGray n gray else gray in
         processFrame src o = result o b
         /\ grayBuffer b !! 0 = g0 !! 0
         /\ forall x y, x < width o -> y < height o ->
              exists v,
                grayBuffer b !! (y * width o + x) = Some v
                /\ texelAt (targetData b) (y * width o + x)
                   = (quantize v (threshold o), quantize v (threshold o),
                      quantize v (threshold o), 255%Z)
                /\ (lit (targetData b) (y * width o + x)
                    <-> PrimFloat.ltb v (threshold o) = false)
                /\ (byteIndex (width o) x y < length (ssd1306Buffer b) ->
                    (Z.testbit (ssd1306Buffer b !!! byteIndex (width o) x y)
                               (Z.of_nat (y mod 8)) = true
                     <-> PrimFloat.ltb v (threshold o) = false))))
  /\ (dither o = false ->
      let b := quantizeAndPack o td in
      processFrame src o = result o b
      /\ grayBuffer b = gray
      /\ forall x y, x < width o -> y < height o ->
           let below := PrimFloat.ltb (luminance td (y * width o + x)) (threshold o) in
           gray !! (y * width o + x) = Some (luminance td (y * width o + x))
           /\ (invert o = true ->
               (lit (targetData b) (y * width o + x) <-> below = true))
           /\ (invert o = false ->
               (lit (targetData b) (y * width o + x) <-> below = false))
           /\ (byteIndex (width o) x y < length (ssd1306Buffer b) ->
               (Z.testbit (ssd1306Buffer b !!! byteIndex (width o) x y)
                          (Z.of_nat (y mod 8)) = true
                <-> lit (targetData b) (y * width o + x)))).
Proof.
  cbv zeta. split.
  - intros Hd. split; [|split; [|split]].
    + intros i Hi.
      assert (Hg : grayLoop (width o * height o) (resample src o)
                     (replicate (width o * height o) 0%float) !! i
                   = Some (luminance (resample src o) i)).
      { apply grayLoop_lookup; [by rewrite length_replicate|done]. }
      split; [done|].
      rewrite invertGray_lookup
        by (by rewrite length_grayLoop, length_replicate).
      rewrite bool_decide_eq_true_2 by done. by rewrite Hg.
    + intros Hi. unfold processFrame, quantizeAndPack. by rewrite Hd, Hi.
    + intros Hi. unfold processFrame, quantizeAndPack. by rewrite Hd, Hi.
    + split; [done|].
      set (g0 := if invert o
                 then invertGray (width o * height o)
                        (grayLoop (width o * height o) (resample src o)
                           (replicate (width o * height o) 0%float))
                 else grayLoop (width o * height o) (resample src o)
                        (replicate (width o * height o) 0%float)).
      assert (Hq : quantizeAndPack o (resample src o)
                   = ditherLoop (width o) (height o) (threshold o)
                       (mkBuffers g0 (resample src o)
                          (replicate (width o * height o / 8) 0%Z))).
      { unfold quantizeAndPack, g0. rewrite Hd. by destruct (invert o). }
      assert (Hlg : length g0 = width o * height o).
      { unfold g0. destruct (invert o);
          rewrite ?length_invertGray, length_grayLoop, length_replicate; done. }
      destruct (ditherLoop_pixel (width o) (height o) (threshold o)
                  (mkBuffers g0 (resample src o)
                     (replicate (width o * height o / 8) 0%Z))
                  Hlg (length_resample src o)) as [H0 Hall].
      rewrite <- Hq in H0, Hall. split; [exact H0|].
      intros x y Hx Hy.
      destruct (Hall (y * width o + x) ltac:(nia)) as (v & Hv & Hpx).
      exists v.
      assert (Hlit : lit (targetData (quantizeAndPack o (resample src o)))
                       (y * width o + x)
                     <-> PrimFloat.ltb v (threshold o) = false).
      { unfold lit. unfold texelAt in Hpx.
        apply (f_equal (fun t => fst (fst (fst t)))) in Hpx. simpl in Hpx.
        rewrite Hpx. unfold quantize.
        destruct (PrimFloat.ltb v (threshold o)); split; (done || lia). }
      split_and!; [done|done|done|].
      intros Hj.
      destruct (packed_bits o (resample src o) ltac:(lia) (length_resample src o))
        as [_ Hpix].
      rewrite <- Hlit. by apply Hpix.
  - intros Hd. split; [done|].
    assert (Hq : quantizeAndPack o (resample src o)
                 = thresholdLoop (width o) (height o) (threshold o) (invert o)
                     (mkBuffers
                        (grayLoop (width o * height o) (resample src o)
                           (replicate (width o * height o) 0%float))
                        (resample src o)
                        (replicate (width o * height o / 8) 0%Z))).
    { unfold quantizeAndPack. by rewrite Hd. }
    assert (Hlg : length (grayLoop (width o * height o) (resample src o)
                     (replicate (width o * height o) 0%float))
                  = width o * height o).
    { by rewrite length_grayLoop, length_replicate. }
    split; [by rewrite Hq, thresholdLoop_gray|].
    + intros x y Hx Hy.
      assert (Hg : grayLoop (width o * height o) (resample src o)
                     (replicate (width o * height o) 0%float) !! (y * width o + x)
                   = Some (luminance (resample src o) (y * width o + x))).
      { apply grayLoop_lookup; [by rewrite length_replicate|nia]. }
      split; [done|].
      destruct (thresholdLoop_pixel (width o) (height o) (threshold o)
                  (invert o)
                  (mkBuffers
                     (grayLoop (width o * height o) (resample src o)
                        (replicate (width o * height o) 0%float))
                     (resample src o)
                     (replicate (width o * height o / 8) 0%Z))
                  x y _ Hlg (length_resample src o) Hx Hy Hg)
        as [_ Hpx].
      rewrite <- Hq in Hpx.
      assert (Hlit : lit (targetData (quantizeAndPack o (resample src o)))
                       (y * width o + x)
                     <-> (128 < (if invert o
                                 then 255 - quantize (luminance (resample src o)
                                                        (y * width o + x)) (threshold o)
                                 else quantize (luminance (resample src o)
                                                  (y * width o + x)) (threshold o)))%Z).
      { unfold lit. unfold texelAt in Hpx. cbv zeta in Hpx.
        apply (f_equal (fun t => fst (fst (fst t)))) in Hpx. simpl in Hpx.
        by rewrite Hpx. }
      split; [|split].
      * intros Hi. rewrite Hlit, Hi. unfold quantize.
        destruct (PrimFloat.ltb _ _); split; (done || lia).
      * intros Hi. rewrite Hlit, Hi. unfold quantize.
        destruct (PrimFloat.ltb _ _); split; (done || lia).
      * intros Hj.
        destruct (packed_bits o (resample src o) ltac:(lia) (length_resample src o))
          as [_ Hpix].
        by apply Hpix.
Qed.

(** On a white pixel, with dithering and invert: the luminance cell of the
    first pixel holds [255 - 255 = 0] when the loop reaches it, and the
    preview shows its quantization, black. *)
Lemma invert_asymmetry_witness :
  let o := mkOptions 2 8 128%float true true stretch in
  let b := quantizeAndPack o (resample (onePixel 1 1 0 0) o) in
  grayBuffer b !! 0
  = invertGray (2 * 8)
      (grayLoop (2 * 8) (resample (onePixel 1 1 0 0) o)
         (replicate (2 * 8) 0%float)) !! 0
  /\ exists v,
       grayBuffer b !! (0 * 2 + 0) = Some v
       /\ texelAt (targetData b) (0 * 2 + 0)
          = (quantize v 128, quantize v 128, quantize v 128, 255%Z)
       /\ (lit (targetData b) (0 * 2 + 0) <-> PrimFloat.ltb v 128 = false).
Proof.
  cbv zeta.
  destruct (invert_asymmetry (onePixel 1 1 0 0)
              (mkOptions 2 8 128%float true true stretch)) as [Hdither _].
  destruct (Hdither eq_refl) as (_ & _ & _ & _ & H0 & Hpx).
  split; [exact H0|].
  destruct (Hpx 0 0 ltac:(simpl; lia) ltac:(simpl; lia))
    as (v & Hv & Ht & Hlit & _).
  exists v. split_and!; done.
Defined.
End FrameFacts.

(** * Facts about [processFrame] in the heap *)

Section StoreFacts.
Import Image Frame Store.

Lemma bytesAt_insert h l a : bytesAt (<[l := Bytes a]> h) l = a.
Proof. unfold bytesAt. by rewrite lookup_insert_eq. Qed.

Lemma floatsAt_insert h l a : floatsAt (<[l := Floats a]> h) l = a.
Proof. unfold floatsAt. by rewrite lookup_insert_eq. Qed.

Lemma bytesAt_insert_ne h l l' v :
  l <> l' -> bytesAt (<[l := v]> h) l' = bytesAt h l'.
Proof. intros Hne. unfold bytesAt. by rewrite lookup_insert_ne. Qed.

Lemma floatsAt_insert_ne h l l' v :
  l <> l' -> floatsAt (<[l := v]> h) l' = floatsAt h l'.
Proof. intros Hne. unfold floatsAt. by rewrite lookup_insert_ne. Qed.

(** Running the statements one by one. *)
Lemma run_new {B} v (k : nat -> M B) h :
  (new v ≫= k) h = k (fresh (dom h)) (<[fresh (dom h) := v]> h).
Proof. reflexivity. Qed.

Lemma run_readBytes {B} l (k : list Z -> M B) h :
  (readBytes l ≫= k) h = k (bytesAt h l) h.
Proof. reflexivity. Qed.

Lemma run_readFloats {B} l (k : list float -> M B) h :
  (readFloats l ≫= k) h = k (floatsAt h l) h.
Proof. reflexivity. Qed.

Lemma run_write {B} l v (k : unit -> M B) h :
  (write l v ≫= k) h = k tt (<[l := v]> h).
Proof. reflexivity. Qed.

Lemma run_ret {A B} (a : A) (k : A -> M B) h : (mret a ≫= k) h = k a h.
Proof. reflexivity. Qed.

Lemma run_assoc {A B C} (m : M A) (f : A -> M B) (g : B -> M C) h :
  ((m ≫= f) ≫= g) h = (m ≫= (fun a => f a ≫= g)) h.
Proof.
  unfold mbind, M_bind, bind. by destruct (m h) as [a h'].
Qed.

Lemma run_loadBuffers {B} g t s (k : Buffers -> M B) h :
  (loadBuffers g t s ≫= k) h
  = k (mkBuffers (floatsAt h g) (bytesAt h t) (bytesAt h s)) h.
Proof. reflexivity. Qed.

Lemma run_storeBuffers {B} g t s b (k : unit -> M B) h :
  (storeBuffers g t s b ≫= k) h
  = k tt (<[s := Bytes (ssd1306Buffer b)]>
            (<[t := Bytes (targetData b)]>
               (<[g := Floats (grayBuffer b)]> h))).
Proof. reflexivity. Qed.

(** The heap run against the run on values: the heap version changes no
    array that was in use before the call, returns arrays that were not,
    and leaves in them what [Frame.processFrame] computes from the input
    image; it throws exactly when [Frame.processFrame] does. *)
Lemma processFrame_heap frame o h res h' :
  (refData frame ∈ dom h) ->
  Store.processFrame frame o h = (res, h') ->
  (forall l, (l ∈ dom h) -> h' !! l = h !! l)
  /\ (res = None <-> Frame.processFrame (imageOf h frame) o = None)
  /\ (forall r, res = Some r ->
       (refPixels r ∉ dom h) /\ (refData (refPreview r) ∉ dom h)
       /\ refPixels r <> refData (refPreview r)
       /\ Frame.processFrame (imageOf h frame) o
          = Some (mkProcessed (bytesAt h' (refPixels r))
                    (imageOf h' (refPreview r)))).
Proof.
  intros Hin. unfold Store.processFrame. lazy zeta.
  set (n := width o * height o).
  (* targetData *)
  rewrite run_new.
  pose proof (is_fresh (dom h)) as Ht.
  set (t := fresh (dom h)) in *. clearbody t.
  assert (Hts : t <> refData frame) by (intros ->; done).
  rewrite run_readBytes, run_readBytes.
  rewrite bytesAt_insert, bytesAt_insert_ne by done.
  rewrite run_write, insert_insert_eq.
  set (td0 := sampleLoop _ _ _ _ _).
  set (h2 := <[t := Bytes td0]> h).
  assert (Hd2 : dom h2 = {[t]} ∪ dom h) by (subst h2; by rewrite dom_insert_L).
  (* monoPixels, ssd1306Buffer, grayBuffer *)
  rewrite run_new.
  pose proof (is_fresh (dom h2)) as Hmono.
  set (mono := fresh (dom h2)) in *. clearbody mono.
  set (h3 := <[mono := _]> h2).
  assert (Hd3 : dom h3 = {[mono]} ∪ dom h2) by (subst h3; by rewrite dom_insert_L).
  rewrite run_new.
  pose proof (is_fresh (dom h3)) as Hssd.
  set (ssd := fresh (dom h3)) in *. clearbody ssd.
  set (h4 := <[ssd := _]> h3).
  assert (Hd4 : dom h4 = {[ssd]} ∪ dom h3) by (subst h4; by rewrite dom_insert_L).
  rewrite run_new.
  pose proof (is_fresh (dom h4)) as Hg.
  set (g := fresh (dom h4)) in *. clearbody g.
  rewrite Hd4, Hd3, Hd2 in Hg. rewrite Hd3, Hd2 in Hssd. rewrite Hd2 in Hmono.
  apply not_elem_of_union in Hmono as [Hn1 Hm].
  apply not_elem_of_singleton in Hn1.
  apply not_elem_of_union in Hssd as [Hn3 Hssd].
  apply not_elem_of_singleton in Hn3.
  apply not_elem_of_union in Hssd as [Hn2 Hs].
  apply not_elem_of_singleton in Hn2.
  apply not_elem_of_union in Hg as [Hn6 Hg].
  apply not_elem_of_singleton in Hn6.
  apply not_elem_of_union in Hg as [Hn5 Hg].
  apply not_elem_of_singleton in Hn5.
  apply not_elem_of_union in Hg as [Hn4 Hgg].
  apply not_elem_of_singleton in Hn4.
  (* luminance *)
  rewrite run_readBytes, run_readFloats.
  rewrite floatsAt_insert.
  assert (Htd : bytesAt (<[g := Floats (replicate n 0%float)]> h4) t = td0).
  { subst h4 h3 h2. rewrite !bytesAt_insert_ne by done. apply bytesAt_insert. }
  rewrite Htd, run_write, insert_insert_eq.
  set (gray := grayLoop n td0 (replicate n 0%float)).
  set (h6 := <[g := Floats gray]> h4).
  assert (floatsAt h6 g = gray /\ bytesAt h6 t = td0
          /\ bytesAt h6 ssd = replicate (n / 8) 0%Z) as (Hr6g & Hr6t & Hr6s).
  { subst h6 h4 h3 h2. split_and!.
    - apply floatsAt_insert.
    - rewrite !bytesAt_insert_ne by done. apply bytesAt_insert.
    - rewrite bytesAt_insert_ne by done. apply bytesAt_insert. }
  (* quantizing and packing *)
  set (b := quantizeAndPack o td0).
  assert (Hbranch : forall B (k : unit -> M B),
    ((if dither o then
        (if invert o then
           g1 ← readFloats g; write g (Floats (invertGray n g1))
         else mret tt);;
        b ← loadBuffers g t ssd;
        storeBuffers g t ssd (ditherLoop (width o) (height o) (threshold o) b)
      else
        b ← loadBuffers g t ssd;
        storeBuffers g t ssd
          (thresholdLoop (width o) (height o) (threshold o) (invert o) b))
     ≫= k) h6
    = k tt (<[ssd := Bytes (ssd1306Buffer b)]>
              (<[t := Bytes (targetData b)]>
                 (<[g := Floats (grayBuffer b)]> h6)))).
  { intros B k. subst b. unfold quantizeAndPack. fold n. fold gray.
    destruct (dither o).
    - destruct (invert o).
      + rewrite run_assoc, run_assoc, run_readFloats, run_write.
        rewrite run_assoc, run_loadBuffers.
        rewrite floatsAt_insert, !bytesAt_insert_ne by done.
        rewrite Hr6g, Hr6t, Hr6s, run_storeBuffers.
        by rewrite insert_insert_eq.
      + rewrite run_assoc, run_ret, run_assoc, run_loadBuffers.
        rewrite Hr6g, Hr6t, Hr6s, run_storeBuffers. done.
    - rewrite run_assoc, run_loadBuffers.
      rewrite Hr6g, Hr6t, Hr6s, run_storeBuffers. done. }
  rewrite Hbranch. clear Hbranch.
  set (hF := <[ssd := _]> _).
  assert (bytesAt hF ssd = ssd1306Buffer b /\ bytesAt hF t = targetData b)
    as [HFs HFt].
  { subst hF. split.
    - apply bytesAt_insert.
    - rewrite bytesAt_insert_ne by done. apply bytesAt_insert. }
  rewrite run_readBytes, HFt.
  (* the returned object *)
  intros Hret.
  assert (Hsrc : td0 = resample (imageOf h frame) o) by reflexivity.
  assert (Hpure : Frame.processFrame (imageOf h frame) o
                  = result o b).
  { unfold Frame.processFrame. by rewrite <- Hsrc. }
  unfold result, newImageData in Hpure.
  set (ok := bool_decide (0 < width o) && bool_decide (0 < height o)
             && bool_decide (length (targetData b) = 4 * width o * height o)) in *.
  clearbody ok.
  inversion Hret; subst res h'; clear Hret.
  split; [|split].
  - intros l Hl. subst hF h6 h4 h3 h2.
    rewrite !lookup_insert_ne; [done|intros ->; done..].
  - rewrite Hpure. destruct ok; simpl; split; done.
  - intros r Hr. rewrite Hpure. destruct ok; [|done].
    inversion Hr; subst r; clear Hr. cbn [refPixels refPreview refData].
    split_and!; try done.
    simpl. unfold imageOf. simpl. by rewrite HFs, HFt.
Qed.

(** C10.  A call of [processFrame] on an input image whose [data] array is
    in the heap: after the call every array that existed before, the input's
    bytes among them, holds what it held before; the returned packed buffer
    and the preview's array are two distinct arrays that did not exist
    before the call, so neither is the input's array; and the call returns
    whenever both target sides are positive. *)
Theorem processFrame_leaves_input frame o h :
  (refData frame ∈ dom h) ->
  let '(res, h') := Store.processFrame frame o h in
  h' !! refData frame = h !! refData frame
  /\ imageOf h' frame = imageOf h frame
  /\ (forall l, (l ∈ dom h) -> h' !! l = h !! l)
  /\ (0 < width o -> 0 < height o -> is_Some res)
  /\ (forall r, res = Some r ->
       (refPixels r ∉ dom h) /\ (refData (refPreview r) ∉ dom h)
       /\ refPixels r <> refData frame
       /\ refData (refPreview r) <> refData frame
       /\ refPixels r <> refData (refPreview r)
       /\ Frame.processFrame (imageOf h frame) o
          = Some (mkProcessed (bytesAt h' (refPixels r))
                    (imageOf h' (refPreview r)))).
Proof.
  intros Hin. destruct (Store.processFrame frame o h) as [res h'] eqn:Hrun.
  destruct (processFrame_heap frame o h res h' Hin Hrun) as (Hkeep & Hnone & Hfresh).
  split_and!.
  - by apply Hkeep.
  - unfold imageOf, bytesAt. by rewrite Hkeep.
  - exact Hkeep.
  - intros Hw Hh. destruct res as [r|]; [by eexists|].
    exfalso. pose proof (proj1 Hnone eq_refl) as Hp.
    by rewrite processFrame_Some in Hp.
  - intros r Hr. destruct (Hfresh r Hr) as (Hp & Hq & Hne & Hval).
    split_and!; try done.
    + intros E. apply Hp. by rewrite E.
    + intros E. apply Hq. by rewrite E.
Qed.

Lemma processFrame_leaves_input_witness :
  let '(res, h') := Store.processFrame frame1 (plainOptions 8 8 false) heap1 in
  h' !! 0 = Some (Bytes whitePx).
Proof.
  pose proof (processFrame_leaves_input frame1 (plainOptions 8 8 false) heap1) as H.
  destruct (Store.processFrame frame1 (plainOptions 8 8 false) heap1) as [res h'].
  destruct H as (H0 & _).
  - vm_compute. reflexivity.
  - exact H0.
Defined.
End StoreFacts.

(** * More about the run-length codec *)

Section RLEMore.
Import RLE.

Local Arguments scanRun : simpl never.
Local Arguments scanLiteral : simpl never.
Local Arguments compressLoop : simpl never.
Local Arguments unpackLoop : simpl never.

(** ** Size of the encoding *)

(** Three equal bytes at [j] make the measured run at least 3 long. *)
Lemma runOf3_long_run data j :
  runOf3At data j = true -> 3 <= scanRun 130 data j 1.
Proof.
  intros H3. destruct (decide (3 <= scanRun 130 data j 1)) as [|Hlt]; [done|].
  assert (j < length data) as Hj.
  { unfold runOf3At in H3. apply andb_true_iff in H3 as [H3 _].
    apply andb_true_iff in H3 as [H3 _]. apply bool_decide_eq_true in H3. lia. }
  rewrite short_run_no_runOf3 in H3 by (done || lia). done.
Qed.

(** The records produced from cursor [i] on, with exactly the fuel the
    rest of the input needs. *)
Lemma compressLoop_unfold data i :
  i < length data ->
  let r := scanRun 130 data i 1 in
  let l := scanLiteral 128 data i 0 in
  compressLoop (length data - i) data i [] =
    if bool_decide (3 <= r)
    then [(128 + (Z.of_nat r - 3))%Z; data !!! i]
           ++ compressLoop (length data - (i + r)) data (i + r) []
    else ((Z.of_nat l - 1)%Z :: take l (drop i data))
           ++ compressLoop (length data - (i + l)) data (i + l) [].
Proof.
  intros Hi. cbv zeta.
  replace (length data - i) with (S (length data - i - 1)) by lia.
  rewrite compressLoop_step by done.
  destruct (runLen_spec data i Hi) as (Hr1 & Hr2 & _).
  destruct (bool_decide (3 <= scanRun 130 data i 1)) eqn:Er.
  - f_equal. apply compressLoop_fuel; lia.
  - apply bool_decide_eq_false in Er.
    destruct (litLen_pos data i) as [Hl Hl']; [done|lia|].
    f_equal. apply compressLoop_fuel; lia.
Qed.

Lemma ceil128_mono a b : a <= b -> (a + 127) / 128 <= (b + 127) / 128.
Proof. intros. apply Nat.Div0.div_le_mono. lia. Qed.

Lemma ceil128_full m : 128 <= m -> (m - 128 + 127) / 128 + 1 = (m + 127) / 128.
Proof.
  intros Hm. replace (m + 127) with (m - 128 + 127 + 1 * 128) by lia.
  by rewrite Nat.div_add by lia.
Qed.

Lemma ceil128_pos m : 1 <= m -> 1 <= (m + 127) / 128.
Proof.
  intros Hm. replace (m + 127) with (m - 1 + 1 * 128) by lia.
  rewrite Nat.div_add by lia. lia.
Qed.

Lemma length_compressLoop_tight data m : forall i,
  length data - i = m -> i <= length data ->
  length (compressLoop (length data - i) data i []) <= m + (m + 127) / 128.
Proof.
  induction m as [m IH] using lt_wf_ind. intros i Hm Hi.
  destruct (decide (i < length data)) as [Hlt|Hge].
  2:{ rewrite compressLoop_done by lia. simpl. lia. }
  rewrite compressLoop_unfold by done.
  destruct (runLen_spec data i Hlt) as (Hr1 & Hr2 & _).
  destruct (bool_decide (3 <= scanRun 130 data i 1)) eqn:Er.
  - apply bool_decide_eq_true in Er. rewrite length_app. cbn [length].
    pose proof (IH (length data - (i + scanRun 130 data i 1)) ltac:(lia)
                  (i + scanRun 130 data i 1) eq_refl Hr2) as Hrest.
    pose proof (ceil128_mono (length data - (i + scanRun 130 data i 1)) m ltac:(lia)).
    lia.
  - apply bool_decide_eq_false in Er.
    destruct (litLen_pos data i) as [Hl Hl']; [done|lia|].
    destruct (scanLiteral_spec 128 data i 0) as (_ & _ & _ & Hend); try lia.
    set (l := scanLiteral 128 data i 0) in *.
    rewrite length_app. cbn [length]. rewrite length_take, length_drop.
    destruct (decide (i + l < length data /\ l < 128)) as [[Hmore Hshort]|Hlast].
    + (* the literal stopped in front of a run *)
      assert (runOf3At data (i + l) = true) as H3
        by (destruct Hend as [?|[?|?]]; [lia..|done]).
      apply runOf3_long_run in H3.
      rewrite compressLoop_unfold by done.
      rewrite bool_decide_eq_true_2 by done. rewrite length_app. cbn [length].
      destruct (runLen_spec data (i + l) Hmore) as (_ & Hr2' & _).
      pose proof (IH (length data - (i + l + scanRun 130 data (i + l) 1)) ltac:(lia)
                    (i + l + scanRun 130 data (i + l) 1) eq_refl Hr2') as Hrest.
      pose proof (ceil128_mono
                    (length data - (i + l + scanRun 130 data (i + l) 1)) m ltac:(lia)).
      lia.
    + pose proof (IH (length data - (i + l)) ltac:(lia) (i + l) eq_refl Hl') as Hrest.
      destruct (decide (l = 128)) as [Hfull|Hpart].
      * pose proof (ceil128_full m ltac:(lia)).
        assert ((length data - (i + l) + 127) / 128 = (m - 128 + 127) / 128)
          by (f_equal; lia).
        lia.
      * assert (i + l = length data) by lia.
        rewrite compressLoop_done in Hrest |- * by lia.
        pose proof (ceil128_pos m ltac:(lia)). cbn [length]. lia.
Qed.

(** X1.  The encoding never grows by more than one byte per 128 input bytes
    (rounded up): a literal record carries up to 128 bytes behind its
    header, and a shorter literal is always followed by a repeat record,
    which saves the byte the header cost. *)
Theorem compressRLE_expansion data :
  length (compressRLE data) <= length data + Frame.ceilDiv (length data) 128.
Proof.
  unfold compressRLE, Frame.ceilDiv. rewrite length_fmap.
  pose proof (length_compressLoop_tight data (length data) 0) as H.
  rewrite Nat.sub_0_r in H. change (128 - 1) with 127.
  apply H; lia.
Qed.

(** ** Frames of one colour *)

Lemma length_compressLoop_constant data b m : forall i,
  (forall j, j < length data -> data !! j = Some b) ->
  length data - i = m -> i <= length data ->
  length (compressLoop (length data - i) data i []) <= 2 * (m / 130) + 3.
Proof.
  induction m as [m IH] using lt_wf_ind. intros i Hconst Hm Hi.
  destruct (decide (i < length data)) as [Hlt|Hge].
  2:{ rewrite compressLoop_done by lia. simpl. lia. }
  destruct (decide (m < 3)) as [Hsmall|Hbig].
  { pose proof (length_compressLoop_tight data m i Hm Hi) as H.
    assert ((m + 127) / 128 < 2); [|lia].
    apply Nat.Div0.div_lt_upper_bound. lia. }
  rewrite compressLoop_unfold by done.
  destruct (runLen_spec data i Hlt) as (Hr1 & Hr2 & _ & Hmax).
  set (r := scanRun 130 data i 1) in *.
  assert (Hr : r = 130 \/ i + r = length data).
  { destruct Hmax as [?|[?|Hne]]; [by left|by right|].
    destruct (decide (i + r < length data)); [|right; lia].
    exfalso. apply Hne. by rewrite !Hconst by lia. }
  rewrite bool_decide_eq_true_2 by lia. rewrite length_app. cbn [length].
  destruct (decide (i + r = length data)) as [Hend|Hmore].
  - rewrite compressLoop_done by lia. cbn [length]. lia.
  - assert (r = 130) as Hr130 by lia.
    pose proof (IH (length data - (i + r)) ltac:(lia) (i + r) Hconst eq_refl Hr2)
      as Hrest.
    assert (m / 130 = (length data - (i + r)) / 130 + 1) as Hdiv.
    { replace m with (length data - (i + r) + 1 * 130) by lia.
      by rewrite Nat.div_add by lia. }
    lia.
Qed.

(** X2.  A frame of one colour, all bytes equal, is encoded in two bytes per
    started run of 130 and at most three bytes for what is left: a blank
    1024-byte frame takes at most 17 bytes. *)
Theorem compressRLE_constant_frame n b :
  length (compressRLE (replicate n b)) <= 2 * (n / 130) + 3.
Proof.
  unfold compressRLE. rewrite length_fmap.
  pose proof (length_compressLoop_constant (replicate n b) b
                (length (replicate n b)) 0) as H.
  rewrite Nat.sub_0_r, length_replicate in H. rewrite length_replicate.
  apply H; [|done|lia].
  intros j Hj. by apply lookup_replicate_2.
Qed.

(** ** Decoding into a shorter buffer, and bytes after the last record *)

(** Writing the next input bytes after a correct prefix, in a buffer of any
    length that holds them. *)
Lemma take_inserts_prefix_gen (data buf bs : list Z) i :
  i + length bs <= length buf ->
  take i buf = take i data -> bs = take (length bs) (drop i data) ->
  i + length bs <= length data ->
  take (i + length bs) (list_inserts i bs buf) = take (i + length bs) data.
Proof.
  intros Hlen Hpre Hbs Hdata. apply list_eq; intros j.
  destruct (decide (j < i + length bs)) as [Hj|Hj].
  2:{ by rewrite !lookup_take_ge by lia. }
  rewrite !lookup_take_lt by lia.
  destruct (decide (j < i)) as [Hlt|Hge].
  - rewrite list_lookup_inserts_lt by done.
    apply (f_equal (fun l => l !! j)) in Hpre.
    by rewrite !lookup_take_lt in Hpre by done.
  - rewrite list_lookup_inserts by lia.
    rewrite Hbs, lookup_take_lt, lookup_drop by lia. f_equal. lia.
Qed.

Section Prefix.
Variable wrap16 : nat -> nat.
Variable M : nat.
Hypothesis wrap16_small : forall k, k <= M -> wrap16 k = k.

(** A run record writes as many copies as still fit. *)
Lemma fillRun_fits count v bufferLen c :
  bufIdx c <= bufferLen -> bufferLen <= M ->
  let k := Nat.min count (bufferLen - bufIdx c) in
  fillRun wrap16 count v bufferLen c =
    Cursor (valIdx c) (bufIdx c + k)
           (list_inserts (bufIdx c) (replicate k v) (buffer c)).
Proof.
  revert c. induction count as [|count IH]; intros [vi bi buf] Hc HM;
    cbn [bufIdx valIdx buffer] in *; cbv zeta.
  - simpl. by rewrite Nat.add_0_r.
  - cbn [fillRun bufIdx valIdx buffer].
    destruct (decide (bi < bufferLen)) as [Hlt|Hge].
    + rewrite bool_decide_eq_true_2 by done.
      rewrite wrap16_small by lia. rewrite IH by (cbn [bufIdx]; lia).
      cbn [bufIdx valIdx buffer].
      replace (Nat.min (S count) (bufferLen - bi))
        with (S (Nat.min count (bufferLen - S bi))) by lia.
      cbn [replicate list_inserts]. f_equal; [lia|].
      by rewrite list_insert_inserts_lt by lia.
    + rewrite bool_decide_eq_false_2 by done.
      rewrite IH by (cbn [bufIdx]; lia). cbn [bufIdx valIdx buffer].
      replace (Nat.min count (bufferLen - bi)) with 0 by lia.
      replace (Nat.min (S count) (bufferLen - bi)) with 0 by lia. done.
Qed.

(** A literal record copies, and reads, as many bytes as still fit. *)
Lemma copyLiteral_fits count val bufferLen c :
  bufIdx c <= bufferLen -> bufferLen <= M ->
  let k := Nat.min count (bufferLen - bufIdx c) in
  valIdx c + k <= length val -> length val <= M ->
  copyLiteral wrap16 count val bufferLen c =
    Some (Cursor (valIdx c + k) (bufIdx c + k)
            (list_inserts (bufIdx c) (take k (drop (valIdx c) val)) (buffer c))).
Proof.
  revert c. induction count as [|count IH]; intros [vi bi buf] Hc HM;
    cbn [bufIdx valIdx buffer] in *; cbv zeta; intros Hv HvM.
  - simpl. by rewrite !Nat.add_0_r.
  - cbn [copyLiteral bufIdx valIdx buffer].
    destruct (decide (bi < bufferLen)) as [Hlt|Hge].
    + rewrite bool_decide_eq_true_2 by done.
      replace (Nat.min (S count) (bufferLen - bi))
        with (S (Nat.min count (bufferLen - S bi))) in * by lia.
      assert (is_Some (val !! vi)) as [b Hb] by (apply lookup_lt_is_Some; lia).
      rewrite Hb. cbn [mbind option_bind]. rewrite !wrap16_small by lia.
      rewrite IH by (cbn [bufIdx valIdx]; lia). cbn [bufIdx valIdx buffer].
      f_equal. f_equal; [lia..|].
      rewrite (drop_S _ b _ Hb). cbn [take list_inserts].
      by rewrite list_insert_inserts_lt by lia.
    + rewrite bool_decide_eq_false_2 by done.
      replace (Nat.min (S count) (bufferLen - bi)) with 0 in * by lia.
      rewrite IH by (cbn [bufIdx valIdx]; lia). cbn [bufIdx valIdx buffer].
      replace (Nat.min count (bufferLen - bi)) with 0 by lia. done.
Qed.

(** The decoder with declared length [k], started at a record boundary of
    the stream with the first [min i k] bytes of [data] in place, ends with
    the first [k] bytes of [data] in the buffer, whatever follows the last
    record. *)
Lemma unpackLoop_prefix data k junk fuel : forall i val c,
  Forall is_byte data -> k <= length data -> k <= M -> length val <= M ->
  k - Nat.min i k < fuel -> i <= length data ->
  bufIdx c = Nat.min i k -> length (buffer c) = k ->
  take (Nat.min i k) (buffer c) = take (Nat.min i k) data ->
  (i < k ->
   drop (valIdx c) val
   = (to_uint8 <$> compressLoop (length data - i) data i []) ++ junk) ->
  exists v, unpackLoop wrap16 fuel val k c = Some (Cursor v k (take k data)).
Proof.
  induction fuel as [|fuel IH];
    intros i val c Hbytes Hk HM HvM Hf Hi Hb Hlen Hpre Hdrop; [lia|].
  destruct c as [vi bi buf]. cbn [bufIdx valIdx buffer] in *. subst bi.
  rewrite unpackLoop_S. cbn [bufIdx valIdx buffer].
  destruct (decide (i < k)) as [Hlt|Hge].
  2:{ rewrite bool_decide_eq_false_2 by lia. exists vi.
      replace (Nat.min i k) with k in * by lia.
      rewrite <- Hlen in Hpre at 1. rewrite take_ge in Hpre by lia.
      by rewrite Hpre. }
  replace (Nat.min i k) with i in * by lia.
  rewrite bool_decide_eq_true_2 by done.
  specialize (Hdrop Hlt). rewrite compressLoop_unfold in Hdrop by lia.
  assert (Hilt : i < length data) by lia.
  destruct (runLen_spec data i Hilt) as (Hr1 & Hr2 & Hr3 & _).
  set (r := scanRun 130 data i 1) in *.
  assert (is_byte (data !!! i)) as Hbi.
  { eapply Forall_lookup_1; [exact Hbytes|]. by apply list_lookup_lookup_total_lt. }
  destruct (bool_decide (3 <= r)) eqn:Er.
  - (* repeat record *)
    apply bool_decide_eq_true in Er.
    rewrite fmap_app, <- app_assoc in Hdrop. cbn [fmap list_fmap app] in Hdrop.
    apply drop_cons_inv in Hdrop as (Hh & Hdrop & Hvi).
    apply drop_cons_inv in Hdrop as (Hv & Hdrop & Hvi').
    rewrite Hh. cbn [mbind option_bind].
    rewrite (to_uint8_byte (128 + _)) by (unfold is_byte; lia).
    rewrite bool_decide_eq_false_2 by lia.
    rewrite (wrap16_small (S vi)) by lia.
    rewrite (wrap16_small (S (S vi))) by lia. rewrite Hv. cbn [mbind option_bind].
    rewrite to_uint8_byte by (unfold is_byte; lia).
    replace (Z.to_nat (128 + (Z.of_nat r - 3) - 128 + 3)) with r by lia.
    rewrite fillRun_fits by (cbn [bufIdx]; lia). cbn [bufIdx valIdx buffer].
    rewrite (to_uint8_byte _ Hbi).
    set (w := Nat.min r (k - i)).
    assert (Hw : i + w = Nat.min (i + r) k) by lia.
    apply (IH (i + r)); cbn [bufIdx valIdx buffer]; auto; try lia.
    + by rewrite length_inserts.
    + rewrite <- Hw.
      assert (Hrep : replicate w (data !!! i) = take w (drop i data)).
      { apply run_is_replicate; [lia|lia|]. intros j Hj. apply Hr3. lia. }
      rewrite <- (length_replicate w (data !!! i)) at 1 3.
      apply take_inserts_prefix_gen; rewrite ?length_replicate; auto; lia.
  - (* literal record *)
    apply bool_decide_eq_false in Er.
    destruct (litLen_pos data i) as [Hl Hl']; [done|lia|].
    set (l := scanLiteral 128 data i 0) in *.
    rewrite fmap_app, <- app_assoc, fmap_cons in Hdrop.
    rewrite <- app_comm_cons in Hdrop.
    apply drop_cons_inv in Hdrop as (Hh & Hdrop & Hvi).
    rewrite Hh. cbn [mbind option_bind].
    rewrite (to_uint8_byte (Z.of_nat l - 1)) by (unfold is_byte; lia).
    rewrite bool_decide_eq_true_2 by lia.
    rewrite to_uint8_byte by (unfold is_byte; lia).
    replace (Z.to_nat (Z.of_nat l - 1 + 1)) with l by lia.
    assert (Hbs : Forall is_byte (take l (drop i data))).
    { by apply Forall_take, Forall_drop. }
    rewrite (fmap_to_uint8_bytes _ Hbs) in Hdrop.
    assert (Hll : length (take l (drop i data)) = l).
    { rewrite length_take, length_drop. lia. }
    assert (S vi + l <= length val) as Hvl.
    { apply (f_equal length) in Hdrop.
      rewrite length_drop, !length_app, Hll in Hdrop. lia. }
    rewrite wrap16_small by lia.
    set (w := Nat.min l (k - i)).
    rewrite copyLiteral_fits by (cbn [bufIdx valIdx]; lia).
    cbn [bufIdx valIdx buffer mbind option_bind]. fold w.
    assert (Hw : i + w = Nat.min (i + l) k) by lia.
    assert (Htk : take w (drop (S vi) val) = take w (drop i data)).
    { rewrite Hdrop. rewrite take_app_le by lia.
      rewrite take_take. f_equal. lia. }
    rewrite Htk.
    assert (Hlw : length (take w (drop i data)) = w).
    { rewrite length_take, length_drop. lia. }
    apply (IH (i + l)); cbn [bufIdx valIdx buffer]; auto; try lia.
    + by rewrite length_inserts.
    + rewrite <- Hw. rewrite <- Hlw at 1 3.
      apply take_inserts_prefix_gen; rewrite ?Hlw; auto; lia.
    + intros Hmore. replace w with l by lia.
      replace (S vi + l) with (S vi + length (take l (drop i data))) by lia.
      rewrite <- drop_drop, Hdrop. by rewrite drop_app_length.
Qed.

(** Decoding with a declared length [k] up to the frame length gives the
    first [k] bytes of the frame; bytes after the last record are never
    looked at. *)
Lemma unpack_prefix data k junk :
  Forall is_byte data -> k <= length data -> k <= M ->
  length (compressRLE data ++ junk) <= M ->
  unpack wrap16 (compressRLE data ++ junk) k = Some (take k data).
Proof.
  intros Hbytes Hk HM HvM. unfold unpack. rewrite wrap16_small by done.
  destruct (unpackLoop_prefix data k junk (S k) 0 (compressRLE data ++ junk)
              (Cursor 0 0 (replicate k 0%Z))) as [v Hv];
    cbn [bufIdx valIdx buffer]; auto; try lia.
  - by rewrite length_replicate.
  - intros _. by rewrite Nat.sub_0_r.
  - by rewrite Hv.
Qed.
End Prefix.

(** X3.  The decoder stops at the declared length: asked for the first [k] bytes
    of a frame it returns exactly those, and whatever bytes follow the
    encoder's last record in the stream make no difference. *)
Theorem decode_prefix data k junk :
  Forall is_byte data -> k <= length data ->
  decode (compressRLE data ++ junk) k = Some (take k data).
Proof.
  intros Hbytes Hk. unfold decode.
  apply (unpack_prefix id (Nat.max k (length (compressRLE data ++ junk))));
    [done|done|done|lia..].
Qed.

Lemma decode_prefix_witness :
  decode (compressRLE [5;5;5;5;5;9;9;1;2;3]%Z ++ [7; 7]%Z) 7
  = Some [5;5;5;5;5;9;9]%Z.
Proof.
  apply (decode_prefix [5;5;5;5;5;9;9;1;2;3]%Z 7 [7; 7]%Z).
  - repeat constructor; unfold is_byte; lia.
  - simpl. lia.
Defined.

(** ** Any stream: extending it changes nothing *)

Section Extend.
Variable wrap16 : nat -> nat.

Lemma copyLiteral_extend count val junk bufferLen c c' :
  copyLiteral wrap16 count val bufferLen c = Some c' ->
  copyLiteral wrap16 count (val ++ junk) bufferLen c = Some c'.
Proof.
  revert c. induction count as [|count IH]; intros c; [done|].
  cbn [copyLiteral]. case_bool_decide; [|apply IH].
  destruct (val !! valIdx c) as [b|] eqn:Hb; [|done].
  rewrite (lookup_app_l_Some _ _ _ _ Hb). cbn [mbind option_bind]. apply IH.
Qed.

Lemma unpackLoop_extend fuel val junk bufferLen c c' :
  unpackLoop wrap16 fuel val bufferLen c = Some c' ->
  unpackLoop wrap16 fuel (val ++ junk) bufferLen c = Some c'.
Proof.
  revert c. induction fuel as [|fuel IH]; intros c; [done|].
  rewrite !unpackLoop_S. case_bool_decide; [|done].
  destruct (val !! valIdx c) as [header|] eqn:Hh; [|done].
  rewrite (lookup_app_l_Some _ _ _ _ Hh). cbn [mbind option_bind valIdx].
  case_bool_decide.
  - destruct (copyLiteral wrap16 _ val _ _) as [c2|] eqn:Hc; [|done].
    rewrite (copyLiteral_extend _ _ _ _ _ _ Hc). cbn [mbind option_bind].
    apply IH.
  - destruct (val !! wrap16 (S (valIdx c))) as [value|] eqn:Hv; [|done].
    rewrite (lookup_app_l_Some _ _ _ _ Hv). cbn [mbind option_bind].
    apply IH.
Qed.
End Extend.

(** X4.  A stream that decodes, decodes to the same output when more bytes are
    appended to it; this holds for the decoder over unbounded integers and
    for the routine with its 16-bit cursors alike. *)
Theorem unpack_extend val junk bufferLen out :
  (decode val bufferLen = Some out -> decode (val ++ junk) bufferLen = Some out)
  /\ (unpack16 val bufferLen = Some out ->
      unpack16 (val ++ junk) bufferLen = Some out).
Proof.
  unfold decode, unpack16, unpack. split; intros H.
  - destruct (unpackLoop id _ val _ _) as [c'|] eqn:Hc; [|done].
    by rewrite (unpackLoop_extend _ _ _ _ _ _ _ Hc).
  - destruct (unpackLoop uint16 _ val _ _) as [c'|] eqn:Hc; [|done].
    by rewrite (unpackLoop_extend _ _ _ _ _ _ _ Hc).
Qed.

Lemma unpack_extend_witness :
  decode ([130; 5; 4; 9; 9; 1; 2; 3]%Z ++ [0; 0; 0]%Z) 10
  = Some [5;5;5;5;5;9;9;1;2;3]%Z.
Proof.
  apply (proj1 (unpack_extend [130; 5; 4; 9; 9; 1; 2; 3]%Z [0; 0; 0]%Z 10
                  [5;5;5;5;5;9;9;1;2;3]%Z)).
  vm_compute. reflexivity.
Defined.

(** ** The routine as compiled against the routine over integers *)

Section Refine.
Variable wrap16 : nat -> nat.
Variable M : nat.
Hypothesis wrap16_small : forall k, k <= M -> wrap16 k = k.

Lemma id_nat (k : nat) : id k = k.
Proof. done. Qed.

Lemma copyLiteral_bounds count val bufferLen : forall c c',
  copyLiteral id count val bufferLen c = Some c' ->
  bufIdx c <= bufferLen -> valIdx c <= length val ->
  bufIdx c' <= bufferLen /\ valIdx c' <= length val.
Proof.
  induction count as [|count IH]; intros c c' H Hb Hv.
  - injection H as <-. done.
  - cbn [copyLiteral] in H. case_bool_decide; [|by eapply IH].
    destruct (val !! valIdx c) as [b|] eqn:Eb; [|done].
    apply lookup_lt_Some in Eb. cbn [mbind option_bind] in H.
    apply IH in H; cbn [bufIdx valIdx] in *; rewrite ?id_nat in *; [done|lia..].
Qed.

Lemma fillRun_bounds count v bufferLen : forall c,
  bufIdx c <= bufferLen ->
  bufIdx (fillRun id count v bufferLen c) <= bufferLen
  /\ valIdx (fillRun id count v bufferLen c) = valIdx c.
Proof.
  induction count as [|count IH]; intros c Hb; [done|].
  cbn [fillRun]. case_bool_decide; [|by apply IH].
  destruct (IH (Cursor (valIdx c) (id (S (bufIdx c)))
                  (<[bufIdx c := v]> (buffer c)))) as [H1 H2];
    cbn [bufIdx valIdx] in *; rewrite ?id_nat in *; [lia|done].
Qed.

Lemma copyLiteral_id count val bufferLen : forall c,
  bufIdx c <= bufferLen -> bufferLen <= M ->
  valIdx c <= length val -> length val <= M ->
  copyLiteral wrap16 count val bufferLen c = copyLiteral id count val bufferLen c.
Proof.
  induction count as [|count IH]; intros c Hb HM Hv HvM; [done|].
  cbn [copyLiteral]. case_bool_decide; [|by apply IH].
  destruct (val !! valIdx c) as [b|] eqn:Eb; [|done].
  apply lookup_lt_Some in Eb. cbn [mbind option_bind].
  rewrite !wrap16_small by lia. rewrite !id_nat.
  apply IH; cbn [bufIdx valIdx]; lia.
Qed.

Lemma fillRun_id count v bufferLen : forall c,
  bufIdx c <= bufferLen -> bufferLen <= M ->
  fillRun wrap16 count v bufferLen c = fillRun id count v bufferLen c.
Proof.
  induction count as [|count IH]; intros c Hb HM; [done|].
  cbn [fillRun]. case_bool_decide; [|by apply IH].
  rewrite wrap16_small by lia. rewrite id_nat. apply IH; cbn [bufIdx]; lia.
Qed.

Lemma unpackLoop_id fuel val bufferLen : forall c,
  bufIdx c <= bufferLen -> bufferLen <= M ->
  valIdx c <= length val -> length val <= M ->
  unpackLoop wrap16 fuel val bufferLen c = unpackLoop id fuel val bufferLen c.
Proof.
  induction fuel as [|fuel IH]; intros c Hb HM Hv HvM; [done|].
  rewrite !unpackLoop_S. case_bool_decide; [|done].
  destruct (val !! valIdx c) as [header|] eqn:Eh; [|done].
  apply lookup_lt_Some in Eh. cbn [mbind option_bind].
  rewrite !(wrap16_small (S (valIdx c))) by lia. rewrite !id_nat.
  case_bool_decide.
  - rewrite copyLiteral_id by (cbn [bufIdx valIdx]; lia).
    destruct (copyLiteral id _ val _ _) as [c2|] eqn:Ec; [|done].
    cbn [mbind option_bind].
    apply copyLiteral_bounds in Ec as [? ?]; cbn [bufIdx valIdx]; [|lia..].
    by apply IH.
  - cbn [valIdx bufIdx buffer].
    destruct (val !! S (valIdx c)) as [value|] eqn:Ev; [|done].
    apply lookup_lt_Some in Ev. cbn [mbind option_bind].
    rewrite !(wrap16_small (S (S (valIdx c)))) by lia.
    rewrite fillRun_id by (cbn [bufIdx]; lia).
    match goal with |- context [fillRun id ?n ?v ?l ?c0] =>
      destruct (fillRun_bounds n v l c0) as [Hfb Hfv]; [cbn [bufIdx]; lia|]
    end.
    apply IH; [done|done| |done]. rewrite Hfv. cbn [valIdx]. lia.
Qed.
End Refine.

(** X5.  On every stream shorter than 65536 bytes and for every declared length
    below 65536, well-formed or not, the routine with its 16-bit cursors
    does exactly what the routine over unbounded integers does: the same
    output, or a read past the end of the stream at the same point. *)
Theorem unpack16_agrees_with_decode val bufferLen :
  (Z.of_nat (length val) < 65536)%Z -> (Z.of_nat bufferLen < 65536)%Z ->
  unpack16 val bufferLen = decode val bufferLen.
Proof.
  intros Hv Hb. unfold unpack16, decode, unpack.
  assert (Hsmall : forall k, k <= Z.to_nat 65535 -> uint16 k = k).
  { intros k Hk. unfold uint16. rewrite Z.mod_small by lia. lia. }
  rewrite Hsmall by lia. rewrite !(id_nat bufferLen). f_equal.
  apply (unpackLoop_id uint16 (Z.to_nat 65535) Hsmall); cbn [bufIdx valIdx]; lia.
Qed.

Lemma unpack16_agrees_with_decode_witness :
  unpack16 [130; 5; 4; 9]%Z 10 = decode [130; 5; 4; 9]%Z 10.
Proof.
  apply (unpack16_agrees_with_decode [130; 5; 4; 9]%Z 10); simpl; lia.
Defined.

(** X6.  The emitted routine, with its 16-bit cursors, returns every frame of up
    to 65026 bytes from its encoding: by the bound on the encoded length,
    no cursor can wrap on such a frame. *)
Theorem unpack16_decodes_frames data :
  Forall is_byte data -> (Z.of_nat (length data) <= 65026)%Z ->
  unpack16 (compressRLE data) (length data) = Some data.
Proof.
  intros Hbytes Hd. unfold unpack16.
  assert (Hlen : (Z.of_nat (length (compressRLE data)) <= 65535)%Z).
  { unfold compressRLE. rewrite length_fmap.
    pose proof (length_compressLoop_tight data (length data) 0) as H.
    rewrite Nat.sub_0_r in H. specialize (H ltac:(lia) ltac:(lia)).
    assert (Z.of_nat ((length data + 127) / 128) <= 509)%Z; [|lia].
    rewrite Nat2Z.inj_div. apply Z.lt_succ_r.
    apply Z.div_lt_upper_bound; lia. }
  apply (unpack_compressRLE uint16 (Z.to_nat 65535)); [|done|lia..].
  intros k Hk. unfold uint16. rewrite Z.mod_small by lia. lia.
Qed.

Lemma unpack16_decodes_frames_witness :
  unpack16 (compressRLE [5;5;5;5;5;9;9;1;2;3]%Z) 10
  = Some [5;5;5;5;5;9;9;1;2;3]%Z.
Proof.
  apply (unpack16_decodes_frames [5;5;5;5;5;9;9;1;2;3]%Z).
  - repeat constructor; unfold is_byte; lia.
  - simpl. lia.
Defined.
End RLEMore.

(** * More about the compositor *)

Section CanvasMore.
Import Image Canvas.
Section Steps.
Variable blend : pixel -> pixel -> pixel.

Lemma length_bytesOf ps : length (bytesOf ps) = 4 * length ps.
Proof.
  induction ps as [|p ps IH]; [done|].
  unfold bytesOf in *. rewrite bind_cons, length_app, IH. simpl. lia.
Qed.

(** Reading an image back from a canvas gives the canvas pixels. *)
Lemma imagePixel_getImageData b img x y :
  getImageData b = Some img -> imagePixel img x y = pixelAt b x y.
Proof.
  unfold getImageData. case_match; [|done]. intros [= <-].
  unfold imagePixel, pixelAt. simpl. by rewrite pixelsOf_bytesOf.
Qed.

Lemma wellFormed_mapBitmap f b :
  wellFormedCanvas b -> wellFormedCanvas (mapBitmap f b).
Proof.
  unfold wellFormedCanvas, mapBitmap. simpl. by rewrite length_imap.
Qed.

Lemma drawPatch_Some frame canvas :
  wellFormedFrame frame ->
  drawPatch blend frame canvas
  = Some (drawImage blend
            (putImageData
               (mkImageData (dwidth (dims frame)) (dheight (dims frame))
                  (clamp8 <$> patch frame))
               (newCanvas (dwidth (dims frame)) (dheight (dims frame))))
            (left (dims frame)) (top (dims frame)) canvas).
Proof.
  intros (Hw & Hh & Hlen). unfold drawPatch, newImageData.
  by rewrite !bool_decide_eq_true_2 by (rewrite ?length_fmap; done).
Qed.

Lemma drawPatch_dims frame canvas drawn :
  drawPatch blend frame canvas = Some drawn ->
  bw drawn = bw canvas /\ bh drawn = bh canvas
  /\ length (pixels drawn) = length (pixels canvas).
Proof.
  unfold drawPatch. destruct (newImageData _ _ _); [|done].
  intros [= <-]. unfold drawImage, mapBitmap. simpl. by rewrite length_imap.
Qed.

(** Drawing a patch changes nothing outside its rectangle. *)
Lemma drawPatch_outside frame canvas drawn x y :
  drawPatch blend frame canvas = Some drawn ->
  inRect (dims frame) x y = false ->
  pixelAt drawn x y = pixelAt canvas x y.
Proof.
  unfold drawPatch. destruct (newImageData _ _ _) as [img|] eqn:Himg; [|done].
  apply newImageData_Some in Himg as (-> & _). intros [= <-] Hout.
  unfold drawImage. rewrite pixelAt_mapBitmap.
  set (pc := putImageData _ _).
  change (bw pc) with (dwidth (dims frame)).
  change (bh pc) with (dheight (dims frame)).
  unfold inRect in Hout. rewrite Hout.
  by destruct (pixelAt canvas x y).
Qed.

(** One step on a well-formed canvas and frame: it does not throw, and the
    canvas keeps its size. *)
Lemma composeStep_Some frame canvas :
  wellFormedCanvas canvas -> wellFormedFrame frame ->
  exists next frameImage drawn,
    composeStep blend frame canvas = Some (next, frameImage)
    /\ drawPatch blend frame canvas = Some drawn
    /\ getImageData drawn = Some frameImage
    /\ frameImage = mkImageData (bw canvas) (bh canvas) (bytesOf (pixels drawn))
    /\ length (pixels drawn) = bw canvas * bh canvas
    /\ wellFormedCanvas next /\ bw next = bw canvas /\ bh next = bh canvas.
Proof.
  intros (HW & HH & Hlen) Hf. unfold composeStep.
  pose proof (drawPatch_Some frame canvas Hf) as Hd. rewrite Hd.
  set (drawn := drawImage _ _ _ _ _) in *.
  destruct (drawPatch_dims frame canvas drawn Hd) as (Hbw & Hbh & Hpx).
  assert (Hgc : getImageData canvas
                = Some (mkImageData (bw canvas) (bh canvas) (bytesOf (pixels canvas)))).
  { unfold getImageData. by rewrite !bool_decide_eq_true_2 by done. }
  assert (Hgd : getImageData drawn
                = Some (mkImageData (bw canvas) (bh canvas) (bytesOf (pixels drawn)))).
  { unfold getImageData. rewrite Hbw, Hbh.
    by rewrite !bool_decide_eq_true_2 by done. }
  assert (Hwd : wellFormedCanvas drawn).
  { unfold wellFormedCanvas. rewrite Hbw, Hbh, Hpx. done. }
  destruct (bool_decide (disposalType frame = 3%Z));
    rewrite ?Hgc; cbn [fmap option_fmap option_map mbind option_bind];
    rewrite Hgd; cbn [mbind option_bind].
  all: eexists _, _, drawn; split_and!; try done.
  all: try case_bool_decide; try done; by apply wellFormed_mapBitmap.
Qed.

(** What makes a step throw: only an ill-formed patch. *)
Lemma composeStep_wellFormed frame canvas res :
  composeStep blend frame canvas = Some res -> wellFormedFrame frame.
Proof.
  unfold composeStep. intros H.
  destruct (if bool_decide (disposalType frame = 3%Z) then _ else _); [|done].
  cbn [mbind option_bind] in H.
  destruct (drawPatch blend frame canvas) as [drawn|] eqn:Hd; [|done].
  unfold drawPatch in Hd.
  destruct (newImageData _ _ _) as [img|] eqn:Himg; [|done].
  apply newImageData_Some in Himg as (_ & Hw & Hh & Hlen).
  rewrite length_fmap in Hlen. done.
Qed.

Lemma composeLoop_shape rawFrames : forall canvas acc,
  wellFormedCanvas canvas -> Forall wellFormedFrame rawFrames ->
  exists last out,
    composeLoop blend rawFrames canvas acc = Some (last, acc ++ out)
    /\ length out = length rawFrames
    /\ Forall (fun img => width img = bw canvas /\ height img = bh canvas
                  /\ length (data img) = 4 * bw canvas * bh canvas) out.
Proof.
  induction rawFrames as [|frame rest IH]; intros canvas acc Hc Hall.
  - exists canvas, []. by rewrite app_nil_r.
  - apply Forall_cons in Hall as [Hf Hrest].
    destruct (composeStep_Some frame canvas Hc Hf)
      as (next & img & drawn & Hstep & _ & _ & Himg & Hpx & Hn & Hbw & Hbh).
    cbn [composeLoop]. rewrite Hstep. cbn [mbind option_bind].
    destruct (IH next (acc ++ [img]) Hn Hrest) as (last & out & Hloop & Hlen & Hshape).
    exists last, (img :: out). rewrite Hloop, <- app_assoc. split_and!; try done.
    + simpl. by rewrite Hlen.
    + apply Forall_cons. split.
      * subst img. simpl. rewrite length_bytesOf, Hpx. split_and!; try done. lia.
      * rewrite Hbw, Hbh in Hshape. done.
Qed.

Lemma composeLoop_wellFormed rawFrames : forall canvas acc res,
  composeLoop blend rawFrames canvas acc = Some res ->
  Forall wellFormedFrame rawFrames.
Proof.
  induction rawFrames as [|frame rest IH]; intros canvas acc res H; [done|].
  cbn [composeLoop] in H.
  destruct (composeStep blend frame canvas) as [[next img]|] eqn:Hstep; [|done].
  cbn [mbind option_bind] in H. apply Forall_cons. split.
  - by eapply composeStep_wellFormed.
  - by eapply IH.
Qed.


(** Drawing a patch neither adds nor removes canvas positions. *)
Lemma drawPatch_domain frame canvas drawn x y :
  drawPatch blend frame canvas = Some drawn ->
  exists g, pixelAt drawn x y = g <$> pixelAt canvas x y.
Proof.
  unfold drawPatch. destruct (newImageData _ _ _) as [img|]; [|done].
  intros [= <-]. unfold drawImage. rewrite pixelAt_mapBitmap. by eexists.
Qed.

(** A step that returns has drawn the patch, emitted the canvas as drawn,
    and left the canvas its disposal asks for. *)
Lemma composeStep_inv frame canvas next frameImage :
  composeStep blend frame canvas = Some (next, frameImage) ->
  exists drawn,
    drawPatch blend frame canvas = Some drawn
    /\ getImageData drawn = Some frameImage
    /\ (disposalType frame = 2%Z ->
        next = clearRect (left (dims frame)) (top (dims frame))
                 (dwidth (dims frame)) (dheight (dims frame)) drawn)
    /\ (disposalType frame <> 2%Z -> disposalType frame <> 3%Z -> next = drawn).
Proof.
  unfold composeStep. intros H.
  destruct (if bool_decide (disposalType frame = 3%Z) then _ else _)
    as [backup|]; [|done].
  cbn [mbind option_bind] in H.
  destruct (drawPatch blend frame canvas) as [drawn|]; [|done].
  cbn [mbind option_bind] in H.
  destruct (getImageData drawn) as [img|] eqn:Himg; [|done].
  cbn [mbind option_bind] in H. injection H as Hnext <-.
  exists drawn. split_and!; try done.
  - intros H2. by rewrite bool_decide_eq_true_2 in Hnext by done.
  - intros H2 H3. by rewrite !bool_decide_eq_false_2 in Hnext by done.
Qed.
End Steps.

(** X7.  On a canvas with positive sides the compositor returns exactly when
    every patch has positive sides and four bytes per pixel; where the patch
    rectangle lies plays no role (it is clipped).  It then emits one image
    per input frame, each of the canvas size. *)
Theorem extractComposedFrames_shape blend rawFrames gifWidth gifHeight :
  0 < gifWidth -> 0 < gifHeight ->
  (is_Some (extractComposedFrames blend rawFrames gifWidth gifHeight)
   <-> Forall wellFormedFrame rawFrames)
  /\ (forall frames,
        extractComposedFrames blend rawFrames gifWidth gifHeight = Some frames ->
        length frames = length rawFrames
        /\ Forall (fun img => width img = gifWidth /\ height img = gifHeight
                     /\ length (data img) = 4 * gifWidth * gifHeight) frames).
Proof.
  intros HW HH. unfold extractComposedFrames.
  assert (Hc : wellFormedCanvas (newCanvas gifWidth gifHeight)).
  { unfold wellFormedCanvas, newCanvas. simpl. by rewrite length_replicate. }
  split.
  - split.
    + intros [frames Hf].
      destruct (composeLoop blend rawFrames _ []) as [res|] eqn:Hloop; [|done].
      by eapply composeLoop_wellFormed.
    + intros Hall.
      destruct (composeLoop_shape blend rawFrames _ [] Hc Hall)
        as (last & out & -> & _).
      by eexists.
  - intros frames Hf.
    destruct (composeLoop blend rawFrames _ []) as [res|] eqn:Hloop; [|done].
    pose proof (composeLoop_wellFormed _ _ _ _ _ Hloop) as Hall.
    destruct (composeLoop_shape blend rawFrames _ [] Hc Hall)
      as (last & out & Hloop' & Hlen & Hshape).
    rewrite Hloop in Hloop'. injection Hloop' as ->.
    cbn [fmap option_fmap option_map snd app] in Hf. injection Hf as <-.
    done.
Qed.

Lemma extractComposedFrames_shape_witness :
  is_Some (extractComposedFrames (fun s _ => s) [redKeepFrame; emptyFrame] 1 1)
  <-> Forall wellFormedFrame [redKeepFrame; emptyFrame].
Proof.
  exact (proj1 (extractComposedFrames_shape (fun s _ => s)
                  [redKeepFrame; emptyFrame] 1 1 ltac:(lia) ltac:(lia))).
Defined.

(** X8.  Disposal RestorePrevious, at any frame: the frame is emitted with its
    patch drawn, and the canvas handed on is the canvas as it was before the
    patch, pixel for pixel. *)
Theorem restorePrevious_restores_canvas blend frame canvas :
  disposalType frame = 3%Z ->
  wellFormedCanvas canvas -> wellFormedFrame frame ->
  exists drawn frameImage,
    drawPatch blend frame canvas = Some drawn
    /\ getImageData drawn = Some frameImage
    /\ composeStep blend frame canvas = Some (canvas, frameImage).
Proof.
  intros Hd Hc Hf.
  destruct (composeStep_Some blend frame canvas Hc Hf)
    as (next & img & drawn & Hstep & Hdraw & Himg & _ & Hpx & _ & _ & _).
  exists drawn, img. split_and!; try done.
  rewrite Hstep. f_equal. f_equal.
  destruct (drawPatch_dims blend frame canvas drawn Hdraw) as (Hbw & Hbh & _).
  destruct Hc as (HW & HH & Hlen).
  assert (Hgc : getImageData canvas
                = Some (mkImageData (bw canvas) (bh canvas) (bytesOf (pixels canvas)))).
  { unfold getImageData. by rewrite !bool_decide_eq_true_2 by done. }
  unfold composeStep in Hstep.
  rewrite (bool_decide_eq_true_2 _ Hd) in Hstep.
  rewrite bool_decide_eq_false_2 in Hstep by lia.
  rewrite Hgc in Hstep.
  cbn [fmap option_fmap option_map mbind option_bind] in Hstep.
  rewrite Hdraw in Hstep. cbn [mbind option_bind] in Hstep.
  rewrite Himg in Hstep. cbn [mbind option_bind] in Hstep.
  injection Hstep as <-.
  apply putImageData_snapshot; done.
Qed.

Lemma restorePrevious_restores_canvas_witness :
  exists drawn frameImage,
    drawPatch (fun s _ => s) redRestoreFrame greenCanvas = Some drawn
    /\ getImageData drawn = Some frameImage
    /\ composeStep (fun s _ => s) redRestoreFrame greenCanvas
       = Some (greenCanvas, frameImage).
Proof.
  apply (restorePrevious_restores_canvas (fun s _ => s) redRestoreFrame greenCanvas);
    [reflexivity | |]; repeat split; simpl; lia.
Defined.

(** X9.  Disposal RestoreBackground: the canvas handed on is transparent black
    on the whole patch rectangle, also under transparent patch pixels, and
    is the canvas as it was before the frame everywhere else. *)
Theorem restoreBackground_clears_patch blend frame canvas next frameImage x y :
  disposalType frame = 2%Z ->
  composeStep blend frame canvas = Some (next, frameImage) ->
  pixelAt next x y
  = (fun old => if inRect (dims frame) x y then transparent else old)
      <$> pixelAt canvas x y.
Proof.
  intros Hd Hstep.
  destruct (composeStep_inv blend _ _ _ _ Hstep) as (drawn & Hdraw & _ & Hnext & _).
  rewrite (Hnext Hd). unfold clearRect. rewrite pixelAt_mapBitmap.
  fold (inRect (dims frame) x y).
  destruct (inRect (dims frame) x y) eqn:Hin.
  - destruct (drawPatch_domain blend frame canvas drawn x y Hdraw) as [g ->].
    by destruct (pixelAt canvas x y).
  - rewrite (drawPatch_outside blend frame canvas drawn x y Hdraw Hin).
    by destruct (pixelAt canvas x y).
Qed.

Lemma restoreBackground_clears_patch_witness :
  pixelAt (newCanvas 1 1) 0 0
  = (fun old => if inRect (mkDims 0 0 1 1) 0 0 then transparent else old)
      <$> pixelAt greenCanvas 0 0.
Proof.
  apply (restoreBackground_clears_patch (fun s _ => s)
           (mkRawFrame (mkDims 0 0 1 1) [255; 0; 0; 0]%Z 2) greenCanvas
           (newCanvas 1 1) (mkImageData 1 1 [0; 255; 0; 255]%Z) 0 0);
    reflexivity.
Defined.

(** X10.  Frames accumulate: after a frame whose disposal is neither
    RestoreBackground nor RestorePrevious, the next emitted image equals the
    previous emitted image everywhere outside the next patch rectangle. *)
Theorem kept_frame_shows_through blend frame1 frame2 canvas0 canvas1 canvas2
    image1 image2 x y :
  disposalType frame1 <> 2%Z -> disposalType frame1 <> 3%Z ->
  composeStep blend frame1 canvas0 = Some (canvas1, image1) ->
  composeStep blend frame2 canvas1 = Some (canvas2, image2) ->
  inRect (dims frame2) x y = false ->
  imagePixel image2 x y = imagePixel image1 x y.
Proof.
  intros H2 H3 Hstep1 Hstep2 Hout.
  destruct (composeStep_inv blend _ _ _ _ Hstep1) as (drawn1 & _ & Himg1 & _ & Hkeep).
  destruct (composeStep_inv blend _ _ _ _ Hstep2) as (drawn2 & Hdraw2 & Himg2 & _).
  rewrite (Hkeep H2 H3) in *.
  rewrite (imagePixel_getImageData _ _ x y Himg2).
  rewrite (imagePixel_getImageData _ _ x y Himg1).
  by eapply drawPatch_outside.
Qed.

Lemma kept_frame_shows_through_witness :
  imagePixel (mkImageData 2 1 [0; 0; 255; 255; 255; 0; 0; 255]%Z) 1 0
  = imagePixel (mkImageData 2 1 [0; 0; 0; 0; 255; 0; 0; 255]%Z) 1 0.
Proof.
  apply (kept_frame_shows_through (fun s _ => s)
           (mkRawFrame (mkDims 1 0 1 1) [255; 0; 0; 255]%Z 1)
           (mkRawFrame (mkDims 0 0 1 1) [0; 0; 255; 255]%Z 1)
           (newCanvas 2 1)
           (mkBitmap 2 1 [RGBA 0 0 0 0; RGBA 255 0 0 255])
           (mkBitmap 2 1 [RGBA 0 0 255 255; RGBA 255 0 0 255])
           (mkImageData 2 1 [0; 0; 0; 0; 255; 0; 0; 255]%Z)
           (mkImageData 2 1 [0; 0; 255; 255; 255; 0; 0; 255]%Z) 1 0);
    try reflexivity; simpl; lia.
Defined.
End CanvasMore.

(** * More about the frame processor *)

Section FrameMore.
Import Image Frame RLE.

(** ** What the quantizing loops leave in the preview and the packed
    buffer *)

Lemma setBit_bytes w x y ssd :
  Forall is_byte ssd -> Forall is_byte (setBit w x y ssd).
Proof.
  intros H. unfold setBit. case_bool_decide; [|done].
  apply Forall_insert; [done|]. unfold is_byte, to_uint8.
  apply Z.mod_pos_bound. lia.
Qed.

(** Any raster loop whose iterations emit their pixel leaves a preview of
    opaque black and white pixels and a packed buffer of bytes. *)
Lemma emitting_loop_mono w h (body : nat -> nat -> Buffers -> Buffers) b :
  (forall x y b, x < w -> y < h -> length (grayBuffer b) = w * h ->
                 emitsAt w x y b (body x y b)) ->
  length (grayBuffer b) = w * h -> length (targetData b) = 4 * w * h ->
  Forall is_byte (ssd1306Buffer b) ->
  let b' := forRange h (fun y => forRange w (fun x => body x y)) b in
  Forall is_byte (ssd1306Buffer b')
  /\ forall i, i < h * w ->
       exists v, (v = 0 \/ v = 255)%Z
                 /\ texelAt (targetData b') i = (v, v, v, 255%Z).
Proof.
  intros Hbody Hg Ht Hs. cbv zeta.
  pose (P := fun (k : nat) (s : Buffers) =>
          length (grayBuffer s) = w * h /\ length (targetData s) = 4 * w * h
          /\ Forall is_byte (ssd1306Buffer s)
          /\ forall i, i < k ->
               exists v, (v = 0 \/ v = 255)%Z
                         /\ texelAt (targetData s) i = (v, v, v, 255%Z)).
  assert (Hinv : P (h * w)
            (forRange h (fun y => forRange w (fun x => body x y)) b)).
  { apply (raster_ind P); unfold P.
    - split_and!; try done. intros i Hi. lia.
    - intros x y s Hx Hy (Hgs & Hts & Hss & Hprev).
      destruct (Hbody x y s Hx Hy Hgs) as (Hg' & v & Hv & Htd & Hssd).
      rewrite Hg', Htd, Hssd, length_writePixel. split_and!; try done.
      + case_bool_decide; [by apply setBit_bytes|done].
      + intros i Hi. destruct (decide (i = y * w + x)) as [->|Hne].
        * exists v. split; [done|]. rewrite texelAt_writePixel by nia.
          assert (is_byte v) by (unfold is_byte; lia).
          rewrite (clamp8_byte v) by done.
          by rewrite (clamp8_byte 255) by (unfold is_byte; lia).
        * rewrite texelAt_writePixel_ne by done. apply Hprev. lia. }
  destruct Hinv as (_ & _ & Hb & Hall). done.
Qed.

Lemma quantizeAndPack_mono o td :
  length td = 4 * width o * height o ->
  let b := quantizeAndPack o td in
  Forall is_byte (ssd1306Buffer b)
  /\ forall i, i < height o * width o ->
       exists v, (v = 0 \/ v = 255)%Z
                 /\ texelAt (targetData b) i = (v, v, v, 255%Z).
Proof.
  intros Htd. cbv zeta. unfold quantizeAndPack.
  assert (Hz : forall n, Forall is_byte (replicate n 0%Z)).
  { intros n. apply Forall_replicate. unfold is_byte. lia. }
  destruct (dither o).
  - unfold ditherLoop. apply emitting_loop_mono; cbn [grayBuffer targetData ssd1306Buffer];
      try done.
    + intros x y b Hx Hy Hb. by apply ditherStep_emits.
    + destruct (invert o);
        rewrite ?length_invertGray, length_grayLoop, length_replicate; done.
  - unfold thresholdLoop. apply emitting_loop_mono; cbn [grayBuffer targetData ssd1306Buffer];
      try done.
    + intros x y b Hx Hy Hb. by apply (thresholdStep_emits _ (height o)).
    + by rewrite length_grayLoop, length_replicate.
Qed.


(** X13.  The preview has the target size, and each of its pixels is opaque
    black or opaque white: the three colour bytes are equal, 0 or 255, and
    alpha is 255. *)
Theorem preview_is_black_and_white src o r x y :
  processFrame src o = Some r -> x < width o -> y < height o ->
  Image.width (preview r) = width o /\ Image.height (preview r) = height o
  /\ length (data (preview r)) = 4 * width o * height o
  /\ exists v, (v = 0 \/ v = 255)%Z
       /\ texelAt (data (preview r)) (y * width o + x) = (v, v, v, 255%Z).
Proof.
  intros Hr Hx Hy. rewrite processFrame_Some in Hr by lia.
  injection Hr as <-. cbn [preview Image.width Image.height data].
  destruct (quantizeAndPack_inv o (resample src o) (length_resample src o))
    as (_ & Ht & _).
  destruct (quantizeAndPack_mono o (resample src o) (length_resample src o))
    as [_ Hall].
  split_and!; try done. apply Hall. nia.
Qed.

Lemma preview_is_black_and_white_witness :
  exists r, processFrame (onePixel 16 16 3 10) (plainOptions 16 16 true) = Some r
    /\ exists v, (v = 0 \/ v = 255)%Z
         /\ texelAt (data (preview r)) (10 * 16 + 3) = (v, v, v, 255%Z).
Proof.
  destruct (processFrame (onePixel 16 16 3 10) (plainOptions 16 16 true))
    as [r|] eqn:Hr; [|by vm_compute in Hr].
  exists r. split; [done|].
  apply (preview_is_black_and_white (onePixel 16 16 3 10)
           (plainOptions 16 16 true) r 3 10 Hr); simpl; lia.
Defined.

(** X14.  Whatever [processFrame] returns as packed buffer consists of bytes and
    survives the codec: encoded by [compressRLE] and decoded with the
    buffer length [floor (W * H / 8)], it comes back unchanged, also
    through the routine with 16-bit cursors as long as the buffer has at
    most 65026 bytes. *)
Theorem packed_frame_round_trip src o r :
  processFrame src o = Some r ->
  Forall is_byte (pixels r)
  /\ decode (compressRLE (pixels r)) (width o * height o / 8) = Some (pixels r)
  /\ ((Z.of_nat (width o * height o / 8) <= 65026)%Z ->
      unpack16 (compressRLE (pixels r)) (width o * height o / 8)
      = Some (pixels r)).
Proof.
  intros Hr. pose proof (length_pixels src o r Hr) as Hlen.
  assert (Hbytes : Forall is_byte (pixels r)).
  { unfold processFrame, result in Hr.
    destruct (newImageData _ _ _) as [img|]; [|done].
    cbn [mbind option_bind] in Hr. injection Hr as <-. cbn [pixels].
    by destruct (quantizeAndPack_mono o (resample src o) (length_resample src o)). }
  rewrite <- Hlen. split_and!; [done| |].
  - unfold decode.
    apply (unpack_compressRLE id
             (Nat.max (length (pixels r)) (length (compressRLE (pixels r)))));
      [done|done|lia..].
  - intros Hsmall. unfold unpack16.
    assert (Hc : (Z.of_nat (length (compressRLE (pixels r))) <= 65535)%Z).
    { unfold compressRLE. rewrite length_fmap.
      pose proof (length_compressLoop_tight (pixels r) (length (pixels r)) 0) as H.
      rewrite Nat.sub_0_r in H. specialize (H ltac:(lia) ltac:(lia)).
      assert (Z.of_nat ((length (pixels r) + 127) / 128) <= 509)%Z; [|lia].
      rewrite Nat2Z.inj_div. apply Z.lt_succ_r.
      apply Z.div_lt_upper_bound; lia. }
    apply (unpack_compressRLE uint16 (Z.to_nat 65535)); [|done|lia..].
    intros k Hk. unfold uint16. rewrite Z.mod_small by lia. lia.
Qed.

Lemma packed_frame_round_trip_witness :
  exists r, processFrame (onePixel 16 16 3 10) (plainOptions 16 16 true) = Some r
    /\ decode (compressRLE (pixels r)) (16 * 16 / 8) = Some (pixels r).
Proof.
  destruct (processFrame (onePixel 16 16 3 10) (plainOptions 16 16 true))
    as [r|] eqn:Hr; [|by vm_compute in Hr].
  exists r. split; [done|].
  apply (packed_frame_round_trip (onePixel 16 16 3 10)
           (plainOptions 16 16 true) r Hr).
Defined.

(** ** Luminance of gray pixels *)

(** The three weights, as binary64 constants, and the store into the
    [Float32Array] give a gray level back exactly. *)
Lemma gray_weights v :
  is_byte v ->
  fround (0.299 * ofZ v + 0.587 * ofZ v + 0.114 * ofZ v)%float = ofZ v.
Proof.
  intros [H0 H1]. rewrite <- (Z2Nat.id v) by done.
  assert (Hn : Z.to_nat v < 256) by lia.
  revert Hn. generalize (Z.to_nat v). clear. intros n Hn.
  do 256 (destruct n as [|n]; [vm_compute; reflexivity|]). lia.
Qed.

(** X15.  A pixel whose three colour bytes are equal has exactly that value as
    luminance: the weights 0.299, 0.587 and 0.114 and the rounding to
    binary32 lose nothing on gray levels. *)
Theorem luminance_of_gray td i v :
  is_byte v ->
  readByte td (i * 4) = v -> readByte td (i * 4 + 1) = v ->
  readByte td (i * 4 + 2) = v ->
  luminance td i = ofZ v.
Proof.
  intros Hv Hr Hg Hb. unfold luminance. rewrite Hr, Hg, Hb.
  by apply gray_weights.
Qed.

Lemma luminance_of_gray_witness :
  luminance [7; 7; 7; 255]%Z 0 = ofZ 7.
Proof.
  apply (luminance_of_gray [7; 7; 7; 255]%Z 0 7); [unfold is_byte; lia|reflexivity..].
Defined.

(** ** Dithering a black-and-white image *)

(** Two loops whose bodies keep a relation between their states keep it to
    the end. *)
Lemma forRange_sim {S T : Type} (R : S -> T -> Prop) n
  (f : nat -> S -> S) (g : nat -> T -> T) s t :
  R s t ->
  (forall i s t, i < n -> R s t -> R (f i s) (g i t)) ->
  R (forRange n f s) (forRange n g t).
Proof.
  intros H0 Hstep. induction n as [|n IH]; [done|].
  rewrite !forRange_S. apply Hstep; [lia|]. apply IH.
  intros i s' t' Hi. apply Hstep. lia.
Qed.

Lemma addError_saturated j g : saturated g -> addError j 0%float g = g.
Proof.
  intros Hs. unfold addError. destruct (g !! j) as [v|] eqn:Ev; [|done].
  apply list_insert_id. rewrite Ev. f_equal.
  destruct (Hs j v Ev) as [-> | ->]; vm_compute; reflexivity.
Qed.

Lemma diffuse_saturated w h x y g :
  saturated g -> diffuse w h x y 0%float g = g.
Proof.
  intros Hs. unfold diffuse.
  change (0 * (7 / 16))%float with 0%float.
  change (0 * (3 / 16))%float with 0%float.
  change (0 * (5 / 16))%float with 0%float.
  change (0 * (1 / 16))%float with 0%float.
  repeat case_bool_decide; cbv zeta;
    repeat rewrite (addError_saturated _ g Hs); done.
Qed.

(** With a threshold above 0 and not above 255, the two saturated values
    are their own quantization. *)
Lemma quantize_saturated t v :
  PrimFloat.ltb 0 t = true -> PrimFloat.ltb 255 t = false ->
  v = 0%float \/ v = 255%float ->
  (v - ofZ (quantize v t))%float = 0%float
  /\ quantize (fround (255 - v)%float) t = (255 - quantize v t)%Z.
Proof.
  intros H0 H255 [-> | ->]; unfold quantize.
  - change (fround (255 - 0)%float) with 255%float. rewrite H0, H255.
    split; vm_compute; reflexivity.
  - change (fround (255 - 255)%float) with 0%float. rewrite H0, H255.
    split; vm_compute; reflexivity.
Qed.

Lemma ditherStep_saturated w h t x y b :
  PrimFloat.ltb 0 t = true -> PrimFloat.ltb 255 t = false ->
  saturated (grayBuffer b) ->
  ditherStep w h t x y b = thresholdStep w t false x y b.
Proof.
  intros H0 H255 Hs. unfold ditherStep, thresholdStep.
  destruct (grayBuffer b !! (y * w + x)) as [old|] eqn:Eo; [|done].
  destruct (quantize_saturated t old H0 H255 (Hs _ _ Eo)) as [-> _].
  rewrite diffuse_saturated by done. by destruct b.
Qed.

Lemma grayBuffer_thresholdStep w t inv x y b :
  grayBuffer (thresholdStep w t inv x y b) = grayBuffer b.
Proof.
  unfold thresholdStep. by destruct (grayBuffer b !! (y * w + x)).
Qed.

Lemma ditherLoop_saturated w h t b :
  PrimFloat.ltb 0 t = true -> PrimFloat.ltb 255 t = false ->
  saturated (grayBuffer b) ->
  ditherLoop w h t b = thresholdLoop w h t false b.
Proof.
  intros H0 H255 Hs. unfold ditherLoop, thresholdLoop.
  pose (R := fun s s' : Buffers => s = s' /\ saturated (grayBuffer s')).
  assert (HR : R (forRange h (fun y => forRange w (fun x =>
                    ditherStep w h t x y)) b)
                 (forRange h (fun y => forRange w (fun x =>
                    thresholdStep w t false x y)) b)); [|by destruct HR].
  apply (forRange_sim R); [done|]. intros y s s' _ HR.
  apply (forRange_sim R); [done|]. intros x u u' _ [-> Hu]. split.
  - by apply ditherStep_saturated.
  - by rewrite grayBuffer_thresholdStep.
Qed.

(** Thresholding the inverted luminance is thresholding the luminance and
    inverting the result, when the luminance is saturated. *)
Lemma thresholdLoop_inverted w h t g g' td ssd :
  PrimFloat.ltb 0 t = true -> PrimFloat.ltb 255 t = false ->
  saturated g ->
  (forall j, g' !! j = (fun v => fround (255 - v)%float) <$> g !! j) ->
  let b := thresholdLoop w h t false (mkBuffers g' td ssd) in
  let b' := thresholdLoop w h t true (mkBuffers g td ssd) in
  targetData b = targetData b' /\ ssd1306Buffer b = ssd1306Buffer b'.
Proof.
  intros H0 H255 Hs Hinv. cbv zeta. unfold thresholdLoop.
  pose (R := fun s s' : Buffers =>
          grayBuffer s = g' /\ grayBuffer s' = g
          /\ targetData s = targetData s'
          /\ ssd1306Buffer s = ssd1306Buffer s').
  assert (HR : R (forRange h (fun y => forRange w (fun x =>
                    thresholdStep w t false x y)) (mkBuffers g' td ssd))
                 (forRange h (fun y => forRange w (fun x =>
                    thresholdStep w t true x y)) (mkBuffers g td ssd))).
  { apply (forRange_sim R); [done|]. intros y s s' _ HR.
    apply (forRange_sim R); [done|]. intros x u u' _ (Hu & Hu' & Ht & Hd).
    unfold R. rewrite !grayBuffer_thresholdStep. split_and!; try done.
    all: unfold thresholdStep; rewrite Hu, Hu', Hinv.
    all: destruct (g !! (y * w + x)) as [v|] eqn:Ev; [|done].
    all: cbn [fmap option_fmap option_map].
    all: destruct (quantize_saturated t v H0 H255 (Hs _ _ Ev)) as [_ ->].
    all: unfold emitPixel; cbn [targetData ssd1306Buffer].
    all: by rewrite ?Ht, ?Hd. }
  by destruct HR as (_ & _ & ? & ?).
Qed.

(** The resampled bitmap of a black-and-white image is black and white,
    and so is its luminance. *)
Lemma resample_blackOrWhite src o i :
  Forall is_byte (data src) -> blackOrWhite (data src) ->
  i < width o * height o ->
  luminance (resample src o) i = 0%float
  \/ luminance (resample src o) i = 255%float.
Proof.
  intros Hb Hbw Hi.
  assert (Hw : 0 < width o) by (destruct (width o); lia).
  set (x := i mod width o). set (y := i / width o).
  assert (Hx : x < width o) by (apply Nat.mod_upper_bound; lia).
  assert (Hy : y < height o).
  { apply Nat.Div0.div_lt_upper_bound. lia. }
  assert (Hxy : i = y * width o + x).
  { unfold x, y. rewrite (Nat.div_mod_eq i (width o)) at 1. lia. }
  assert (Ht : texelAt (resample src o) i
               = sampleTexel (fitMapping (fit o) (width o) (height o)
                                (Image.width src) (Image.height src)) src x y).
  { rewrite Hxy. unfold resample. apply sampleLoop_texel; try done.
    rewrite length_replicate. lia. }
  assert (Hv : exists v, (v = 0 \/ v = 255)%Z
             /\ readByte (resample src o) (i * 4) = v
             /\ readByte (resample src o) (i * 4 + 1) = v
             /\ readByte (resample src o) (i * 4 + 2) = v).
  { unfold texelAt, sampleTexel in Ht.
    destruct (sourceCoord _ _ _ _ _) as [[sx sy]|].
    - unfold texelAt in Ht. injection Ht as -> -> -> _. apply Hbw.
    - injection Ht as -> -> -> _. exists 0%Z. auto. }
  destruct Hv as (v & Hv & Hr & Hg & Hbl).
  unfold luminance. rewrite Hr, Hg, Hbl.
  rewrite gray_weights by (unfold is_byte; lia).
  destruct Hv as [-> | ->]; [by left|by right].
Qed.

(** X16.  Dithering does nothing to a black-and-white image: for a threshold
    above 0 and not above 255, [processFrame] returns the same packed
    buffer and the same preview with and without Floyd-Steinberg
    dithering, with invert as well as without. *)
Theorem dither_keeps_black_and_white src w h t inv f :
  Forall is_byte (data src) -> blackOrWhite (data src) ->
  PrimFloat.ltb 0 t = true -> PrimFloat.ltb 255 t = false ->
  processFrame src (mkOptions w h t inv true f)
  = processFrame src (mkOptions w h t inv false f).
Proof.
  intros Hb Hbw H0 H255. unfold processFrame.
  set (od := mkOptions w h t inv true f).
  set (ot := mkOptions w h t inv false f).
  assert (Hres : resample src od = resample src ot) by done.
  rewrite Hres. set (td := resample src ot).
  unfold quantizeAndPack. cbn [dither invert width height threshold od ot].
  set (n := w * h).
  set (g := grayLoop n td (replicate n 0%float)).
  assert (Hlen : length g = n).
  { unfold g. by rewrite length_grayLoop, length_replicate. }
  assert (Hsat : saturated g).
  { intros j v Hj. assert (j < n) as Hjn.
    { apply lookup_lt_Some in Hj. lia. }
    unfold g in Hj. rewrite grayLoop_lookup in Hj
      by (rewrite ?length_replicate; done).
    injection Hj as <-.
    apply (resample_blackOrWhite src ot j Hb Hbw Hjn). }
  destruct inv.
  - assert (Hinv : forall j, invertGray n g !! j
                     = (fun v => fround (255 - v)%float) <$> g !! j).
    { intros j. rewrite invertGray_lookup by lia. case_bool_decide; [done|].
      rewrite (proj2 (lookup_ge_None g j)) by lia. done. }
    assert (Hsat' : saturated (invertGray n g)).
    { intros j v. rewrite Hinv. destruct (g !! j) as [u|] eqn:Eu; [|done].
      intros [= <-].
      destruct (Hsat j u Eu) as [-> | ->]; [right|left]; vm_compute; reflexivity. }
    rewrite ditherLoop_saturated by done.
    destruct (thresholdLoop_inverted w h t g (invertGray n g) td
                (replicate (n / 8) 0%Z) H0 H255 Hsat Hinv) as [E1 E2].
    unfold result. cbn [width height od ot]. by rewrite E1, E2.
  - by rewrite ditherLoop_saturated by done.
Qed.

Lemma dither_keeps_black_and_white_witness :
  processFrame twoPixels (mkOptions 4 2 128%float true true contain)
  = processFrame twoPixels (mkOptions 4 2 128%float true false contain).
Proof.
  apply (dither_keeps_black_and_white twoPixels 4 2 128%float true contain).
  - repeat constructor; unfold is_byte; lia.
  - intros [|[|i]].
    + exists 255%Z. repeat split; auto.
    + exists 0%Z. repeat split; auto.
    + exists 0%Z. repeat split; auto.
  - reflexivity.
  - reflexivity.
Defined.

(** ** Resampling to the size the source already has *)

(** Two functions that agree on a table of arguments. *)
Lemma tabulate_eq {A : Type} (f g : nat -> A) s len :
  f <$> seq s len = g <$> seq s len ->
  forall n, s <= n < s + len -> f n = g n.
Proof.
  intros H n Hn. apply (f_equal (fun l => l !! (n - s))) in H.
  rewrite !list_lookup_fmap, lookup_seq_lt in H by lia.
  replace (s + (n - s)) with n in H by lia. by injection H.
Qed.

(** For a side of up to 4096 pixels: the ratio of a side to itself is 1,
    the centring offset is 0, and a coordinate is mapped back to itself. *)
Lemma same_size_scale n :
  1 <= n < 1 + 4096 ->
  (ofNat n / ofNat n)%float = 1%float
  /\ ((ofNat n - ofNat n * 1) / 2)%float = 0%float.
Proof.
  intros Hn. split.
  - apply (tabulate_eq (fun n => (ofNat n / ofNat n)%float)
             (fun _ => 1%float) 1 4096); [|done].
    vm_compute. reflexivity.
  - apply (tabulate_eq (fun n => ((ofNat n - ofNat n * 1) / 2)%float)
             (fun _ => 0%float) 1 4096); [|done].
    vm_compute. reflexivity.
Qed.

Lemma same_size_coord x :
  0 <= x < 0 + 4096 ->
  floorZ ((ofNat x - 0) / 1)%float = Some (Z.of_nat x).
Proof.
  apply (tabulate_eq (fun x => floorZ ((ofNat x - 0) / 1)%float)
           (fun x => Some (Z.of_nat x)) 0 4096).
  vm_compute. reflexivity.
Qed.

Lemma same_size_mapping f w h :
  0 < w <= 4096 -> 0 < h <= 4096 ->
  fitMapping f w h w h = mkMapping 1 1 0 0.
Proof.
  intros Hw Hh.
  destruct (same_size_scale w ltac:(lia)) as [Hsw How].
  destruct (same_size_scale h ltac:(lia)) as [Hsh Hoh].
  unfold fitMapping. rewrite Hsw, Hsh.
  change (fmax 1 1) with 1%float. change (fmin 1 1) with 1%float.
  rewrite How, Hoh. by destruct f.
Qed.

Lemma same_size_sourceCoord w h x y :
  x < w -> w <= 4096 -> y < h -> h <= 4096 ->
  sourceCoord (mkMapping 1 1 0 0) w h x y = Some (x, y).
Proof.
  intros Hx Hw Hy Hh. unfold sourceCoord. cbn [scaleX scaleY offsetX offsetY].
  rewrite !same_size_coord by lia.
  rewrite !bool_decide_eq_true_2 by lia. cbn [andb].
  by rewrite !Nat2Z.id.
Qed.

(** X17.  A frame that already has the target size, of up to 4096 pixels a side,
    passes through the resampler unchanged, in every fit mode. *)
Theorem resample_same_size src o :
  Forall is_byte (data src) ->
  length (data src) = 4 * width o * height o ->
  Image.width src = width o -> Image.height src = height o ->
  width o <= 4096 -> height o <= 4096 ->
  resample src o = data src.
Proof.
  intros Hb Hlen Hsw Hsh Hw Hh.
  pose proof (length_resample src o) as Hlr.
  apply list_eq. intros k.
  destruct (decide (k < 4 * width o * height o)) as [Hk|Hk].
  2:{ by rewrite !(proj2 (lookup_ge_None _ _)) by lia. }
  assert (H0w : 0 < width o) by (destruct (width o); lia).
  assert (H0h : 0 < height o) by (destruct (height o); lia).
  set (i := k / 4).
  assert (Hi : i < width o * height o).
  { apply Nat.Div0.div_lt_upper_bound. lia. }
  set (x := i mod width o). set (y := i / width o).
  assert (Hx : x < width o) by (apply Nat.mod_upper_bound; lia).
  assert (Hy : y < height o).
  { apply Nat.Div0.div_lt_upper_bound. lia. }
  assert (Hxy : i = y * width o + x).
  { unfold x, y. rewrite (Nat.div_mod_eq i (width o)) at 1. lia. }
  assert (Ht : texelAt (resample src o) i = texelAt (data src) i).
  { rewrite Hxy at 1. unfold resample.
    rewrite sampleLoop_texel by (rewrite ?length_replicate; done || lia).
    rewrite Hsw, Hsh, same_size_mapping by lia.
    unfold sampleTexel. rewrite Hsw, Hsh.
    rewrite same_size_sourceCoord by done. by rewrite <- Hxy. }
  assert (Hrd : readByte (resample src o) k = readByte (data src) k).
  { pose proof (Nat.div_mod_eq k 4) as Hdm.
    pose proof (Nat.mod_upper_bound k 4 ltac:(lia)) as Hm. fold i in Hdm.
    unfold texelAt in Ht. injection Ht as H1 H2 H3 H4.
    destruct (k mod 4) as [|[|[|[|c]]]] eqn:Ec; [| | | |lia].
    - by replace k with (i * 4) by lia.
    - by replace k with (i * 4 + 1) by lia.
    - by replace k with (i * 4 + 2) by lia.
    - by replace k with (i * 4 + 3) by lia. }
  unfold readByte in Hrd.
  assert (is_Some (resample src o !! k)) as [u Hu]
    by (apply lookup_lt_is_Some; lia).
  assert (is_Some (data src !! k)) as [v Hv]
    by (apply lookup_lt_is_Some; lia).
  rewrite Hu, Hv in Hrd |- *. simpl in Hrd. by rewrite Hrd.
Qed.

Lemma resample_same_size_witness :
  resample twoPixels (mkOptions 2 1 128%float false true cover)
  = data twoPixels.
Proof.
  apply (resample_same_size twoPixels
           (mkOptions 2 1 128%float false true cover));
    try reflexivity; simpl; try lia.
  repeat constructor; unfold is_byte; lia.
Defined.


(** ** Centring in binary64 *)

Lemma sourceCoord_bounds m sw sh x y sx sy :
  sourceCoord m sw sh x y = Some (sx, sy) -> sx < sw /\ sy < sh.
Proof.
  unfold sourceCoord.
  destruct (floorZ _) as [fx|]; [|done]. destruct (floorZ _) as [fy|]; [|done].
  repeat case_bool_decide; simpl; try done. intros [= <- <-]. lia.
Qed.

Lemma texelAt_whiteImage w h i :
  i < w * h -> texelAt (data (whiteImage w h)) i = (255, 255, 255, 255)%Z.
Proof.
  intros Hi. unfold texelAt, readByte, whiteImage. cbn [data].
  by rewrite !lookup_replicate_2 by lia.
Qed.

(** C8, what the code does.  The claimed coordinate is
    [floor ((x - offset) / scale)] with the scale and the centring offset of
    the fit policy.  The code computes both in binary64.  For a 49x49 source
    and the 128x64 target with fit cover, the exact scale is [128 / 49] and
    the exact horizontal offset is 0, so every pixel of target column 0 is
    claimed to show source column 0; in the code [49 * (128 / 49)] rounds
    below 128, the offset comes out positive, column 0 maps to source
    column [-1], and the whole first column of the resampled bitmap is
    opaque black although the source is white, while column 1 shows the
    source.  The same happens to the first row of a 64x128 target, and with
    fit contain to the image part of the first row of the 128x64 target:
    the claimed coordinate lies in the source, the computed one does not,
    while the row below maps into the source. *)
Theorem cover_first_column_black :
  let src := whiteImage 49 49 in
  let o := mkOptions 128 64 128%float false true cover in
  let m := fitMapping cover 128 64 49 49 in
  (forall y, y < 64 ->
     exists sy, exactCoord cover 128 64 49 49 0 y = (0, sy)%Z
       /\ (0 <= sy < 49)%Z
       /\ texelAt (data src) (Z.to_nat sy * 49 + 0) = (255, 255, 255, 255)%Z)
  /\ PrimFloat.ltb 0 (offsetX m) = true
  /\ floorZ ((ofNat 0 - offsetX m) / scaleX m)%float = Some (-1)%Z
  /\ (forall y, y < 64 ->
        texelAt (resample src o) (y * 128 + 0) = (0, 0, 0, 255)%Z)
  /\ (forall y, y < 64 ->
        texelAt (resample src o) (y * 128 + 1) = (255, 255, 255, 255)%Z)
  /\ (forall x, 0 <= x < 0 + 64 ->
        sourceCoord (fitMapping cover 64 128 49 49) 49 49 x 0 = None
        /\ exists sx, exactCoord cover 64 128 49 49 x 0 = (sx, 0)%Z
             /\ (0 <= sx < 49)%Z)
  /\ sourceCoord (fitMapping cover 64 128 49 49) 49 49 0 1 = Some (12, 0)
  /\ (forall x, 32 <= x < 32 + 64 ->
        sourceCoord (fitMapping contain 128 64 49 49) 49 49 x 0 = None
        /\ exists sx, exactCoord contain 128 64 49 49 x 0 = (sx, 0)%Z
             /\ (0 <= sx < 49)%Z)
  /\ sourceCoord (fitMapping contain 128 64 49 49) 49 49 32 1 = Some (0, 0).
Proof.
  cbv zeta.
  assert (Hrow : forall fit w h s len x, s <= x < s + len ->
            (fun x => (sourceCoord (fitMapping fit w h 49 49) 49 49 x 0,
                       snd (exactCoord fit w h 49 49 x 0),
                       bool_decide (0 <= fst (exactCoord fit w h 49 49 x 0) < 49)%Z))
              <$> seq s len
            = (fun _ => (None, 0%Z, true)) <$> seq s len ->
            sourceCoord (fitMapping fit w h 49 49) 49 49 x 0 = None
            /\ exists sx, exactCoord fit w h 49 49 x 0 = (sx, 0)%Z
                 /\ (0 <= sx < 49)%Z).
  { intros fit w h s len x Hx Htab.
    pose proof (tabulate_eq _ _ s len Htab x Hx) as E. cbv beta in E.
    apply pair_equal_spec in E as [E Hin].
    apply pair_equal_spec in E as [Hnone Hy0].
    apply bool_decide_eq_true in Hin.
    split; [done|].
    destruct (exactCoord fit w h 49 49 x 0) as [ex ey]. cbn [fst snd] in *.
    exists ex. by rewrite Hy0. }
  assert (Hb : Forall is_byte (data (whiteImage 49 49))).
  { apply Forall_replicate. unfold is_byte. lia. }
  assert (Ht : forall x y, x < 128 -> y < 64 ->
            texelAt (resample (whiteImage 49 49)
                       (mkOptions 128 64 128%float false true cover))
                    (y * 128 + x)
            = sampleTexel (fitMapping cover 128 64 49 49) (whiteImage 49 49) x y).
  { intros x y Hx Hy. unfold resample.
    apply (sampleLoop_texel _ _ 128 64); [done| |done|done].
    rewrite length_replicate. done. }
  split_and!.
  - intros y Hy.
    pose (f := fun y =>
            (fst (exactCoord cover 128 64 49 49 0 y),
             bool_decide (0 <= snd (exactCoord cover 128 64 49 49 0 y) < 49)%Z)).
    assert (Hex : f y = (0%Z, true)).
    { apply (tabulate_eq f (fun _ => (0%Z, true)) 0 64); [|lia].
      vm_compute. reflexivity. }
    unfold f in Hex. apply pair_equal_spec in Hex as [Hx0 Hin].
    apply bool_decide_eq_true in Hin.
    destruct (exactCoord cover 128 64 49 49 0 y) as [ex ey]. cbn [fst snd] in *.
    clear f. exists ey. split; [by rewrite Hx0|]. split; [done|].
    apply texelAt_whiteImage. lia.
  - vm_compute. reflexivity.
  - vm_compute. reflexivity.
  - intros y Hy. rewrite Ht by lia. unfold sampleTexel.
    change (Image.width (whiteImage 49 49)) with 49.
    change (Image.height (whiteImage 49 49)) with 49.
    assert (Hnone : sourceCoord (fitMapping cover 128 64 49 49) 49 49 0 y = None).
    { apply (tabulate_eq
               (fun y => sourceCoord (fitMapping cover 128 64 49 49) 49 49 0 y)
               (fun _ => None) 0 64); [|lia].
      vm_compute. reflexivity. }
    by rewrite Hnone.
  - intros y Hy. rewrite Ht by lia. unfold sampleTexel.
    change (Image.width (whiteImage 49 49)) with 49.
    change (Image.height (whiteImage 49 49)) with 49.
    assert (Hsome : is_Some (sourceCoord (fitMapping cover 128 64 49 49) 49 49 1 y)).
    { pose (f := fun y =>
              bool_decide (is_Some (sourceCoord (fitMapping cover 128 64 49 49)
                                      49 49 1 y))).
      assert (E : f y = true).
      { apply (tabulate_eq f (fun _ => true) 0 64); [|lia].
        vm_compute. reflexivity. }
      by apply bool_decide_eq_true in E. }
    destruct Hsome as [[sx sy] Hs]. rewrite Hs.
    apply sourceCoord_bounds in Hs as [Hsx Hsy].
    apply texelAt_whiteImage. nia.
  - intros x Hx. apply (Hrow cover 64 128 0 64 x Hx). vm_compute. reflexivity.
  - vm_compute. reflexivity.
  - intros x Hx. apply (Hrow contain 128 64 32 64 x Hx). vm_compute. reflexivity.
  - vm_compute. reflexivity.
Qed.
(** ** The alpha channel of the source *)

(** Indexed form of [forRange_sim], and its raster version. *)
Lemma forRange_sim_ind {S T : Type} (R : nat -> S -> T -> Prop) n
  (f : nat -> S -> S) (g : nat -> T -> T) s t :
  R 0 s t ->
  (forall i s t, i < n -> R i s t -> R (Datatypes.S i) (f i s) (g i t)) ->
  R n (forRange n f s) (forRange n g t).
Proof.
  intros H0 Hstep. induction n as [|n IH]; [done|].
  rewrite !forRange_S. apply Hstep; [lia|]. apply IH.
  intros i s' t' Hi. apply Hstep. lia.
Qed.

Lemma raster_sim {S T : Type} (R : nat -> S -> T -> Prop) w h
  (f : nat -> nat -> S -> S) (g : nat -> nat -> T -> T) s t :
  R 0 s t ->
  (forall x y s t, x < w -> y < h -> R (y * w + x) s t ->
                   R (Datatypes.S (y * w + x)) (f x y s) (g x y t)) ->
  R (h * w) (forRange h (fun y => forRange w (fun x => f x y)) s)
            (forRange h (fun y => forRange w (fun x => g x y)) t).
Proof.
  intros H0 Hstep.
  apply (forRange_sim_ind (fun y s t => R (y * w) s t)); [done|].
  intros y s' t' Hy HR.
  replace (Datatypes.S y * w) with (y * w + w) by lia.
  apply (forRange_sim_ind (fun x s t => R (y * w + x) s t)).
  - by rewrite Nat.add_0_r.
  - intros x s'' t'' Hx HR'.
    replace (y * w + Datatypes.S x) with (Datatypes.S (y * w + x)) by lia.
    by apply Hstep.
Qed.

(** Two byte arrays of [n] pixels with the same texels are equal. *)
Lemma texels_ext a a' n :
  length a = 4 * n -> length a' = 4 * n ->
  (forall i, i < n -> texelAt a i = texelAt a' i) -> a = a'.
Proof.
  intros Ha Ha' Ht. apply list_eq. intros k.
  destruct (decide (k < 4 * n)) as [Hk|Hk].
  2:{ by rewrite !(proj2 (lookup_ge_None _ _)) by lia. }
  pose proof (Nat.div_mod_eq k 4) as Hdm.
  pose proof (Nat.mod_upper_bound k 4 ltac:(lia)) as Hm.
  specialize (Ht (k / 4) ltac:(lia)). unfold texelAt in Ht.
  injection Ht as H1 H2 H3 H4.
  assert (Hrd : readByte a k = readByte a' k).
  { destruct (k mod 4) as [|[|[|[|c]]]] eqn:Ec; [| | | |lia].
    - by replace k with (k / 4 * 4) by lia.
    - by replace k with (k / 4 * 4 + 1) by lia.
    - by replace k with (k / 4 * 4 + 2) by lia.
    - by replace k with (k / 4 * 4 + 3) by lia. }
  unfold readByte in Hrd.
  assert (is_Some (a !! k)) as [u Hu] by (apply lookup_lt_is_Some; lia).
  assert (is_Some (a' !! k)) as [v Hv] by (apply lookup_lt_is_Some; lia).
  rewrite Hu, Hv in Hrd |- *. simpl in Hrd. by rewrite Hrd.
Qed.

(** A quantizing loop whose iterations emit their pixel does not depend on
    what the preview array held before: started on two arrays of the right
    size with the same luminance and packed buffers, it ends with the same
    preview and the same packed buffer. *)
Lemma emitting_loop_fresh w h (body : nat -> nat -> Buffers -> Buffers)
    g td td' ssd :
  (forall x y b, x < w -> y < h -> length (grayBuffer b) = w * h ->
                 emitsAt w x y b (body x y b)) ->
  (forall x y g td td' ssd, x < w -> y < h -> length g = w * h ->
     grayBuffer (body x y (mkBuffers g td ssd))
     = grayBuffer (body x y (mkBuffers g td' ssd))
     /\ ssd1306Buffer (body x y (mkBuffers g td ssd))
        = ssd1306Buffer (body x y (mkBuffers g td' ssd))
     /\ exists v, targetData (body x y (mkBuffers g td ssd))
                  = writePixel (y * w + x) (v, v, v, 255%Z) td
               /\ targetData (body x y (mkBuffers g td' ssd))
                  = writePixel (y * w + x) (v, v, v, 255%Z) td') ->
  length g = w * h -> length td = 4 * w * h -> length td' = 4 * w * h ->
  let run := fun td =>
    forRange h (fun y => forRange w (fun x => body x y)) (mkBuffers g td ssd) in
  targetData (run td) = targetData (run td')
  /\ ssd1306Buffer (run td) = ssd1306Buffer (run td').
Proof.
  intros Hemit Hbody Hg Ht Ht'. cbv zeta.
  pose (R := fun (k : nat) (s s' : Buffers) =>
          grayBuffer s = grayBuffer s' /\ ssd1306Buffer s = ssd1306Buffer s'
          /\ length (grayBuffer s) = w * h
          /\ length (targetData s) = 4 * w * h
          /\ length (targetData s') = 4 * w * h
          /\ forall i, i < k ->
               texelAt (targetData s) i = texelAt (targetData s') i).
  assert (HR : R (h * w)
            (forRange h (fun y => forRange w (fun x => body x y))
               (mkBuffers g td ssd))
            (forRange h (fun y => forRange w (fun x => body x y))
               (mkBuffers g td' ssd))).
  { apply (raster_sim R); unfold R.
    - split_and!; try done. intros i Hi. lia.
    - intros x y [g1 t1 s1] [g2 t2 s2] Hx Hy (Eg & Es & Lg & L1 & L2 & Hprev).
      cbn [grayBuffer targetData ssd1306Buffer] in *. subst g2 s2.
      destruct (Hbody x y g1 t1 t2 s1 Hx Hy Lg) as (Eg' & Es' & v & Et1 & Et2).
      destruct (Hemit x y (mkBuffers g1 t1 s1) Hx Hy Lg) as [Lg' _].
      cbn [grayBuffer] in Lg'.
      rewrite Et1, Et2, !length_writePixel. split_and!; try done; [congruence|].
      intros i Hi. destruct (decide (i = y * w + x)) as [->|Hne].
      + by rewrite !texelAt_writePixel by nia.
      + rewrite !texelAt_writePixel_ne by done. apply Hprev. lia. }
  destruct HR as (_ & Es & _ & L1 & L2 & Hall). split; [|done].
  apply (texels_ext _ _ (h * w)); [lia|lia|done].
Qed.

Lemma ditherStep_fresh w h t x y g td td' ssd :
  x < w -> y < h -> length g = w * h ->
  grayBuffer (ditherStep w h t x y (mkBuffers g td ssd))
  = grayBuffer (ditherStep w h t x y (mkBuffers g td' ssd))
  /\ ssd1306Buffer (ditherStep w h t x y (mkBuffers g td ssd))
     = ssd1306Buffer (ditherStep w h t x y (mkBuffers g td' ssd))
  /\ exists v, targetData (ditherStep w h t x y (mkBuffers g td ssd))
               = writePixel (y * w + x) (v, v, v, 255%Z) td
            /\ targetData (ditherStep w h t x y (mkBuffers g td' ssd))
               = writePixel (y * w + x) (v, v, v, 255%Z) td'.
Proof.
  intros Hx Hy Hg. unfold ditherStep. cbn [grayBuffer targetData ssd1306Buffer].
  assert (is_Some (g !! (y * w + x))) as [old ->].
  { apply lookup_lt_is_Some. nia. }
  unfold emitPixel. cbn [grayBuffer targetData ssd1306Buffer].
  split_and!; try done. by eexists.
Qed.

Lemma thresholdStep_fresh w h t inv x y g td td' ssd :
  x < w -> y < h -> length g = w * h ->
  grayBuffer (thresholdStep w t inv x y (mkBuffers g td ssd))
  = grayBuffer (thresholdStep w t inv x y (mkBuffers g td' ssd))
  /\ ssd1306Buffer (thresholdStep w t inv x y (mkBuffers g td ssd))
     = ssd1306Buffer (thresholdStep w t inv x y (mkBuffers g td' ssd))
  /\ exists v, targetData (thresholdStep w t inv x y (mkBuffers g td ssd))
               = writePixel (y * w + x) (v, v, v, 255%Z) td
            /\ targetData (thresholdStep w t inv x y (mkBuffers g td' ssd))
               = writePixel (y * w + x) (v, v, v, 255%Z) td'.
Proof.
  intros Hx Hy Hg. unfold thresholdStep.
  cbn [grayBuffer targetData ssd1306Buffer].
  assert (is_Some (g !! (y * w + x))) as [old ->].
  { apply lookup_lt_is_Some. nia. }
  unfold emitPixel. cbn [grayBuffer targetData ssd1306Buffer].
  split_and!; try done. by eexists.
Qed.

(** The luminance of the resampled bitmap depends on the colour bytes of
    the source only. *)
Lemma luminance_resample_rgb src src' o i :
  Forall is_byte (data src) -> Forall is_byte (data src') ->
  Image.width src = Image.width src' -> Image.height src = Image.height src' ->
  sameColours (data src) (data src') ->
  i < width o * height o ->
  luminance (resample src o) i = luminance (resample src' o) i.
Proof.
  intros Hb Hb' Hsw Hsh Hrgb Hi.
  assert (Hw : 0 < width o) by (destruct (width o); lia).
  set (x := i mod width o). set (y := i / width o).
  assert (Hx : x < width o) by (apply Nat.mod_upper_bound; lia).
  assert (Hy : y < height o).
  { apply Nat.Div0.div_lt_upper_bound. lia. }
  assert (Hxy : i = y * width o + x).
  { unfold x, y. rewrite (Nat.div_mod_eq i (width o)) at 1. lia. }
  set (m := fitMapping (fit o) (width o) (height o)
              (Image.width src) (Image.height src)).
  assert (Ht : texelAt (resample src o) i = sampleTexel m src x y).
  { rewrite Hxy. unfold resample. apply sampleLoop_texel; try done.
    rewrite length_replicate. lia. }
  assert (Ht' : texelAt (resample src' o) i = sampleTexel m src' x y).
  { rewrite Hxy. unfold resample, m. rewrite Hsw, Hsh.
    apply sampleLoop_texel; try done. rewrite length_replicate. lia. }
  unfold texelAt, sampleTexel in Ht, Ht'. rewrite <- Hsw, <- Hsh in Ht'.
  unfold luminance.
  destruct (sourceCoord m _ _ x y) as [[sx sy]|].
  - unfold texelAt in Ht, Ht'.
    injection Ht as -> -> -> _. injection Ht' as -> -> -> _.
    destruct (Hrgb (sy * Image.width src + sx)) as (-> & -> & ->). done.
  - injection Ht as -> -> -> _. injection Ht' as -> -> -> _. done.
Qed.

(** X22.  [processFrame] never looks at the alpha channel of its input:
    two source images of the same size whose pixels have the same colour
    bytes give the same packed buffer and the same preview, whatever their
    alpha bytes are.  A fully transparent pixel counts with the colour it
    carries. *)
Theorem processFrame_ignores_alpha src src' o :
  Forall is_byte (data src) -> Forall is_byte (data src') ->
  Image.width src = Image.width src' -> Image.height src = Image.height src' ->
  sameColours (data src) (data src') ->
  processFrame src o = processFrame src' o.
Proof.
  intros Hb Hb' Hsw Hsh Hrgb. unfold processFrame.
  set (td := resample src o). set (td' := resample src' o).
  pose proof (length_resample src o) as Lt.
  pose proof (length_resample src' o) as Lt'. fold td in Lt. fold td' in Lt'.
  set (n := width o * height o).
  assert (Hgray : grayLoop n td (replicate n 0%float)
                  = grayLoop n td' (replicate n 0%float)).
  { apply list_eq. intros i.
    destruct (decide (i < n)) as [Hi|Hi].
    - rewrite !grayLoop_lookup by (rewrite ?length_replicate; done).
      f_equal. by apply luminance_resample_rgb.
    - by rewrite !(proj2 (lookup_ge_None _ _))
        by (rewrite length_grayLoop, length_replicate; lia). }
  assert (Hbuf : targetData (quantizeAndPack o td)
                 = targetData (quantizeAndPack o td')
                 /\ ssd1306Buffer (quantizeAndPack o td)
                    = ssd1306Buffer (quantizeAndPack o td')).
  { unfold quantizeAndPack. fold n. rewrite <- Hgray.
    set (g := grayLoop n td (replicate n 0%float)).
    assert (Lg : length g = width o * height o).
    { unfold g. by rewrite length_grayLoop, length_replicate. }
    destruct (dither o).
    - unfold ditherLoop.
      apply (emitting_loop_fresh (width o) (height o)
               (ditherStep (width o) (height o) (threshold o))).
      + intros x y b Hx Hy Hl. by apply ditherStep_emits.
      + intros. by apply ditherStep_fresh.
      + destruct (invert o); rewrite ?length_invertGray; done.
      + done.
      + done.
    - unfold thresholdLoop.
      apply (emitting_loop_fresh (width o) (height o)
               (thresholdStep (width o) (threshold o) (invert o))).
      + intros x y b Hx Hy Hl. by apply (thresholdStep_emits _ (height o)).
      + intros. by apply (thresholdStep_fresh _ (height o)).
      + done.
      + done.
      + done. }
  destruct Hbuf as [E1 E2]. unfold result. by rewrite E1, E2.
Qed.

Lemma processFrame_ignores_alpha_witness :
  processFrame (mkImageData 1 1 [255; 255; 255; 0]%Z) (plainOptions 8 8 true)
  = processFrame (mkImageData 1 1 [255; 255; 255; 255]%Z) (plainOptions 8 8 true).
Proof.
  apply (processFrame_ignores_alpha (mkImageData 1 1 [255; 255; 255; 0]%Z)
           (mkImageData 1 1 [255; 255; 255; 255]%Z) (plainOptions 8 8 true));
    try reflexivity.
  - repeat constructor; unfold is_byte; lia.
  - repeat constructor; unfold is_byte; lia.
  - intros [|i]; repeat split; reflexivity.
Defined.
End FrameMore.

(** * The video sampling loop *)

Section VideoFacts.
Import Video.
Context {A : Type}.
Variable grab : float -> grabbed A.

(** With the fuel the cap leaves room for, the model never runs out of
    fuel: the body is entered at most 501 times.  The loop returns at most
    501 frames, and returns the frames it started with only when the guard
    fails at once. *)
Lemma captureLoop_spec duration interval fuel : forall currentTime frames,
  length frames <= 500 -> 501 - length frames <= fuel ->
  match captureLoop grab fuel duration interval currentTime frames with
  | Resolved fs =>
      length frames <= length fs <= 501
      /\ (fs = frames <-> PrimFloat.ltb currentTime duration = false)
  | Rejected => exists t, grab t = Throws
  | Pending => exists t, grab t = Stalls
  | Running => False
  end.
Proof.
  induction fuel as [|fuel IH]; intros t frames Hlen Hfuel; [lia|].
  cbn [captureLoop]. destruct (PrimFloat.ltb t duration) eqn:Et.
  2:{ split; [lia|done]. }
  destruct (grab t) as [frame| |] eqn:Eg; [|by exists t..].
  cbv zeta. rewrite length_app. cbn [length].
  case_bool_decide as Hcap.
  - rewrite length_app. cbn [length]. split; [lia|].
    split; [|done]. intros E. apply (f_equal length) in E.
    rewrite length_app in E. simpl in E. lia.
  - specialize (IH (t + interval)%float (frames ++ [frame])).
    rewrite length_app in IH. cbn [length] in IH.
    specialize (IH ltac:(lia) ltac:(lia)).
    destruct (captureLoop grab fuel duration interval _ _) as [fs| | |];
      [|done..].
    destruct IH as [Hfs _]. split; [lia|].
    split; [|done]. intros E. rewrite E in Hfs. lia.
Qed.
End VideoFacts.


(** * The header text *)

Section HeaderFacts.
Import RLE Header.

(** ** Total size *)

Lemma totalBytes_foldl (frames : list (list Z)) acc :
  foldl (fun acc val => acc + length val) acc frames
  = acc + sum_list (length <$> frames).
Proof.
  revert acc. induction frames as [|f frames IH]; intros acc.
  - simpl. lia.
  - cbn [foldl]. rewrite IH, fmap_cons. cbn [sum_list sum_list_with id]. lia.
Qed.

Lemma finalFrames_plain rawFrames : finalFrames false rawFrames = rawFrames.
Proof.
  unfold finalFrames. induction rawFrames as [|f fs IH]; [done|].
  rewrite filter_cons_True by done. by rewrite IH.
Qed.

(** X19.  With compression the header holds as many frames as without, and the
    reported total size exceeds the uncompressed total by at most one byte
    per started block of 128 bytes of each frame; without compression the
    frames are emitted as they are. *)
Theorem totalBytes_compressed rawFrames :
  finalFrames false rawFrames = rawFrames
  /\ length (finalFrames true rawFrames) = length rawFrames
  /\ totalBytes (finalFrames true rawFrames)
     <= totalBytes (finalFrames false rawFrames)
        + sum_list ((fun f => Frame.ceilDiv (length f) 128) <$> rawFrames).
Proof.
  split; [apply finalFrames_plain|]. split.
  - unfold finalFrames. by rewrite length_fmap.
  - rewrite finalFrames_plain. unfold totalBytes, finalFrames.
    rewrite !totalBytes_foldl. cbn [Nat.add].
    induction rawFrames as [|f fs IH]; [done|].
    rewrite !fmap_cons. cbn [sum_list sum_list_with id].
    unfold Frame.ceilDiv in *.
    change (128 - 1) with 127 in *.
    assert (Hf : length (compressRLE f) <= length f + (length f + 127) / 128).
    { unfold compressRLE. rewrite length_fmap.
      pose proof (length_compressLoop_tight f (length f) 0) as H.
      rewrite Nat.sub_0_r in H. apply H; lia. }
    lia.
Qed.

(** ** The bytes of a frame as text *)

Local Arguments String.append : simpl nomatch.

Lemma string_app_nil_r (s : string) : s +:+ "" = s.
Proof. induction s as [|c s IH]; [done|]. cbn [String.append]. by f_equal. Qed.

Lemma string_app_assoc (s1 s2 s3 : string) :
  (s1 +:+ s2) +:+ s3 = s1 +:+ (s2 +:+ s3).
Proof. induction s1 as [|c s1 IH]; [done|]. cbn [String.append]. by f_equal. Qed.

(** A byte is printed as [0x] and two digits, lower-case ones, which read
    back as the byte. *)
Lemma hexLiteral_byte b :
  is_byte b ->
  (exists h1 h2,
     hexLiteral b = String "0" (String "x" (String h1 (String h2 "")))
     /\ lowerHexDigit h1 = true /\ lowerHexDigit h2 = true)
  /\ hexValue (hexLiteral b) = Some b.
Proof.
  intros [H0 H1]. rewrite <- (Z2Nat.id b) by done.
  assert (Hn : 0 <= Z.to_nat b < 0 + 256) by lia.
  revert Hn. generalize (Z.to_nat b). clear. intros n Hn. split.
  - pose (f := fun n =>
        match padStart 2 "0"%char (toString16 (Z.of_nat n)) with
        | String h1 (String h2 "") => lowerHexDigit h1 && lowerHexDigit h2
        | _ => false
        end).
    assert (Hs : f n = true).
    { apply (tabulate_eq f (fun _ => true) 0 256); [|done].
      vm_compute. reflexivity. }
    unfold f in Hs. unfold hexLiteral.
    destruct (padStart 2 "0"%char (toString16 (Z.of_nat n)))
      as [|h1 [|h2 [|h3 rest]]]; try done.
    apply andb_true_iff in Hs as [Hl1 Hl2]. by exists h1, h2.
  - apply (tabulate_eq (fun n => hexValue (hexLiteral (Z.of_nat n)))
             (fun n => Some (Z.of_nat n)) 0 256); [|done].
    vm_compute. reflexivity.
Qed.

(** X20.  Every byte of a frame is written as [0x] followed by exactly two
    hexadecimal digits, each a digit [0-9] or a lower-case letter [a-f],
    and a C compiler reads the byte back from that literal. *)
Theorem hexLiteral_round_trip b :
  is_byte b ->
  (exists h1 h2,
     hexLiteral b = String "0" (String "x" (String h1 (String h2 "")))
     /\ lowerHexDigit h1 = true /\ lowerHexDigit h2 = true)
  /\ String.length (hexLiteral b) = 4
  /\ hexValue (hexLiteral b) = Some b.
Proof.
  intros Hb.
  destruct (hexLiteral_byte b Hb) as [(h1 & h2 & Hs & Hl1 & Hl2) Hv].
  split_and!; [by exists h1, h2|by rewrite Hs|done].
Qed.

Lemma hexLiteral_round_trip_witness :
  (exists h1 h2,
     hexLiteral 171 = String "0" (String "x" (String h1 (String h2 "")))
     /\ lowerHexDigit h1 = true /\ lowerHexDigit h2 = true)
  /\ String.length (hexLiteral 171) = 4
  /\ hexValue (hexLiteral 171) = Some 171%Z.
Proof.
  apply (hexLiteral_round_trip 171). unfold is_byte. lia.
Defined.

(** The loop appends [textFrom] of the frame to the text so far. *)
Lemma frameText_textFrom_gen frame : forall rest pre out,
  frame = pre ++ rest ->
  foldl (fun s i => byteText frame i s) out (seq (length pre) (length rest))
  = out +:+ textFrom (length pre) rest.
Proof.
  induction rest as [|b rest IH]; intros pre out Hf.
  - simpl. by rewrite string_app_nil_r.
  - cbn [length seq foldl].
    assert (Hpre : frame = (pre ++ [b]) ++ rest) by (by rewrite <- app_assoc).
    specialize (IH (pre ++ [b]) (byteText frame (length pre) out) Hpre).
    rewrite length_app in IH. cbn [length] in IH.
    replace (length pre + 1) with (S (length pre)) in IH by lia.
    rewrite IH. cbn [textFrom]. unfold byteText.
    assert (Hb : frame !!! length pre = b).
    { rewrite Hf. by rewrite list_lookup_total_middle. }
    rewrite Hb.
    assert (Hlast : bool_decide (length pre < length frame - 1)
                    = match rest with [] => false | _ => true end).
    { rewrite Hf, length_app. cbn [length].
      destruct rest; [rewrite bool_decide_eq_false_2|rewrite bool_decide_eq_true_2];
        simpl; try done; lia. }
    rewrite Hlast.
    clear Hlast IH.
    destruct (bool_decide ((length pre + 1) mod 16 = 0));
      destruct rest as [|c rest];
      rewrite ?string_app_assoc; cbn [String.append];
      rewrite ?string_app_assoc; cbn [String.append]; done.
Qed.

Lemma frameText_textFrom frame out :
  frameText frame out = out +:+ textFrom 0 frame.
Proof.
  unfold frameText, Frame.forRange.
  by apply (frameText_textFrom_gen frame frame []).
Qed.

Lemma textFrom_inj l1 : forall l2 i,
  Forall is_byte l1 -> Forall is_byte l2 ->
  textFrom i l1 = textFrom i l2 -> l1 = l2.
Proof.
  induction l1 as [|b1 r1 IH]; intros l2 i H1 H2 E.
  - destruct l2 as [|b2 r2]; [done|exfalso].
    apply Forall_cons in H2 as [Hb2 _].
    destruct (hexLiteral_byte b2 Hb2) as [(h1 & h2 & Hs & _) _].
    cbn [textFrom] in E. rewrite Hs in E. discriminate E.
  - destruct l2 as [|b2 r2].
    { exfalso. apply Forall_cons in H1 as [Hb1 _].
      destruct (hexLiteral_byte b1 Hb1) as [(h1 & h2 & Hs & _) _].
      cbn [textFrom] in E. rewrite Hs in E. discriminate E. }
    apply Forall_cons in H1 as [Hb1 Hr1]. apply Forall_cons in H2 as [Hb2 Hr2].
    destruct (hexLiteral_byte b1 Hb1) as [(h1 & h2 & Hs1 & _) Hv1].
    destruct (hexLiteral_byte b2 Hb2) as [(h1' & h2' & Hs2 & _) Hv2].
    cbn [textFrom] in E.
    assert (Hlit : hexLiteral b1 = hexLiteral b2
                   /\ (match r1 with [] => "" | _ => ", " end)
                      +:+ ((if bool_decide ((i + 1) mod 16 = 0)
                            then newline else "") +:+ textFrom (S i) r1)
                    = (match r2 with [] => "" | _ => ", " end)
                      +:+ ((if bool_decide ((i + 1) mod 16 = 0)
                            then newline else "") +:+ textFrom (S i) r2)).
    { rewrite Hs1, Hs2 in E |- *. cbn [String.append] in E.
      injection E as -> -> E. done. }
    destruct Hlit as [Hlit Etail].
    assert (b1 = b2) as <-.
    { rewrite Hlit in Hv1. rewrite Hv1 in Hv2. by injection Hv2. }
    f_equal. clear E Hlit Hs1 Hs2 Hv1 Hv2.
    destruct r1 as [|c1 r1'], r2 as [|c2 r2']; [done| | |].
    + exfalso. cbn [textFrom String.append] in Etail.
      rewrite string_app_nil_r in Etail.
      case_bool_decide; discriminate Etail.
    + exfalso. cbn [textFrom String.append] in Etail.
      rewrite string_app_nil_r in Etail.
      case_bool_decide; discriminate Etail.
    + apply (IH (c2 :: r2') (S i)); [done|done|].
      cbn [String.append] in Etail. injection Etail as Etail.
      by apply String.app_inj in Etail.
Qed.

(** X21.  The text written for a frame determines the frame: two frames of
    bytes that are printed alike are equal, so nothing of a frame is lost
    in the header. *)
Theorem frameText_faithful frame1 frame2 :
  Forall is_byte frame1 -> Forall is_byte frame2 ->
  frameText frame1 "" = frameText frame2 "" -> frame1 = frame2.
Proof.
  intros H1 H2 E. rewrite !frameText_textFrom in E. cbn [String.append] in E.
  by apply (textFrom_inj frame1 frame2 0).
Qed.

Lemma frameText_faithful_witness : [255; 0; 18]%Z = [255; 0; 18]%Z.
Proof.
  apply (frameText_faithful [255; 0; 18]%Z [255; 0; 18]%Z);
    [repeat constructor; unfold is_byte; lia..|reflexivity].
Defined.
End HeaderFacts.

(** * The converter component *)

Section ConverterFacts.
Import Image Canvas Converter.

(** X11.  The component sizes the canvas after the patch of the first frame, not
    after the logical screen of the GIF.  When composing succeeds, the
    first image has the size of the first patch, and every position of it
    outside the patch rectangle is transparent: a first patch placed at an
    offset is drawn shifted, and what falls off the canvas is lost. *)
Theorem onDrop_first_frame_clipped blend frame rest frames x y :
  onDropCompose blend (frame :: rest) = Some frames ->
  x < dwidth (dims frame) -> y < dheight (dims frame) ->
  exists first,
    head frames = Some first
    /\ width first = dwidth (dims frame)
    /\ height first = dheight (dims frame)
    /\ (inRect (dims frame) x y = false ->
        imagePixel first x y = Some transparent).
Proof.
  intros Hdrop Hx Hy. unfold onDropCompose, extractComposedFrames in Hdrop.
  cbn [head fmap option_fmap option_map compose] in Hdrop.
  assert (Hw : orDefault (Some (dwidth (dims frame))) 128 = dwidth (dims frame))
    by (destruct (dwidth (dims frame)); [lia|done]).
  assert (Hh : orDefault (Some (dheight (dims frame))) 64 = dheight (dims frame))
    by (destruct (dheight (dims frame)); [lia|done]).
  rewrite Hw, Hh in Hdrop. clear Hw Hh.
  set (canvas := newCanvas (dwidth (dims frame)) (dheight (dims frame))) in *.
  destruct (composeLoop blend (frame :: rest) canvas []) as [[last out]|] eqn:Hloop;
    [|done].
  cbn [fmap option_fmap option_map snd] in Hdrop. injection Hdrop as ->.
  pose proof (composeLoop_wellFormed blend _ _ _ _ Hloop) as Hall.
  apply Forall_cons in Hall as [Hf Hrest].
  assert (Hc : wellFormedCanvas canvas).
  { unfold wellFormedCanvas, canvas, newCanvas. cbn [bw bh pixels].
    rewrite length_replicate. split_and!; [lia|lia|done]. }
  destruct (composeStep_Some blend frame canvas Hc Hf)
    as (next & img & drawn & Hstep & Hdraw & Himg & Hshape & _ & Hn & _ & _).
  cbn [composeLoop] in Hloop. rewrite Hstep in Hloop.
  cbn [mbind option_bind app] in Hloop.
  destruct (composeLoop_shape blend rest next [img] Hn Hrest)
    as (last' & out & Hloop' & _).
  rewrite Hloop' in Hloop. injection Hloop as _ <-.
  exists img. split; [done|]. rewrite Hshape. cbn [width height].
  split_and!; [done|done|]. intros Hout.
  rewrite <- Hshape, (imagePixel_getImageData _ _ x y Himg).
  rewrite (drawPatch_outside blend frame canvas drawn x y Hdraw Hout).
  by apply pixelAt_newCanvas.
Qed.

Lemma onDrop_first_frame_clipped_witness :
  exists first,
    head [mkImageData 2 1 [0; 0; 0; 0; 255; 0; 0; 255]%Z] = Some first
    /\ width first = 2 /\ height first = 1
    /\ (inRect (mkDims 1 0 2 1) 0 0 = false ->
        imagePixel first 0 0 = Some transparent).
Proof.
  apply (onDrop_first_frame_clipped (fun s _ => s)
           (mkRawFrame (mkDims 1 0 2 1) [255; 0; 0; 255; 0; 255; 0; 255]%Z 1)
           [] [mkImageData 2 1 [0; 0; 0; 0; 255; 0; 0; 255]%Z] 0 0);
    try reflexivity; simpl; lia.
Defined.
End ConverterFacts.
